(** * VocalBridge Ops gateway: resilient vendor calls, idempotency, billing

    A shallow embedding of the vendor-call pipeline documented in the
    repository's architecture documents (the Python snippets of
    [ARCHITECTURE.md], two revisions) and of the dashboard's chat hook
    ([frontend/src/hooks/useChat.ts], [frontend/src/api/sessions.ts],
    [frontend/src/api/voice.ts]).

    Layout:
    - [PyDecimal]   : the fragment of Python's [decimal] module that
                      [calculate_cost] uses (default context);
    - [Billing]     : [PRICING] and [calculate_cost];
    - [Resilience]  : timeout, retry with exponential backoff, fallback;
    - [Idempotency] : the two documented stores (SQL table, Redis keys);
    - [Orchestrator]: [send_message] and [handle_message];
    - [Dashboard]   : the React chat hook;
    - [VoiceRecorder], [Auth], [ChatPage] : the rest of the dashboard
                      (recording timer, API key handling, chat page);
    - [Tenancy], [Tools], [Analytics] : authentication and tenant
                      scoping, the tool framework and the analytics
                      queries of the backend.
    The properties follow the definitions, one module of facts per
    component, and [Scenarios] runs the documented examples. *)

From Stdlib Require Import ZArith QArith Qround Lia Bool List Ascii String.
From stdpp Require Import base strings gmap pretty.

Local Open Scope Z_scope.

(** ** Python's [decimal] arithmetic, default context *)

Module PyDecimal.

(** A finite decimal: [coef * 10 ^ dexp].  The sign lives in [coef]
    (no operand of [calculate_cost] is a negative zero). *)
Record Decimal := mkDecimal { coef : Z; dexp : Z }.

(** Exceptions the arithmetic can raise under the default traps. *)
Inductive exn := InvalidOperation | DivisionByZero.

(** [getcontext().prec] and rounding of the default context:
    28 significant digits, [ROUND_HALF_EVEN]. *)
Definition prec : Z := 28.

(** [Decimal(n)] for a Python [int]: exact. *)
Definition of_int (n : Z) : Decimal := mkDecimal n 0.

(** [len(str(n))] for [n >= 0]. *)
Fixpoint ndigits_fuel (fuel : nat) (n : Z) : Z :=
  match fuel with
  | O => 1
  | S f => if n <? 10 then 1 else 1 + ndigits_fuel f (n / 10)
  end.

Definition ndigits (n : Z) : Z :=
  ndigits_fuel (S (Z.to_nat (Z.log2 n))) n.

(** [adjusted()]: exponent of the most significant digit. *)
Definition adjusted (x : Decimal) : Z :=
  dexp x + ndigits (Z.abs (coef x)) - 1.

(** Divide the magnitude [c] by [d = 10^k], rounding half to even. *)
Definition round_half_even (c d : Z) : Z :=
  let q := c / d in
  let r := c mod d in
  if 2 * r <? d then q
  else if d <? 2 * r then q + 1
  else if Z.even q then q else q + 1.

(** The same division rounding half up (the mode the specification
    names); used only to compare. *)
Definition round_half_up (c d : Z) : Z :=
  let q := c / d in
  let r := c mod d in
  if 2 * r <? d then q else q + 1.

(** [Decimal._fix]: round to at most [prec] digits.  Exponent limits
    (Emax = 999999) are not modelled. *)
Definition fix_ (x : Decimal) : Decimal :=
  let c := Z.abs (coef x) in
  let n := ndigits c in
  if n <=? prec then x
  else
    let drop := n - prec in
    let q := round_half_even c (10 ^ drop) in
    if prec <? ndigits q
    then mkDecimal (Z.sgn (coef x) * (q / 10)) (dexp x + drop + 1)
    else mkDecimal (Z.sgn (coef x) * q) (dexp x + drop).

(** The loop of [__truediv__] that brings an exact quotient as close to
    the ideal exponent as its trailing zeros allow; [fuel] is
    [ideal_exp - exp]. *)
Fixpoint strip (fuel : nat) (coeff exp : Z) : Z * Z :=
  match fuel with
  | O => (coeff, exp)
  | S f =>
      if coeff mod 10 =? 0 then strip f (coeff / 10) (exp + 1)
      else (coeff, exp)
  end.

(** [Decimal.__truediv__]. *)
Definition truediv (a b : Decimal) : exn + Decimal :=
  if coef b =? 0 then
    inl (if coef a =? 0 then InvalidOperation else DivisionByZero)
  else if coef a =? 0 then inr (fix_ (mkDecimal 0 (dexp a - dexp b)))
  else
    let sign := Z.sgn (coef a) * Z.sgn (coef b) in
    let ai := Z.abs (coef a) in
    let bi := Z.abs (coef b) in
    let shift := ndigits bi - ndigits ai + prec + 1 in
    let exp := dexp a - dexp b - shift in
    let num := if 0 <=? shift then ai * 10 ^ shift else ai in
    let den := if 0 <=? shift then bi else bi * 10 ^ (- shift) in
    let coeff := num / den in
    let remainder := num mod den in
    let '(coeff, exp) :=
      if remainder =? 0
      then strip (Z.to_nat (dexp a - dexp b - exp)) coeff exp
      else (if coeff mod 5 =? 0 then coeff + 1 else coeff, exp) in
    inr (fix_ (mkDecimal (sign * coeff) exp)).

(** [Decimal.__mul__]. *)
Definition mul (a b : Decimal) : Decimal :=
  fix_ (mkDecimal (coef a * coef b) (dexp a + dexp b)).

(** [Decimal.__add__]: the exact sum at the smaller exponent, rounded
    to the context precision. *)
Definition add (a b : Decimal) : Decimal :=
  let e := Z.min (dexp a) (dexp b) in
  fix_ (mkDecimal (coef a * 10 ^ (dexp a - e) + coef b * 10 ^ (dexp b - e)) e).

(** [Decimal._rescale(exp, ROUND_HALF_EVEN)]. *)
Definition rescale (x : Decimal) (e : Z) : Decimal :=
  if e <=? dexp x
  then mkDecimal (coef x * 10 ^ (dexp x - e)) e
  else mkDecimal (Z.sgn (coef x) *
                  round_half_even (Z.abs (coef x)) (10 ^ (e - dexp x))) e.

(** [Decimal.quantize(Decimal(1E<e>))]: the value at exponent [e];
    [InvalidOperation] when the result needs more than [prec] digits. *)
Definition quantize (x : Decimal) (e : Z) : exn + Decimal :=
  if coef x =? 0 then inr (mkDecimal 0 e)
  else if prec <? adjusted x - e + 1 then inl InvalidOperation
  else
    let ans := rescale x e in
    if prec <? ndigits (Z.abs (coef ans)) then inl InvalidOperation
    else inr ans.

(** The rational a decimal denotes. *)
Definition to_Q (x : Decimal) : Q :=
  (inject_Z (coef x) * (10 # 1) ^ dexp x)%Q.

End PyDecimal.

(** ** Billing *)

(** The closed set of provider identifiers (['vendorA' | 'vendorB']). *)
Inductive provider := vendorA | vendorB.

#[global] Instance provider_eq_dec : EqDecision provider.
Proof. solve_decision. Defined.

Module Billing.
Import PyDecimal.

Record pricing := mkPricing { input_tokens : Decimal; output_tokens : Decimal }.

(** [PRICING]: dollars per 1000 tokens, [Decimal("0.002")] and
    [Decimal("0.003")]. *)
Definition PRICING (p : provider) : pricing :=
  match p with
  | vendorA => mkPricing (mkDecimal 2 (-3)) (mkDecimal 2 (-3))
  | vendorB => mkPricing (mkDecimal 3 (-3)) (mkDecimal 3 (-3))
  end.

(** [calculate_cost], over an injected price table. *)
Definition calculate_cost_with (table : provider -> pricing)
    (p : provider) (tokens_in tokens_out : Z) : exn + Decimal :=
  let pr := table p in
  match truediv (of_int tokens_in) (of_int 1000),
        truediv (of_int tokens_out) (of_int 1000) with
  | inr qi, inr qo =>
      let input_cost := mul qi (input_tokens pr) in
      let output_cost := mul qo (output_tokens pr) in
      quantize (add input_cost output_cost) (-6)
  | inl e, _ => inl e
  | _, inl e => inl e
  end.

Definition calculate_cost : provider -> Z -> Z -> exn + Decimal :=
  calculate_cost_with PRICING.

(** The specification's formula, over the rationals. *)
Definition exact_cost (table : provider -> pricing)
    (p : provider) (tokens_in tokens_out : Z) : Q :=
  ((inject_Z tokens_in / 1000) * to_Q (input_tokens (table p)) +
   (inject_Z tokens_out / 1000) * to_Q (output_tokens (table p)))%Q.

(** [round6]: millionths of a dollar, rounding half up. *)
Definition round6_half_up (q : Q) : Z :=
  Qfloor (q * 1000000 + (1 # 2))%Q.

End Billing.

(** ** Timeout, retry with backoff, fallback *)

Module Resilience.

(** The common response format ([normalize_response]). *)
Record NormalizedResponse := mkResponse {
  text : string;
  tokens_in : Z;
  tokens_out : Z;
  latency_ms : Z
}.

(** The three exception classes listed in [retry_if_exception_type]. *)
Inductive vendor_error :=
| VendorAHTTPError (status_code : Z)
| VendorBRateLimitError (retry_after_ms : Z)
| VendorCallTimeout.

Definition retry_if_exception_type (e : vendor_error) : bool :=
  match e with
  | VendorAHTTPError _ | VendorBRateLimitError _ | VendorCallTimeout => true
  end.

Record VendorRequest := mkRequest {
  req_content : string;
  req_system_prompt : string;
  req_correlation_id : string
}.

(** What one call of a mocked vendor does: how long it runs, and whether
    it returns a normalized response or raises. *)
Record raw_call := mkRaw {
  elapsed_ms : Z;
  raw_result : vendor_error + NormalizedResponse
}.

(** A vendor adapter.  The mocks fail at random ([random.random()]);
    [send_message] takes the index of the call (1 for the first call of
    this adapter in the logical request) as the source of that
    randomness. *)
Record VendorAdapter := mkAdapter {
  name : provider;
  send_message : VendorRequest -> nat -> raw_call
}.

(** Timeout and [@retry] parameters, in milliseconds, and what the
    documents leave open: the body of the retried function is printed as
    [pass], so the time it sleeps on its own after a failed vendor call,
    before the exception leaves it, is a parameter ([sleep_on_error], the
    milliseconds it hands to [asyncio.sleep]). *)
Record policy := mkPolicy {
  timeout_ms : Z;
  max_attempts : nat;
  multiplier_ms : Z;
  min_wait_ms : Z;
  max_wait_ms : Z;
  sleep_on_error : vendor_error -> Z
}.

(** The documented special handling of rate limits, run where the
    exception [e] is at hand:
    [if isinstance(e, VendorBRateLimitError): wait_seconds =
    e.retry_after_ms / 1000; await asyncio.sleep(wait_seconds)]. *)
Definition respect_retry_after (e : vendor_error) : Z :=
  match e with
  | VendorBRateLimitError ms => ms
  | _ => 0
  end.


(** [timeout=10], [stop_after_attempt(3)],
    [wait_exponential(multiplier=1, min=1, max=10)], and the rate-limit
    handling inside the retried function. *)
Definition default_policy : policy :=
  mkPolicy 10000 3 1000 1000 10000 respect_retry_after.


(** [wait_exponential.__call__] after failed attempt [k] (1-based):
    [max(max(0, min), min(multiplier * 2 ** (k - 1), max))]. *)
Definition wait_exponential (pol : policy) (k : nat) : Z :=
  Z.max (Z.max 0 (min_wait_ms pol))
        (Z.min (multiplier_ms pol * 2 ^ (Z.of_nat k - 1)) (max_wait_ms pol)).

(** Values of [provider_calls.status]; [st_retrying] is printed
    [retry] in the documented tables. *)
Inductive status := st_attempted | st_retrying | st_fallback | st_success | st_error.

#[global] Instance status_eq_dec : EqDecision status.
Proof. solve_decision. Defined.

(** The columns of [provider_calls] that the tracing query selects. *)
Record ProviderCallRecord := mkCall {
  call_correlation_id : string;
  call_provider : provider;
  attempt_number : nat;
  call_status : status;
  call_latency_ms : Z
}.

(** What the caller does that an observer outside can time: vendor
    invocations and sleeps ([asyncio.sleep] and the waits of [@retry]). *)
Inductive event :=
| Invoke (p : provider) (k : nat)
| Sleep (ms : Z).

Record caller_state := mkState {
  provider_calls : list ProviderCallRecord;
  timeline : list event
}.

Definition initial_state : caller_state := mkState [] [].

Definition log_provider_call (r : ProviderCallRecord) (st : caller_state) : caller_state :=
  mkState (provider_calls st ++ [r]) (timeline st).

Definition emit (e : event) (st : caller_state) : caller_state :=
  mkState (provider_calls st) (timeline st ++ [e]).

(** [await asyncio.sleep(ms / 1000)]: a delay that is not positive
    returns at once. *)
Definition asyncio_sleep (ms : Z) (st : caller_state) : caller_state :=
  if 0 <? ms then emit (Sleep ms) st else st.

(** Layer 1, [_call_with_timeout]: [asyncio.wait_for(vendor.call(request),
    timeout=10)]; a call that runs past the deadline is abandoned at the
    deadline and raises [VendorCallTimeout]. *)
Definition _call_with_timeout (pol : policy) (v : VendorAdapter)
    (req : VendorRequest) (k : nat) : Z * (vendor_error + NormalizedResponse) :=
  let c := send_message v req k in
  if timeout_ms pol <? elapsed_ms c
  then (timeout_ms pol, inl VendorCallTimeout)
  else (elapsed_ms c, raw_result c).

(** Modelled from the spec: the audit record that the body of
    [_call_with_retry] writes; the architecture document prints the
    body as [pass] under the comment "Logs each attempt to
    provider_calls table".  One attempt appends one record (status
    [success], [retry] when another attempt follows, [error] on the
    last one, as in the documented example output).  What the body does
    besides is left open: after a failed vendor call it sleeps what the
    policy's [sleep_on_error] says (nothing, or the documented handling
    of rate limits), and the exception goes on to [@retry], whose
    [retry_if_exception_type] lists all three classes.  [k] is the
    attempt [@retry] is making, [number] the attempt number written to
    the audit row. *)
Definition _call_with_retry (pol : policy) (v : VendorAdapter) (req : VendorRequest)
    (k number : nat) (st : caller_state)
  : (vendor_error + NormalizedResponse) * caller_state :=
  let st := emit (Invoke (name v) k) st in
  let '(lat, out) := _call_with_timeout pol v req k in
  let row s := mkCall (req_correlation_id req) (name v) number s lat in
  match out with
  | inr resp => (inr resp, log_provider_call (row st_success) st)
  | inl e =>
      let s := if (k <? max_attempts pol)%nat then st_retrying else st_error in
      let st := log_provider_call (row s) st in
      (inl e, asyncio_sleep (sleep_on_error pol e) st)
  end.

(** The [@retry] decorator around [_call_with_retry]: call again while
    the exception is of a listed type and [stop_after_attempt] has not
    been reached, sleeping [wait_exponential] in between; [reraise=True]
    hands the last exception to the caller.  [fuel] is the number of
    attempts still allowed after this one. *)
Fixpoint retry_from (pol : policy) (v : VendorAdapter) (req : VendorRequest)
    (fuel k number : nat) (st : caller_state)
  : (vendor_error + NormalizedResponse) * caller_state :=
  let '(out, st1) := _call_with_retry pol v req k number st in
  match out with
  | inr resp => (inr resp, st1)
  | inl e =>
      match fuel with
      | O => (inl e, st1)
      | S fuel' =>
          if retry_if_exception_type e
          then retry_from pol v req fuel' (S k) (S number)
                          (emit (Sleep (wait_exponential pol k)) st1)
          else (inl e, st1)
      end
  end.

(** [call_with_retry(vendor, request)]; [number] is the attempt number
    of the first audit row. *)
Definition call_with_retry (pol : policy) (v : VendorAdapter) (req : VendorRequest)
    (number : nat) (st : caller_state)
  : (vendor_error + NormalizedResponse) * caller_state :=
  retry_from pol v req (max_attempts pol - 1) 1 number st.

(** What [call_with_fallback] can raise: [AllVendorsFailed] with one or
    two causes, or (second revision of the document) the exception of
    the fallback as it is. *)
Inductive failure :=
| AllVendorsFailed (primary_error : vendor_error) (fallback_error : option vendor_error)
| Raised (e : vendor_error).

(** Modelled from the spec: [log_fallback_event()], whose body is not in
    the documents.  It appends the [fallback] row before the first call
    of the fallback; the documented example output gives it the
    fallback's provider name, attempt number 1 and latency 0. *)
Definition log_fallback_event (fb : VendorAdapter) (req : VendorRequest)
    (st : caller_state) : caller_state :=
  log_provider_call (mkCall (req_correlation_id req) (name fb) 1 st_fallback 0) st.

(** Layer 3, [call_with_fallback] (first revision of the architecture
    document).  On success the result names the provider that answered.
    The rows of the fallback continue after its [fallback] row, which
    holds number 1. *)
Definition call_with_fallback (pol : policy) (primary : VendorAdapter)
    (fallback : option VendorAdapter) (req : VendorRequest) (st : caller_state)
  : (failure + NormalizedResponse * provider) * caller_state :=
  match call_with_retry pol primary req 1 st with
  | (inr resp, st1) => (inr (resp, name primary), st1)
  | (inl primary_error, st1) =>
      match fallback with
      | None => (inl (AllVendorsFailed primary_error None), st1)
      | Some fb =>
          let st2 := log_fallback_event fb req st1 in
          match call_with_retry pol fb req 2 st2 with
          | (inr resp, st3) => (inr (resp, name fb), st3)
          | (inl fallback_error, st3) =>
              (inl (AllVendorsFailed primary_error (Some fallback_error)), st3)
          end
      end
  end.

(** [call_with_fallback] as the second revision of the architecture
    document prints it: no [log_fallback_event()], and the call of the
    fallback is returned without a [try] around it. *)
Definition call_with_fallback_rev2 (pol : policy) (primary : VendorAdapter)
    (fallback : option VendorAdapter) (req : VendorRequest) (st : caller_state)
  : (failure + NormalizedResponse * provider) * caller_state :=
  match call_with_retry pol primary req 1 st with
  | (inr resp, st1) => (inr (resp, name primary), st1)
  | (inl primary_error, st1) =>
      match fallback with
      | None => (inl (AllVendorsFailed primary_error None), st1)
      | Some fb =>
          match call_with_retry pol fb req 1 st1 with
          | (inr resp, st2) => (inr (resp, name fb), st2)
          | (inl fallback_error, st2) => (inl (Raised fallback_error), st2)
          end
      end
  end.

(** Time slept before each vendor invocation: one entry per [Invoke],
    the sum of the [Sleep]s since the invocation before it. *)
Fixpoint gaps (acc : Z) (tl : list event) : list Z :=
  match tl with
  | [] => []
  | Sleep ms :: tl' => gaps (acc + ms) tl'
  | Invoke _ _ :: tl' => acc :: gaps 0 tl'
  end.

(** The delay waited before attempt [n] (1-based) of a timeline. *)
Definition delay_before (n : nat) (tl : list event) : option Z :=
  gaps 0 tl !! (n - 1)%nat.



Definition rows_with (s : status) (l : list ProviderCallRecord) : list ProviderCallRecord :=
  List.filter (fun r => bool_decide (call_status r = s)) l.

End Resilience.

(** ** The idempotency cache *)

Module Idempotency.

(** The contract of the store: [lookup(tenantId, key)] at a given
    instant, and [store(tenantId, key, response, ttl)], which can be
    refused by the backend. *)
Class IdempotencyStore (R S : Type) := {
  lookup : S -> string -> string -> Z -> option R;
  store : S -> string -> string -> R -> Z -> Z -> option S
}.

(** A write that was accepted is served until it expires. *)
Definition store_visible (R S : Type) `{IdempotencyStore R S} : Prop :=
  forall s t k r now ttl s' now',
    store s t k r now ttl = Some s' ->
    now' < now + ttl ->
    lookup s' t k now' = Some r.

(** The number of characters of a string held as its UTF-8 bytes: the
    bytes that do not continue a character (those are [0x80] to
    [0xBF]).  [VARCHAR(n)] limits characters, not bytes. *)
Fixpoint char_length (s : string) : nat :=
  match s with
  | EmptyString => 0%nat
  | String c s' =>
      let n := Ascii.nat_of_ascii c in
      ((if (128 <=? n) && (n <? 192) then 0 else 1) + char_length s')%nat
  end.

Section Backends.
Context {R : Type}.

(** *** Database approach: table [idempotency_keys] *)

(** A row of [idempotency_keys] without its key column. *)
Record IdempotencyKey := mkRow {
  row_tenant_id : string;
  row_response : R;
  row_created_at : Z;
  row_expires_at : Z
}.

(** [key VARCHAR(255) PRIMARY KEY]: at most one row per key string. *)
Definition idempotency_keys := gmap string IdempotencyKey.

(** Modelled from the spec: the query behind
    [get_cached_response(idempotency_key, tenant_id)], which is not in
    the documents; the row of that key, when it belongs to the tenant
    and has not expired. *)
Definition db_get_cached_response (tbl : idempotency_keys)
    (tenant key : string) (now : Z) : option R :=
  match tbl !! key with
  | Some row =>
      if bool_decide (row_tenant_id row = tenant) && (now <? row_expires_at row)
      then Some (row_response row) else None
  | None => None
  end.

(** [INSERT INTO idempotency_keys (key, response, expires_at)]: refused
    when the key is longer than the column or is already a primary key
    of the table. *)
Definition db_cache_response (tbl : idempotency_keys)
    (tenant key : string) (response : R) (now ttl : Z) : option idempotency_keys :=
  if (255 <? char_length key)%nat then None
  else match tbl !! key with
       | Some _ => None
       | None => Some (<[key := mkRow tenant response now (now + ttl)]> tbl)
       end.

(** *** Redis approach *)

(** A Redis database of string values with an expiry instant. *)
Definition redis := gmap string (R * Z).

(** [f"idempotency:{tenant_id}:{key}"]. *)
Definition redis_name (tenant key : string) : string :=
  "idempotency:" +:+ tenant +:+ ":" +:+ key.

(** [redis.setex(name, ttl, value)] at instant [now]. *)
Definition setex (db : redis) (name : string) (ttl : Z) (value : R) (now : Z) : redis :=
  <[name := (value, now + ttl)]> db.

(** [redis.get(name)] at instant [now]: expired keys are gone. *)
Definition redis_get (db : redis) (name : string) (now : Z) : option R :=
  match db !! name with
  | Some (value, expires) => if now <? expires then Some value else None
  | None => None
  end.

End Backends.

Arguments IdempotencyKey : clear implicits.
Arguments idempotency_keys : clear implicits.
Arguments redis : clear implicits.

(** The table as a store. *)
#[global] Instance table_store (R : Type) : IdempotencyStore R (idempotency_keys R) := {
  lookup := db_get_cached_response;
  store := db_cache_response
}.

(** The Redis variant as a store.  Modelled from the spec: its read
    side, which the documents do not print, as [redis.get] of the name
    that [setex] wrote. *)
#[global] Instance redis_store (R : Type) : IdempotencyStore R (redis R) := {
  lookup db tenant key now := redis_get db (redis_name tenant key) now;
  store db tenant key response now ttl :=
    Some (setex db (redis_name tenant key) ttl response now)
}.

End Idempotency.

(** ** The message orchestrator *)

Module Orchestrator.
Import PyDecimal Resilience Idempotency.

Record AgentConfig := mkAgent {
  agent_id : string;
  primary_provider : provider;
  fallback_provider : option provider;
  system_prompt : string;
  enabled_tools : list string
}.

Inductive role := user | assistant | system.

#[global] Instance role_eq_dec : EqDecision role.
Proof. solve_decision. Defined.

(** A row of [messages]. *)
Record Message := mkMessage {
  message_id : string;
  message_session_id : string;
  message_role : role;
  content : string;
  provider_used : option provider;
  message_tokens_in : option Z;
  message_tokens_out : option Z;
  message_latency_ms : option Z;
  tools_called : list string;
  message_correlation_id : string
}.

(** A row of [usage_events]. *)
Record UsageEvent := mkUsage {
  usage_tenant_id : string;
  usage_agent_id : string;
  usage_session_id : string;
  usage_message_id : string;
  usage_provider : provider;
  usage_tokens_in : Z;
  usage_tokens_out : Z;
  cost_usd : Decimal;
  event_type : string
}.

(** A row of [tool_executions]. *)
Record ToolExecution := mkTool {
  tool_name : string;
  tool_parameters : string;
  tool_result : option string;
  tool_status : string
}.

(** The body of the 201 response: message details, cost, correlation id. *)
Record MessageResponse := mkReply {
  reply_message : Message;
  reply_cost_usd : Decimal;
  reply_correlation_id : string
}.

(** The committed database, the cache, and what the caller did. *)
Record World (S : Type) := mkWorld {
  messages : list Message;
  usage_events : list UsageEvent;
  audit : list ProviderCallRecord;
  tool_executions : list ToolExecution;
  idempotency : S;
  clock_events : list event
}.
Arguments mkWorld {S}.
Arguments messages {S}.
Arguments usage_events {S}.
Arguments audit {S}.
Arguments tool_executions {S}.
Arguments idempotency {S}.
Arguments clock_events {S}.

(** An SQLAlchemy session: rows passed to [db.add] are pending until
    [db.commit()]; a request that ends in an exception loses them. *)
Record Session (S : Type) := mkSession {
  committed : World S;
  pending_messages : list Message;
  pending_usage : list UsageEvent
}.
Arguments mkSession {S}.
Arguments committed {S}.
Arguments pending_messages {S}.
Arguments pending_usage {S}.

(** Where an execution can be interrupted by an error that is not one
    of the pipeline's own. *)
Inductive fault := NoFault | FaultAfterMessageInsert | FaultAfterUsageInsert.

#[global] Instance fault_eq_dec : EqDecision fault.
Proof. solve_decision. Defined.

(** Everything one logical send depends on besides the database: what
    the two adapters will do, the identifiers [uuid4] will draw, what
    the tool will answer, and whether the execution is interrupted. *)
Record Env := mkEnv {
  primary_calls : VendorRequest -> nat -> raw_call;
  fallback_calls : VendorRequest -> nat -> raw_call;
  user_message_id : string;
  assistant_message_id : string;
  invoice_lookup : option string;
  interruption : fault
}.

(** An inbound [POST /api/sessions/{session_id}/messages]. *)
Record SendRequest := mkSend {
  tenant_id : string;
  agent : AgentConfig;
  session_id : string;
  body_content : string;
  idempotency_key : option string;
  correlation_id : string;
  now : Z;
  env : Env
}.

Inductive send_error :=
| VendorsFailed (f : failure)
| BillingError (e : exn)
| Interrupted
| CacheWriteRefused.

Section Pipeline.
Context {S : Type} `{IdempotencyStore MessageResponse S}.
Variable pol : policy.

Definition db_begin (w : World S) : Session S := mkSession w [] [].

Definition db_add_message (m : Message) (s : Session S) : Session S :=
  mkSession (committed s) (pending_messages s ++ [m]) (pending_usage s).

Definition db_add_usage (u : UsageEvent) (s : Session S) : Session S :=
  mkSession (committed s) (pending_messages s) (pending_usage s ++ [u]).

(** [db.commit()]: every pending row becomes durable at once. *)
Definition db_commit (s : Session S) : World S :=
  let w := committed s in
  mkWorld (messages w ++ pending_messages s) (usage_events w ++ pending_usage s)
          (audit w) (tool_executions w) (idempotency w) (clock_events w).

(** The session is closed after an exception: pending rows are lost. *)
Definition db_rollback (s : Session S) : World S := committed s.

(** [if idempotency_key:] on an [Optional[str]]. *)
Definition truthy (k : option string) : bool :=
  match k with
  | Some s => negb (String.eqb s "")
  | None => false
  end.

Definition get_cached_response (key tenant : string) (at_ : Z) (w : World S)
  : option MessageResponse :=
  lookup (idempotency w) tenant key at_.

(** Modelled from the spec: [cache_response(idempotency_key, response,
    ttl_hours=24)], whose body is not in the documents.  Without a key
    there is nothing to store; with one, the response is stored for the
    tenant with a 24 hour expiry. *)
Definition cache_response (key : option string) (tenant : string)
    (response : MessageResponse) (at_ : Z) (w : World S) : option (World S) :=
  match key with
  | Some k =>
      if truthy key then
        match store (idempotency w) tenant k response at_ 86400 with
        | Some s' => Some (mkWorld (messages w) (usage_events w) (audit w)
                                   (tool_executions w) s' (clock_events w))
        | None => None
        end
      else Some w
  | None => Some w
  end.

(** Modelled from the spec: step 8 of the request flow, tool detection
    and execution, of which the documents print only [execute_tool].
    The invoice tool runs when the message mentions an invoice and the
    agent enables it; its audit row is committed on its own, and a
    failed tool does not abort. *)
Definition evaluate_tools (r : SendRequest) (answer : string) (w : World S)
  : string * list string * World S :=
  let mentions := match String.index 0 "invoice" (body_content r) with
                  | Some _ => true | None => false end in
  let enabled := bool_decide ("invoice_lookup" ∈ enabled_tools (agent r)) in
  if mentions && enabled then
    let row := match invoice_lookup (env r) with
               | Some res => mkTool "invoice_lookup" (body_content r) (Some res) "success"
               | None => mkTool "invoice_lookup" (body_content r) None "error"
               end in
    let w' := mkWorld (messages w) (usage_events w) (audit w)
                      (tool_executions w ++ [row]) (idempotency w) (clock_events w) in
    let answer' := match invoice_lookup (env r) with
                   | Some res => answer +:+ res
                   | None => answer
                   end in
    (answer', ["invoice_lookup"], w')
  else (answer, [], w).

(** [get_vendor_adapter(provider)] for the two roles of one send. *)
Definition primary_adapter (r : SendRequest) : VendorAdapter :=
  mkAdapter (primary_provider (agent r)) (primary_calls (env r)).

Definition fallback_adapter (r : SendRequest) : option VendorAdapter :=
  match fallback_provider (agent r) with
  | Some p => Some (mkAdapter p (fallback_calls (env r)))
  | None => None
  end.

(** Modelled from the spec: [handle_message], the message handler
    service, which the documents describe only as the request flow
    (steps 5 to 10): user message, resilient call, tools, assistant
    message, billing.  The assistant message and the usage event are
    added to one session and made durable by the [db.commit()] that
    follows [db.add(usage_event)]. *)
Definition handle_message (r : SendRequest) (w : World S)
  : (send_error + MessageResponse) * World S :=
  let user_row := mkMessage (user_message_id (env r)) (session_id r) user
                    (body_content r) None None None None [] (correlation_id r) in
  let w := mkWorld (messages w ++ [user_row]) (usage_events w) (audit w)
                   (tool_executions w) (idempotency w) (clock_events w) in
  let vreq := mkRequest (body_content r) (system_prompt (agent r)) (correlation_id r) in
  let '(res, cs) := call_with_fallback pol (primary_adapter r) (fallback_adapter r)
                      vreq (mkState (audit w) (clock_events w)) in
  let w := mkWorld (messages w) (usage_events w) (provider_calls cs)
                   (tool_executions w) (idempotency w) (timeline cs) in
  match res with
  | inl f => (inl (VendorsFailed f), w)
  | inr (resp, used) =>
      let '(answer, tools, w) := evaluate_tools r (text resp) w in
      let row := mkMessage (assistant_message_id (env r)) (session_id r) assistant
                   answer (Some used) (Some (tokens_in resp)) (Some (tokens_out resp))
                   (Some (latency_ms resp)) tools (correlation_id r) in
      let s := db_add_message row (db_begin w) in
      if bool_decide (interruption (env r) = FaultAfterMessageInsert)
      then (inl Interrupted, db_rollback s)
      else
        match Billing.calculate_cost used (tokens_in resp) (tokens_out resp) with
        | inl e => (inl (BillingError e), db_rollback s)
        | inr cost =>
            let u := mkUsage (tenant_id r) (agent_id (agent r)) (session_id r)
                       (assistant_message_id (env r)) used
                       (tokens_in resp) (tokens_out resp) cost "message" in
            let s := db_add_usage u s in
            if bool_decide (interruption (env r) = FaultAfterUsageInsert)
            then (inl Interrupted, db_rollback s)
            else (inr (mkReply row cost (correlation_id r)), db_commit s)
        end
  end.

(** [send_message(idempotency_key)]: the cache is consulted first; a
    hit is returned with no processing. *)
Definition send_message (r : SendRequest) (w : World S)
  : (send_error + MessageResponse) * World S :=
  let cached :=
    match idempotency_key r with
    | Some k => if truthy (idempotency_key r)
                then get_cached_response k (tenant_id r) (now r) w
                else None
    | None => None
    end in
  match cached with
  | Some response => (inr response, w)
  | None =>
      match handle_message r w with
      | (inl e, w1) => (inl e, w1)
      | (inr response, w1) =>
          match cache_response (idempotency_key r) (tenant_id r) response (now r) w1 with
          | Some w2 => (inr response, w2)
          | None => (inl CacheWriteRefused, w1)
          end
      end
  end.

(** Requests served one after the other. *)
Fixpoint serve (rs : list SendRequest) (w : World S)
  : list (send_error + MessageResponse) * World S :=
  match rs with
  | [] => ([], w)
  | r :: rs' =>
      let '(out, w1) := send_message r w in
      let '(outs, w2) := serve rs' w1 in
      (out :: outs, w2)
  end.

Definition assistant_messages (w : World S) : list Message :=
  List.filter (fun m => bool_decide (message_role m = assistant)) (messages w).

End Pipeline.

End Orchestrator.

(** ** The dashboard's chat hook *)

Module Dashboard.

(** [Message] of [types/index.ts], with the fields the hook sets;
    [created_at] holds the instant that [toISOString] prints. *)
Record Message := mkMessage {
  id : string;
  session_id : string;
  role : string;
  content : string;
  tools_called : list string;
  created_at : N
}.

(** A template literal [`<tag>${Date.now()}`]: the tag followed by the
    decimal digits of the clock's milliseconds. *)
Definition stamp (tag : string) (date_now : N) : string := tag +:+ pretty date_now.

(** The axios call a function of the API layer issues: path, JSON body,
    and the headers of its config argument ([None] for [undefined]). *)
Record post := mkPost {
  url : string;
  data : string;
  config_headers : option (list (string * string))
}.

(** JavaScript truthiness of an optional string argument. *)
Definition js_truthy (s : option string) : bool :=
  match s with
  | Some x => negb (String.eqb x "")
  | None => false
  end.

(** [sessionsApi.sendMessage]. *)
Definition sendMessage (sessionId content : string) (idempotencyKey : option string) : post :=
  mkPost ("/api/sessions/" +:+ sessionId +:+ "/messages") content
         (match idempotencyKey with
          | Some k => if js_truthy idempotencyKey
                      then Some [("Idempotency-Key", k)] else None
          | None => None
          end).

(** [sendVoiceMessage] of [api/voice.ts]: the voice upload. *)
Definition sendVoiceMessage (sessionId apiKey : string) : post :=
  mkPost ("http://localhost:8000/api/sessions/" +:+ sessionId +:+ "/voice/message")
         "audio_file"
         (Some [("X-API-Key", apiKey); ("Content-Type", "multipart/form-data")]).

(** [sendMessageMutation.mutationFn]: throws without a session. *)
Definition mutationFn (session : option string) (content : string) (date_now : N)
  : string + post :=
  match session with
  | None => inl "No session"
  | Some sid => inr (sendMessage sid content (Some (stamp "msg-" date_now)))
  end.

(** The value of a request header as the server reads it. *)
Fixpoint header (h : string) (hs : list (string * string)) : option string :=
  match hs with
  | [] => None
  | (k, v) :: hs' => if String.eqb k h then Some v else header h hs'
  end.

Definition idempotency_header (p : post) : option string :=
  match config_headers p with
  | Some hs => header "Idempotency-Key" hs
  | None => None
  end.

(** [m.id.startsWith('temp-')]. *)
Definition is_temp (m : Message) : bool := String.prefix "temp-" (id m).

(** [onMutate]: the optimistic user message is appended. *)
Definition onMutate (sid content : string) (date_now : N) (prev : list Message)
  : list Message :=
  prev ++ [mkMessage (stamp "temp-" date_now) sid "user" content [] date_now].

(** [onSuccess]: temporary messages go, the user message and the
    assistant's answer are appended. *)
Definition onSuccess (sid content : string) (date_now : N) (assistantMessage : Message)
    (prev : list Message) : list Message :=
  List.filter (fun m => negb (is_temp m)) prev
    ++ [mkMessage (stamp "user-" date_now) sid "user" content [] date_now;
        assistantMessage].

(** [onError]: temporary messages go. *)
Definition onError (prev : list Message) : list Message :=
  List.filter (fun m => negb (is_temp m)) prev.

(** [addMessage], used by the voice flow of the chat page. *)
Definition addMessage (m : Message) (prev : list Message) : list Message :=
  prev ++ [m].

(** Identifiers the backend assigns are UUIDs in their canonical text
    form: 36 characters, lower-case hexadecimal digits and dashes. *)
Definition is_uuid_char (c : ascii) : bool :=
  let n := Ascii.nat_of_ascii c in
  ((48 <=? n) && (n <=? 57) || (97 <=? n) && (n <=? 102) || (n =? 45))%nat.

Fixpoint all_chars (f : ascii -> bool) (s : string) : bool :=
  match s with
  | EmptyString => true
  | String c s' => f c && all_chars f s'
  end.

Definition is_uuid (s : string) : bool :=
  (String.length s =? 36)%nat && all_chars is_uuid_char s.

(** The message lists the chat page can show while no send is pending.
    The input and the send button are disabled while a send is pending,
    so text sends do not overlap: each one runs [onMutate] and then
    [onSuccess] or [onError] before the next starts.  In between, the
    voice flow may add messages. *)
Inductive settled : list Message -> Prop :=
| settled_new_session : settled []
| settled_restored (msgs : list Message) :
    Forall (fun m => is_uuid (id m) = true) msgs -> settled msgs
| settled_sent (sid content : string) (t1 t2 : N) (answer : Message)
    (prev : list Message) :
    settled prev -> is_uuid (id answer) = true ->
    settled (onSuccess sid content t2 answer (onMutate sid content t1 prev))
| settled_failed (sid content : string) (t1 : N) (prev : list Message) :
    settled prev -> settled (onError (onMutate sid content t1 prev))
| settled_voice_placeholder (sid text : string) (t : N) (prev : list Message) :
    settled prev ->
    settled (addMessage (mkMessage (stamp "voice-" t) sid "user" text [] t) prev)
| settled_voice_transcript (sid text : string) (t : N) (prev : list Message) :
    settled prev ->
    settled (addMessage (mkMessage (stamp "user-voice-" t) sid "user" text [] t) prev)
| settled_voice_answer (answer : Message) (prev : list Message) :
    settled prev -> is_uuid (id answer) = true ->
    settled (addMessage answer prev).

End Dashboard.

(** ** The voice recorder's timer *)

Module VoiceRecorder.

Fixpoint repeat_string (n : nat) (s : string) : string :=
  match n with
  | O => ""
  | S n' => s +:+ repeat_string n' s
  end.

(** [String.prototype.padStart(maxLength, fillString)]: the string as
    it is when it is long enough or the filler is empty, otherwise
    preceded by the filler repeated and cut to the missing length. *)
Definition padStart (maxLength : nat) (fillString s : string) : string :=
  if (maxLength <=? String.length s)%nat then s
  else if String.eqb fillString "" then s
  else
    let fillLen := (maxLength - String.length s)%nat in
    String.substring 0 fillLen (repeat_string fillLen fillString) +:+ s.

(** [formatTime] of [VoiceRecorder.tsx].  [seconds] is [recordingTime],
    which starts at 0 and is incremented by the one-second timer;
    [Math.floor(seconds / 60)] and [seconds % 60] on such a number are
    the integer quotient and remainder, and a template literal prints
    an integer below [1e21] as its decimal digits. *)
Definition formatTime (seconds : N) : string :=
  let mins := (seconds / 60)%N in
  let secs := (seconds mod 60)%N in
  pretty mins +:+ ":" +:+ padStart 2 "0" (pretty secs).

End VoiceRecorder.

(** ** Dashboard authentication: [useAuth], the axios client, the login page *)

Module Auth.

(** [window.localStorage]. *)
Definition Storage := gmap string string.

Definition getItem (k : string) (s : Storage) : option string := s !! k.
Definition setItem (k v : string) (s : Storage) : Storage := <[k := v]> s.
Definition removeItem (k : string) (s : Storage) : Storage := delete k s.

(** JavaScript truthiness of a [string | null]: [null] and the empty
    string are falsy. *)
Definition truthy (v : option string) : bool :=
  match v with
  | Some s => negb (String.eqb s "")
  | None => false
  end.

(** *** [hooks/useAuth.ts] *)

(** The [apiKey] state of a hook after its mount effect:
    [const stored = localStorage.getItem('apiKey'); if (stored) setApiKey(stored)]. *)
Definition useAuth_mount (s : Storage) : option string :=
  let stored := getItem "apiKey" s in
  if truthy stored then stored else None.

(** [login(key)]: the storage and the hook's state afterwards. *)
Definition login (key : string) (s : Storage) : Storage * option string :=
  (setItem "apiKey" key s, Some key).

(** [logout()]. *)
Definition logout (s : Storage) : Storage * option string :=
  (removeItem "apiKey" s, None).

(** [isAuthenticated: !!apiKey]. *)
Definition isAuthenticated (apiKey : option string) : bool := truthy apiKey.

(** *** [api/client.ts] *)

Definition Headers := gmap string string.

(** An outgoing request: its path and its headers. *)
Record Request := mkRequest {
  path : string;
  headers : Headers
}.

(** The headers given to [axios.create]. *)
Definition default_headers : Headers := {["Content-Type" := "application/json"]}.

(** The request config axios hands to the interceptors: the headers of
    the call over the defaults of the instance. *)
Definition merge_config (path : string) (call_headers : Headers) : Request :=
  mkRequest path (call_headers ∪ default_headers).

(** The request interceptor: "Add API key to all requests". *)
Definition request_interceptor (s : Storage) (config : Request) : Request :=
  match getItem "apiKey" s with
  | Some apiKey =>
      if truthy (Some apiKey)
      then mkRequest (path config) (<["X-API-Key" := apiKey]> (headers config))
      else config
  | None => config
  end.

(** What comes back: a response with its HTTP status, or no response at
    all (the backend is not reachable). *)
Inductive outcome := Status (code : Z) | NoResponse.

(** axios' default [validateStatus]: the promise resolves for 2xx. *)
Definition resolves (o : outcome) : bool :=
  match o with
  | Status code => (200 <=? code) && (code <? 300)
  | NoResponse => false
  end.

(** [error.response?.status === 401]. *)
Definition is_401 (o : outcome) : bool :=
  match o with
  | Status code => code =? 401
  | NoResponse => false
  end.

(** The part of the browser the client touches. *)
Record Browser := mkBrowser {
  storage : Storage;
  pathname : string
}.

(** The error branch of the response interceptor; the promise stays
    rejected whatever it does. *)
Definition response_error_interceptor (o : outcome) (b : Browser) : Browser :=
  if is_401 o && negb (String.eqb (pathname b) "/login")
  then mkBrowser (removeItem "apiKey" (storage b)) "/login"
  else b.

(** The request [apiClient.get(path, { headers })] puts on the wire. *)
Definition sent_request (path : string) (call_headers : Headers) (b : Browser) : Request :=
  request_interceptor (storage b) (merge_config path call_headers).

(** [apiClient.get(path, { headers })] against a backend. *)
Definition apiClient_get (server : Request -> outcome) (path : string)
    (call_headers : Headers) (b : Browser) : outcome * Browser :=
  let o := server (sent_request path call_headers b) in
  if resolves o then (o, b) else (o, response_error_interceptor o b).

(** *** [pages/Login.tsx] *)

(** The state of the login form after a submit, and where it
    navigated. *)
Record LoginState := mkLogin {
  error : string;
  loading : bool;
  navigated : option string
}.

(** [handleSubmit]: "Test the API key by fetching agents"; "If
    successful, store and navigate". *)
Definition handleSubmit (server : Request -> outcome) (apiKey : string) (b : Browser)
  : LoginState * Browser :=
  let '(o, b1) := apiClient_get server "/api/agents" {["X-API-Key" := apiKey]} b in
  if resolves o then
    let '(s2, _) := login apiKey (storage b1) in
    (mkLogin "" false (Some "/agents"), mkBrowser s2 "/agents")
  else
    (mkLogin (if is_401 o
              then "Invalid API key. Please check and try again."
              else "Failed to connect to backend. Is the server running?")
             false None,
     b1).

End Auth.

(** ** The chat page ([Chat]) and the session effect of [useChat] *)

Module ChatPage.
Import Dashboard.

(** A JavaScript string as its UTF-16 code units. *)
Definition jsstring := list N.

(** ECMAScript [WhiteSpace] and [LineTerminator] code points, the ones
    [String.prototype.trim] strips: TAB, LF, VT, FF, CR, SP, NBSP, the
    other space separators, LS, PS and ZWNBSP. *)
Definition is_js_whitespace (c : N) : bool :=
  ((9 <=? c) && (c <=? 13) || (c =? 32) || (c =? 160) || (c =? 5760)
   || (8192 <=? c) && (c <=? 8202) || (c =? 8232) || (c =? 8233)
   || (c =? 8239) || (c =? 8287) || (c =? 12288) || (c =? 65279))%N.

Fixpoint trimStart (s : jsstring) : jsstring :=
  match s with
  | [] => []
  | c :: s' => if is_js_whitespace c then trimStart s' else s
  end.

Definition trimEnd (s : jsstring) : jsstring := rev (trimStart (rev s)).

(** [String.prototype.trim]. *)
Definition trim (s : jsstring) : jsstring := trimEnd (trimStart s).

(** [!s] on a string. *)
Definition js_not (s : jsstring) : bool :=
  match s with
  | [] => true
  | _ :: _ => false
  end.

(** [handleSend]: what is handed to [sendMessage], and the input field
    afterwards.  [session] is the id of the hook's session. *)
Definition handleSend (input : jsstring) (session : option string)
  : option jsstring * jsstring :=
  if js_not (trim input) || negb (bool_decide (is_Some session))
  then (None, input)
  else (Some input, []).

(** [a || b] on strings that may be [undefined]. *)
Definition js_or (a : option string) (b : option string) : option string :=
  match a with
  | Some s => if String.eqb s "" then b else a
  | None => b
  end.

(** The fields of [VoiceMessageResponse] the page reads. *)
Record VoiceMessageResponse := mkVoice {
  user_message_content : string;
  assistant_message_id : string;
  assistant_message_content : string
}.

(** How the upload ends: the response, or an error with its
    [response.data.detail] and its [message]. *)
Inductive upload :=
| Uploaded (response : VoiceMessageResponse)
| UploadFailed (detail : option string) (message : option string).

(** The states of the page the voice flow writes. *)
Record VoiceState := mkVoiceState {
  messages : list Message;
  voiceLoading : bool;
  voiceError : option string
}.

Definition voice_error_text (detail message : option string) : option string :=
  js_or (js_or detail message) (Some "Failed to send voice message").

(** [handleVoiceMessage].  [apiKey] is [localStorage.getItem('apiKey')];
    [t1], [t2], [t3] are the clock readings of the three messages.  Of
    the assistant's message only the fields of [Message] that the text
    flow also fills are kept. *)
Definition handleVoiceMessage (session : option string) (apiKey : option string)
    (t1 t2 t3 : N) (result : upload) (st : VoiceState) : VoiceState :=
  match session with
  | None => st
  | Some sid =>
      if negb (Auth.truthy apiKey)
      then mkVoiceState (messages st) false
             (voice_error_text None (Some "No API key found"))
      else
        let placeholder :=
          mkMessage (stamp "voice-" t1) sid "user"
                    "🎤 Voice message (transcribing...)" [] t1 in
        let msgs := addMessage placeholder (messages st) in
        match result with
        | UploadFailed detail message =>
            mkVoiceState msgs false (voice_error_text detail message)
        | Uploaded response =>
            let transcript :=
              mkMessage (stamp "user-voice-" t2) sid "user"
                        ("🎤 " +:+ user_message_content response) [] t2 in
            let answer :=
              mkMessage (assistant_message_id response) sid "assistant"
                        (assistant_message_content response) [] t3 in
            mkVoiceState (addMessage answer (addMessage transcript msgs)) false None
        end
  end.

(** The state the text flow and the voice flow of the page share,
    within one session: the message list, the content of the mutation
    in flight ([isPending]), and [voiceLoading]. *)
Record Page := mkPage {
  page_messages : list Message;
  pending : option string;
  page_voiceLoading : bool
}.

(** What happens on the page: a send that [handleSend] lets through,
    the end of the mutation, a recording or file handed to
    [handleVoiceMessage] (a key being stored), the end of the upload. *)
Inductive ui_event :=
| PressSend (content : string) (t : N)
| SendSucceeded (t : N) (assistantMessage : Message)
| SendFailed
| VoiceRecorded (t1 : N)
| VoiceSucceeded (t2 t3 : N) (response : VoiceMessageResponse)
| VoiceFailed.

(** One event.  The text input and the send button are disabled while
    [isLoading || voiceLoading], the buttons of the recorder while
    [voiceLoading]; a mutation or an upload ends only when one is in
    flight. *)
Definition step (sid : string) (p : Page) (e : ui_event) : Page :=
  match e with
  | PressSend content t =>
      if bool_decide (is_Some (pending p)) || page_voiceLoading p then p
      else mkPage (onMutate sid content t (page_messages p)) (Some content)
                  (page_voiceLoading p)
  | SendSucceeded t assistantMessage =>
      match pending p with
      | Some content =>
          mkPage (onSuccess sid content t assistantMessage (page_messages p)) None
                 (page_voiceLoading p)
      | None => p
      end
  | SendFailed =>
      match pending p with
      | Some _ => mkPage (onError (page_messages p)) None (page_voiceLoading p)
      | None => p
      end
  | VoiceRecorded t1 =>
      if page_voiceLoading p then p
      else mkPage (addMessage
                     (mkMessage (stamp "voice-" t1) sid "user"
                                "🎤 Voice message (transcribing...)" [] t1)
                     (page_messages p))
                  (pending p) true
  | VoiceSucceeded t2 t3 response =>
      if page_voiceLoading p then
        mkPage (addMessage
                  (mkMessage (assistant_message_id response) sid "assistant"
                             (assistant_message_content response) [] t3)
                  (addMessage
                     (mkMessage (stamp "user-voice-" t2) sid "user"
                                ("🎤 " +:+ user_message_content response) [] t2)
                     (page_messages p)))
               (pending p) false
      else p
  | VoiceFailed =>
      if page_voiceLoading p then mkPage (page_messages p) (pending p) false else p
  end.

(** The page after a sequence of events. *)
Definition run (sid : string) (events : list ui_event) (p : Page) : Page :=
  fold_left (step sid) events p.

(** [Session] of [types/index.ts], the fields the hook reads. *)
Record Session := mkSession {
  session_id_ : string;
  session_agent_id : string
}.

(** A settled promise. *)
Inductive settled_promise (A : Type) := Resolved (a : A) | Rejected.
Arguments Resolved {A}.
Arguments Rejected {A}.

(** The state of [useChat]. *)
Record ChatState := mkChat {
  session : option Session;
  chat_messages : list Message;
  chat_error : string;
  chat_loading : bool
}.

(** [createNewSession] once [sessionsApi.create] has settled. *)
Definition createNewSession (created : settled_promise Session) (st : ChatState)
  : ChatState :=
  match created with
  | Resolved data => mkChat (Some data) [] "" false
  | Rejected => mkChat (session st) (chat_messages st) "Failed to create session" false
  end.

(** A JavaScript exception, by its message. *)
Inductive js_error := TypeError (message : string).

(** The effect of [useChat] on [agentId] and [existingSessionId], once
    the request it started has settled; [created] is the request of
    [createNewSession].  With an [existingSessionId] the effect calls
    [sessionsApi.get] and then [sessionsApi.getMessages], which the API
    layer does not define ([sessionsApi] has [create], [get] and
    [sendMessage]): the call throws a [TypeError] inside the effect,
    after [setLoading(true)] and before [Promise.all] is reached, so
    neither a handler of the promise nor [createNewSession] runs. *)
Definition session_effect (agentId : string) (existingSessionId : option string)
    (created : settled_promise Session) (st : ChatState) : js_error + ChatState :=
  if String.eqb agentId "" then inr st
  else
    if Auth.truthy existingSessionId
    then inl (TypeError "sessionsApi.getMessages is not a function")
    else inr (createNewSession created st).

(** What a text send of the page posts: [handleSend] passes the input to
    the mutation, whose [mutationFn] posts to the hook's session. *)
Definition text_send (st : ChatState) (content : string) (date_now : N) : string + post :=
  mutationFn (option_map session_id_ (session st)) content date_now.

End ChatPage.

(** ** Authentication and tenant scoping of the backend *)

Module Tenancy.

(** A row of [tenants]. *)
Record Tenant := mkTenant {
  tenant_id : string;
  tenant_name : string;
  api_key : string
}.

(** A row of [agents]; [tenant_id] is a nullable foreign key. *)
Record Agent := mkAgent {
  agent_id : string;
  agent_tenant_id : option string;
  agent_name : string
}.

Inductive UnauthorizedException := Unauthorized (msg : string).

(** [get_current_tenant]: the first row of [tenants] whose [api_key] is
    the header's. *)
Definition get_current_tenant (x_api_key : string) (tenants : list Tenant)
  : UnauthorizedException + Tenant :=
  match List.find (fun t => String.eqb (api_key t) x_api_key) tenants with
  | Some tenant => inr tenant
  | None => inl (Unauthorized "Invalid API key")
  end.

(** [db.query(Agent).filter(Agent.tenant_id == tenant.id).all()]; a
    [NULL] tenant id equals nothing. *)
Definition list_agents (tenant : Tenant) (agents : list Agent) : list Agent :=
  List.filter (fun a => match agent_tenant_id a with
                        | Some t => String.eqb t (tenant_id tenant)
                        | None => false
                        end) agents.

(** [GET /api/agents]: the tenant comes from the API key, the query is
    scoped to it. *)
Definition get_agents (x_api_key : string) (tenants : list Tenant) (agents : list Agent)
  : UnauthorizedException + list Agent :=
  match get_current_tenant x_api_key tenants with
  | inr tenant => inr (list_agents tenant agents)
  | inl e => inl e
  end.

(** The constraints of the schema: [tenants.id] is the primary key and
    [api_key] is [UNIQUE]. *)
Definition tenants_ok (tenants : list Tenant) : Prop :=
  NoDup (map tenant_id tenants) /\ NoDup (map api_key tenants).

End Tenancy.

(** ** The tool framework *)

Module Tools.

(** The Python values a tool is handed, as they come from JSON: [None],
    strings, numbers ([int] and [float]), booleans, lists, and dicts
    with string keys (their entries in insertion order, keys distinct). *)
#[warnings="-register-all"]
Inductive pyval :=
| PNone
| PStr (s : string)
| PNum (q : Q)
| PBool (b : bool)
| PList (items : list pyval)
| PDict (entries : list (string * pyval)).

(** The [dict] of parameters, of the context, of an invoice. *)
Definition dict := gmap string pyval.

(** The value under a key of a list of entries. *)
Fixpoint entry {A : Type} (k : string) (entries : list (string * A)) : option A :=
  match entries with
  | [] => None
  | (k', v) :: rest => if String.eqb k' k then Some v else entry k rest
  end.

(** [a == b]: numbers and booleans compare by value, lists element by
    element, dicts entry by entry whatever the order. *)
Fixpoint py_eq (a b : pyval) {struct a} : bool :=
  match a, b with
  | PNone, PNone => true
  | PStr s, PStr t => String.eqb s t
  | PNum p, PNum q => Qeq_bool p q
  | PBool x, PBool y => Bool.eqb x y
  | PBool x, PNum q | PNum q, PBool x => Qeq_bool (if x then 1 else 0) q
  | PList xs, PList ys =>
      (fix all2 (xs ys : list pyval) {struct xs} : bool :=
         match xs, ys with
         | [], [] => true
         | x :: xs', y :: ys' => py_eq x y && all2 xs' ys'
         | _, _ => false
         end) xs ys
  | PDict d, PDict e =>
      (length d =? length e)%nat &&
      (fix all1 (d : list (string * pyval)) {struct d} : bool :=
         match d with
         | [] => true
         | (k, x) :: d' =>
             match entry k e with
             | Some y => py_eq x y
             | None => false
             end && all1 d'
         end) d
  | _, _ => false
  end.

(** The exceptions of the tool framework.  [KeyError] and [TypeError]
    are subclasses of [Exception], and [Exception] stands for its other
    subclasses; [BaseException] stands for the classes outside
    [Exception], by their name: [asyncio.CancelledError], raised into a
    coroutine whose task is cancelled while it awaits,
    [KeyboardInterrupt], [SystemExit]. *)
Inductive py_exn :=
| KeyError (key : string)
| TypeError (msg : string)
| Exception (msg : string)
| BaseException (class_name msg : string).

Definition CancelledError : py_exn := BaseException "CancelledError" "".

(** [isinstance(e, Exception)], the test of [except Exception]. *)
Definition is_Exception (e : py_exn) : bool :=
  match e with
  | BaseException _ _ => false
  | _ => true
  end.

(** [str(e)]: a [KeyError] prints the [repr] of its key. *)
Definition str (e : py_exn) : string :=
  match e with
  | KeyError key => "'" +:+ key +:+ "'"
  | TypeError msg => msg
  | Exception msg => msg
  | BaseException _ msg => msg
  end.

(** What [execute] returns: [{"success": True, "invoice": invoice}] or
    [{"success": False, "error": error}]. *)
Inductive tool_result :=
| Success (invoice : dict)
| Failure (error : string).

(** The type name of a value that cannot be hashed: lists and dicts. *)
Definition unhashable (v : pyval) : option string :=
  match v with
  | PList _ => Some "list"
  | PDict _ => Some "dict"
  | _ => None
  end.

(** The message of the [TypeError] that hashing such a value raises
    (CPython 3.11 to 3.13). *)
Definition unhashable_message (type_name : string) : string :=
  "unhashable type: '" +:+ type_name +:+ "'".

(** [INVOICES.get(invoice_id)] on a dict keyed by strings: the key is
    hashed first, which raises for a list or a dict; a value of another
    type is no key of the table. *)
Definition invoices_get (INVOICES : gmap string dict) (invoice_id : pyval)
  : py_exn + option dict :=
  match unhashable invoice_id with
  | Some type_name => inl (TypeError (unhashable_message type_name))
  | None =>
      match invoice_id with
      | PStr s => inr (INVOICES !! s)
      | _ => inr None
      end
  end.

(** Truthiness of [dict.get]'s result: [None] and the empty dict are
    falsy. *)
Definition dict_truthy (d : option dict) : bool :=
  match d with
  | Some m => negb (bool_decide (m = ∅))
  | None => false
  end.

(** [InvoiceLookupTool.execute], first revision of the document. *)
Definition execute (INVOICES : gmap string dict) (params context : dict)
  : py_exn + tool_result :=
  match params !! "invoice_id" with
  | None => inl (KeyError "invoice_id")
  | Some invoice_id =>
      match invoices_get INVOICES invoice_id with
      | inl e => inl e
      | inr (Some invoice) =>
          if dict_truthy (Some invoice) then inr (Success invoice)
          else inr (Failure "Not found")
      | inr None => inr (Failure "Not found")
      end
  end.

(** [InvoiceLookupTool.execute], second revision: "Only return invoices
    for current tenant". *)
Definition execute_rev2 (INVOICES : gmap string dict) (params context : dict)
  : py_exn + tool_result :=
  match params !! "invoice_id" with
  | None => inl (KeyError "invoice_id")
  | Some invoice_id =>
      match context !! "tenant_id" with
      | None => inl (KeyError "tenant_id")
      | Some tenant_id =>
          match invoices_get INVOICES invoice_id with
          | inl e => inl e
          | inr (Some invoice) =>
              if dict_truthy (Some invoice) then
                match invoice !! "tenant_id" with
                | None => inl (KeyError "tenant_id")
                | Some owner =>
                    if py_eq owner tenant_id then inr (Success invoice)
                    else inr (Failure "Not found")
                end
              else inr (Failure "Not found")
          | inr None => inr (Failure "Not found")
          end
      end
  end.

(** [INVOICES] as the two revisions print it. *)
Definition INVOICES : gmap string dict :=
  {[ "INV-001" := {[ "id" := PStr "INV-001"; "amount" := PNum 1500;
                     "status" := PStr "paid"; "due_date" := PStr "2025-01-15" ]} ]}.

Definition INVOICES_rev2 : gmap string dict :=
  {[ "INV-TC-001" := {[ "amount" := PNum 15000; "status" := PStr "paid" ]};
     "INV-HF-001" := {[ "amount" := PNum 45000; "status" := PStr "paid" ]} ]}.

(** A [Tool]. *)
Record Tool := mkTool {
  name : string;
  description : string;
  tool_execute : dict -> dict -> py_exn + tool_result
}.

Definition InvoiceLookupTool : Tool :=
  mkTool "invoice_lookup" "Look up invoice details by ID" (execute INVOICES).

Definition InvoiceLookupTool_rev2 : Tool :=
  mkTool "invoice_lookup" "Look up invoice details by ID" (execute_rev2 INVOICES_rev2).

(** A row of [tool_executions], the columns [execute_tool] sets. *)
Record ToolExecution := mkExecution {
  exec_tenant_id : string;
  tool_name : string;
  parameters : dict;
  status : string;
  result : option tool_result;
  error_message : option string
}.

(** A database session: the rows other transactions can see, and the
    rows added and flushed in the open transaction. *)
Record Session := mkSession {
  committed : list ToolExecution;
  flushed : list ToolExecution
}.

(** [db.add(execution); db.flush()]. *)
Definition db_add_flush (execution : ToolExecution) (db : Session) : Session :=
  mkSession (committed db) (flushed db ++ [execution]).

(** An attribute assignment on the object that was added last. *)
Definition db_update_last (f : ToolExecution -> ToolExecution) (db : Session) : Session :=
  match List.rev (flushed db) with
  | [] => db
  | execution :: earlier => mkSession (committed db) (List.rev earlier ++ [f execution])
  end.

(** [db.commit()]. *)
Definition db_commit (db : Session) : Session :=
  mkSession (committed db ++ flushed db) [].

(** [execute_tool(tool_name, params)]; [tenant_id] and [context] come
    from the request.  [except Exception] catches what is an
    [Exception]; any other exception leaves the function with the
    session as it is, the row added and flushed but not committed. *)
Definition execute_tool (TOOLS : gmap string Tool) (tenant_id : string) (context : dict)
    (tool_name : string) (params : dict) (db : Session)
  : (py_exn + tool_result) * Session :=
  match TOOLS !! tool_name with
  | None => (inl (KeyError tool_name), db)
  | Some tool =>
      let execution := mkExecution tenant_id tool_name params "pending" None None in
      let db := db_add_flush execution db in
      match tool_execute tool params context with
      | inr res =>
          let db := db_update_last
                      (fun x => mkExecution (exec_tenant_id x) (Tools.tool_name x)
                                  (parameters x) "success" (Some res) (error_message x))
                      db in
          (inr res, db_commit db)
      | inl e =>
          if is_Exception e then
            let db := db_update_last
                        (fun x => mkExecution (exec_tenant_id x) (Tools.tool_name x)
                                    (parameters x) "error" (result x) (Some (str e)))
                        db in
            (inl e, db_commit db)
          else (inl e, db)
      end
  end.

End Tools.

(** ** The analytics queries *)

Module Analytics.

(** A row of [usage_events], the columns the queries read.  [cost_usd
    DECIMAL(10, 6)] is held as its number of millionths; the columns
    without [NOT NULL] are options. *)
Record UsageEvent := mkEvent {
  tenant_id : option string;
  agent_id : option string;
  session_id : option string;
  provider : string;
  tokens_in : Z;
  tokens_out : Z;
  cost_usd : Z;
  created_at : option Z
}.

(** A row of [agents]. *)
Record Agent := mkAgent {
  id : string;
  name : string
}.

(** [SUM(f)] over the rows of a group. *)
Definition SUM {A : Type} (f : A -> Z) (rows : list A) : Z :=
  fold_right (fun r acc => f r + acc) 0 rows.

(** [GROUP BY key]: one group per distinct key, holding the rows of
    that key. *)
Definition GROUP_BY {A K : Type} `{EqDecision K} (key : A -> K) (rows : list A)
  : list (K * list A) :=
  map (fun k => (k, List.filter (fun r => bool_decide (key r = k)) rows))
      (remove_dups (map key rows)).

(** [column = ?] on a nullable column: [NULL] equals nothing. *)
Definition sql_eq (column : option string) (value : string) : bool :=
  match column with
  | Some x => String.eqb x value
  | None => false
  end.

(** [column >= from AND column <= to] on a nullable timestamp. *)
Definition sql_between (column : option Z) (from to_ : Z) : bool :=
  match column with
  | Some t => (from <=? t) && (t <=? to_)
  | None => false
  end.

(** A row of the "total cost per tenant" result. *)
Record TenantTotal := mkTenantTotal {
  tt_tenant_id : option string;
  tt_total_cost : Z;
  tt_total_tokens : Z
}.

(** The values of PostgreSQL's [INTEGER] and [BIGINT]. *)
Definition is_int4 (z : Z) : bool := (-2147483648 <=? z) && (z <=? 2147483647).
Definition is_int8 (z : Z) : bool :=
  (-9223372036854775808 <=? z) && (z <=? 9223372036854775807).

(** [ERROR: integer out of range]. *)
Inductive sql_error := integer_out_of_range.

(** A [usage_events] table: [tokens_in] and [tokens_out] are [INTEGER]
    columns, and the rows are fewer than 2^32. *)
Definition usage_events_ok (rows : list UsageEvent) : Prop :=
  Z.of_nat (length rows) < 2 ^ 32 /\
  Forall (fun u => is_int4 (tokens_in u) = true /\ is_int4 (tokens_out u) = true) rows.

(** "Total cost per tenant":
    [SELECT tenant_id, SUM(cost_usd) as total_cost,
            SUM(tokens_in + tokens_out) as total_tokens
     FROM usage_events GROUP BY tenant_id].
    [tokens_in + tokens_out] adds two [INTEGER] columns in 32 bits and
    raises when the sum does not fit, for whichever row, and the
    statement fails as a whole.  [SUM] over the [INTEGER] sums is
    accumulated as a [BIGINT], [SUM] over the [DECIMAL] column as a
    [numeric]. *)
Definition total_cost_per_tenant (usage_events : list UsageEvent)
  : sql_error + list TenantTotal :=
  if forallb (fun u => is_int4 (tokens_in u + tokens_out u)) usage_events
  then inr (map (fun g => mkTenantTotal (fst g) (SUM cost_usd (snd g))
                            (SUM (fun u => tokens_in u + tokens_out u) (snd g)))
                (GROUP_BY tenant_id usage_events))
  else inl integer_out_of_range.

(** The [WHERE] clause of the provider breakdown:
    [tenant_id = ? AND created_at >= ? AND created_at <= ?]. *)
Definition in_window (tenant : string) (from to_ : Z) (u : UsageEvent) : bool :=
  sql_eq (tenant_id u) tenant && sql_between (created_at u) from to_.

(** A row of the "cost breakdown by provider" result. *)
Record ProviderCost := mkProviderCost {
  pc_provider : string;
  message_count : nat;
  pc_total_cost : Z
}.

(** "Cost breakdown by provider":
    [SELECT provider, COUNT( * ) as message_count, SUM(cost_usd) as total_cost
     FROM usage_events
     WHERE tenant_id = ? AND created_at >= ? AND created_at <= ?
     GROUP BY provider]. *)
Definition cost_breakdown_by_provider (tenant : string) (from to_ : Z)
    (usage_events : list UsageEvent) : list ProviderCost :=
  map (fun g => mkProviderCost (fst g) (length (snd g)) (SUM cost_usd (snd g)))
      (GROUP_BY provider (List.filter (in_window tenant from to_) usage_events)).

(** [usage_events u JOIN agents a ON u.agent_id = a.id]. *)
Definition JOIN (usage_events : list UsageEvent) (agents : list Agent)
  : list (UsageEvent * Agent) :=
  flat_map (fun u => map (fun a => (u, a))
                         (List.filter (fun a => sql_eq (agent_id u) (id a)) agents))
           usage_events.

(** [COUNT(DISTINCT u.session_id)]: [NULL]s are not counted. *)
Definition COUNT_DISTINCT_session (g : list (UsageEvent * Agent)) : nat :=
  length (remove_dups (omap (fun ua => session_id (fst ua)) g)).

(** A row of the "top agents" result. *)
Record TopAgent := mkTop {
  top_name : string;
  total_cost : Z;
  session_count : nat
}.

(** The rows of the "top agents" query before [ORDER BY] and [LIMIT]:
    [SELECT a.name, SUM(u.cost_usd) as total_cost,
            COUNT(DISTINCT u.session_id) as session_count
     FROM usage_events u JOIN agents a ON u.agent_id = a.id
     WHERE u.tenant_id = ? GROUP BY a.id, a.name]. *)
Definition agent_totals (tenant : string) (usage_events : list UsageEvent)
    (agents : list Agent) : list TopAgent :=
  map (fun g => mkTop (snd (fst g)) (SUM (fun ua => cost_usd (fst ua)) (snd g))
                      (COUNT_DISTINCT_session (snd g)))
      (GROUP_BY (fun ua : UsageEvent * Agent => (id (snd ua), name (snd ua)))
                (List.filter (fun ua => sql_eq (tenant_id (fst ua)) tenant)
                             (JOIN usage_events agents))).

(** [ORDER BY total_cost DESC], as an insertion sort; SQL leaves the
    order of rows of equal cost open. *)
Fixpoint insert_desc (x : TopAgent) (l : list TopAgent) : list TopAgent :=
  match l with
  | [] => [x]
  | y :: l' => if total_cost x <=? total_cost y then y :: insert_desc x l'
               else x :: l
  end.

Definition ORDER_BY_total_cost_DESC (l : list TopAgent) : list TopAgent :=
  fold_right insert_desc [] l.

(** "Top agents by cost": [... ORDER BY total_cost DESC LIMIT 10]. *)
Definition top_agents_by_cost (tenant : string) (usage_events : list UsageEvent)
    (agents : list Agent) : list TopAgent :=
  take 10 (ORDER_BY_total_cost_DESC (agent_totals tenant usage_events agents)).

End Analytics.

(** * Properties *)

(** ** Decimal arithmetic within the context precision *)

Module DecimalFacts.
Import PyDecimal.

Lemma ndigits_fuel_le fuel : forall n k,
  0 <= n -> 1 <= k -> n < 10 ^ k -> ndigits_fuel fuel n <= k.
Proof.
  induction fuel as [|f IH]; intros n k Hn Hk Hlt; simpl; [lia|].
  destruct (Z.ltb_spec n 10) as [|Hge]; [lia|].
  assert (2 <= k).
  { destruct (Z.eq_dec k 1) as [->|]; [simpl in Hlt; lia|lia]. }
  assert (n / 10 < 10 ^ (k - 1)).
  { apply Z.div_lt_upper_bound; [lia|].
    replace (10 * 10 ^ (k - 1)) with (10 ^ k); [lia|].
    replace k with (1 + (k - 1)) at 1 by lia.
    rewrite Z.pow_add_r by lia. reflexivity. }
  assert (0 <= n / 10) by (apply Z.div_pos; lia).
  specialize (IH (n / 10) (k - 1)). lia.
Qed.

Lemma ndigits_le n k : 0 <= n -> 1 <= k -> n < 10 ^ k -> ndigits n <= k.
Proof. apply ndigits_fuel_le. Qed.

Lemma ndigits_fuel_pos fuel n : 1 <= ndigits_fuel fuel n.
Proof.
  revert n. induction fuel as [|f IH]; intros n; simpl; [lia|].
  destruct (n <? 10); [lia|]. specialize (IH (n / 10)). lia.
Qed.

(** [ndigits] counts the decimal digits: the fuel is enough. *)
Lemma ndigits_fuel_spec fuel : forall n,
  0 < n -> n < 2 ^ Z.of_nat fuel ->
  10 ^ (ndigits_fuel fuel n - 1) <= n < 10 ^ ndigits_fuel fuel n.
Proof.
  induction fuel as [|f IH]; intros n Hn Hlt.
  - simpl in Hlt. lia.
  - cbn [ndigits_fuel]. destruct (Z.ltb_spec n 10) as [Hs|Hge].
    + simpl. lia.
    + assert (Hq : 0 < n / 10) by (apply Z.div_str_pos; lia).
      assert (Hq2 : n / 10 < 2 ^ Z.of_nat f).
      { apply Z.div_lt_upper_bound; [lia|].
        rewrite Nat2Z.inj_succ, Z.pow_succ_r in Hlt by lia.
        assert (0 < 2 ^ Z.of_nat f) by (apply Z.pow_pos_nonneg; lia). lia. }
      specialize (IH (n / 10) Hq Hq2).
      pose proof (ndigits_fuel_pos f (n / 10)) as Hd.
      set (d := ndigits_fuel f (n / 10)) in *.
      replace (1 + d - 1) with (1 + (d - 1)) by lia.
      rewrite !Z.pow_add_r by lia. change (10 ^ 1) with 10.
      pose proof (Z.div_mod n 10 ltac:(lia)) as Hdm.
      pose proof (Z.mod_pos_bound n 10 ltac:(lia)) as Hm.
      lia.
Qed.

Lemma ndigits_spec n :
  0 < n -> 10 ^ (ndigits n - 1) <= n < 10 ^ ndigits n.
Proof.
  intros Hn. apply ndigits_fuel_spec; [exact Hn|].
  rewrite Nat2Z.inj_succ, Z2Nat.id by apply Z.log2_nonneg.
  apply Z.log2_spec. exact Hn.
Qed.

Lemma fix_small x : Z.abs (coef x) < 10 ^ prec -> fix_ x = x.
Proof.
  intros H. unfold fix_.
  assert (ndigits (Z.abs (coef x)) <= prec).
  { apply ndigits_le; [lia| unfold prec; lia | exact H]. }
  destruct (Z.leb_spec (ndigits (Z.abs (coef x))) prec); [reflexivity|lia].
Qed.

Lemma strip_pow (j : nat) : forall fuel m e,
  strip (j + fuel) (m * 10 ^ Z.of_nat j) e = strip fuel m (e + Z.of_nat j).
Proof.
  induction j as [|j IH]; intros fuel m e.
  - simpl. rewrite Z.mul_1_r, Z.add_0_r. reflexivity.
  - replace (m * 10 ^ Z.of_nat (S j)) with ((m * 10 ^ Z.of_nat j) * 10).
    2:{ rewrite Nat2Z.inj_succ, Z.pow_succ_r by lia. ring. }
    cbn [strip Nat.add].
    rewrite Z.mod_mul by lia. cbn [Z.eqb].
    rewrite Z.div_mul by lia. rewrite IH. f_equal. lia.
Qed.

Lemma strip_pow_Z j fuel m e :
  0 <= j ->
  strip (Z.to_nat j + fuel) (m * 10 ^ j) e = strip fuel m (e + j).
Proof.
  intros Hj. rewrite <- (Z2Nat.id j) at 2 3 by lia. apply strip_pow.
Qed.

Lemma strip_spec fuel : forall c e c' e',
  strip fuel c e = (c', e') ->
  c = c' * 10 ^ (e' - e) /\ e <= e' <= e + Z.of_nat fuel.
Proof.
  induction fuel as [|f IH]; intros c e c' e' H.
  - simpl in H. inversion H; subst. rewrite Z.sub_diag. simpl. lia.
  - cbn [strip] in H. destruct (Z.eqb_spec (c mod 10) 0) as [Hm|Hm].
    + apply IH in H. destruct H as [Hc He]. split; [|lia].
      replace (e' - e) with (1 + (e' - (e + 1))) by lia.
      rewrite Z.pow_add_r by lia.
      rewrite (Z.div_mod c 10) by lia. rewrite Hm, Hc.
      change (10 ^ 1) with 10. ring.
    + inversion H; subst. rewrite Z.sub_diag. simpl. lia.
Qed.

(** [Decimal(n) / 1000] is exact for a non-negative [n] of at most 28 digits. *)
Lemma truediv_1000 n :
  0 <= n < 10 ^ prec ->
  exists c e, truediv (of_int n) (of_int 1000) = inr (mkDecimal c e) /\
              -3 <= e <= 0 /\ 0 <= c /\ c * 10 ^ (e + 3) = n.
Proof.
  intros [Hn Hlt].
  destruct (Z.eq_dec n 0) as [->|Hnz].
  { exists 0, 0. split; [reflexivity|]. repeat split; try lia. }
  unfold truediv, of_int; cbn [coef dexp].
  change (1000 =? 0) with false. cbv iota.
  destruct (Z.eqb_spec n 0) as [|_]; [lia|].
  change (Z.abs 1000) with 1000. change (ndigits 1000) with 4.
  rewrite (Z.abs_eq n) by lia.
  assert (Hd : ndigits n <= prec) by (apply ndigits_le; unfold prec in *; lia).
  set (shift := 4 - ndigits n + prec + 1).
  assert (Hs : 3 <= shift) by (unfold shift, prec in *; lia).
  destruct (Z.leb_spec 0 shift) as [_|]; [|lia].
  assert (Hnum : n * 10 ^ shift = (n * 10 ^ (shift - 3)) * 1000).
  { replace shift with ((shift - 3) + 3) at 1 by lia.
    rewrite Z.pow_add_r by lia. change (10 ^ 3) with 1000. ring. }
  rewrite Hnum, Z.mod_mul, Z.div_mul by lia. cbn [Z.eqb].
  replace (0 - 0 - (0 - 0 - shift)) with shift by lia.
  replace (Z.to_nat shift) with (Z.to_nat (shift - 3) + 3)%nat by lia.
  rewrite strip_pow_Z by lia.
  destruct (strip 3 n (0 - 0 - shift + (shift - 3))) as [c e] eqn:Hst.
  apply strip_spec in Hst. destruct Hst as [Hc He].
  assert (Hpow : 0 < 10 ^ (e - (0 - 0 - shift + (shift - 3)))).
  { apply Z.pow_pos_nonneg; lia. }
  assert (Hcpos : 0 < c) by nia.
  assert (Hcle : c <= n) by nia.
  exists c, e. split.
  - f_equal. assert (Hsg : Z.sgn n = 1) by (apply Z.sgn_pos; lia).
    rewrite Hsg. replace (1 * Z.sgn 1000 * c) with c by (cbn; lia).
    apply fix_small. cbn [coef]. lia.
  - split; [lia|]. split; [lia|].
    rewrite Hc. f_equal. f_equal. lia.
Qed.

Lemma mul_small a b :
  Z.abs (coef a * coef b) < 10 ^ prec ->
  mul a b = mkDecimal (coef a * coef b) (dexp a + dexp b).
Proof. intros H. unfold mul. apply fix_small. exact H. Qed.

Lemma add_small a b :
  let e := Z.min (dexp a) (dexp b) in
  Z.abs (coef a * 10 ^ (dexp a - e) + coef b * 10 ^ (dexp b - e)) < 10 ^ prec ->
  add a b = mkDecimal (coef a * 10 ^ (dexp a - e) + coef b * 10 ^ (dexp b - e)) e.
Proof. intros e H. unfold add. apply fix_small. exact H. Qed.

Lemma pow10_ge_1 k : 0 <= k -> 1 <= 10 ^ k.
Proof. intros. assert (0 < 10 ^ k) by (apply Z.pow_pos_nonneg; lia). lia. Qed.

Lemma pow10_split a b : 0 <= a -> 0 <= b -> 10 ^ (a + b) = 10 ^ a * 10 ^ b.
Proof. intros. apply Z.pow_add_r; lia. Qed.

(** [quantize] pads with zeros, exactly, when the padded coefficient
    still fits the context precision. *)
Lemma quantize_pad c e t :
  t <= e -> 0 <= c -> c * 10 ^ (e - t) < 10 ^ prec ->
  quantize (mkDecimal c e) t = inr (mkDecimal (c * 10 ^ (e - t)) t).
Proof.
  intros Hte Hc Hlt. unfold quantize; cbn [coef dexp].
  destruct (Z.eqb_spec c 0) as [->|Hnz]; [reflexivity|].
  assert (Hp : 0 < 10 ^ (e - t)) by (apply Z.pow_pos_nonneg; lia).
  assert (Hk : 1 <= prec - (e - t)).
  { destruct (Z.le_gt_cases prec (e - t)) as [Hge|]; [|lia].
    assert (10 ^ prec <= 10 ^ (e - t)) by (apply Z.pow_le_mono_r; unfold prec in *; lia).
    nia. }
  assert (Hd : ndigits (Z.abs c) <= prec - (e - t)).
  { apply ndigits_le; [lia|lia|]. rewrite Z.abs_eq by lia.
    apply (Z.mul_lt_mono_pos_r (10 ^ (e - t))); [lia|].
    rewrite <- pow10_split by lia.
    replace (prec - (e - t) + (e - t)) with prec by lia. exact Hlt. }
  unfold adjusted; cbn [coef dexp].
  destruct (Z.ltb_spec prec (e + ndigits (Z.abs c) - 1 - t + 1)) as [|_]; [lia|].
  unfold rescale; cbn [coef dexp].
  destruct (Z.leb_spec t e) as [_|]; [|lia]. cbn [coef].
  assert (ndigits (Z.abs (c * 10 ^ (e - t))) <= prec).
  { apply ndigits_le; [lia|unfold prec; lia|]. rewrite Z.abs_eq by nia. exact Hlt. }
  destruct (Z.ltb_spec prec (ndigits (Z.abs (c * 10 ^ (e - t))))) as [|_]; [lia|].
  reflexivity.
Qed.

Lemma round_half_even_bounds c d :
  0 <= c -> 0 < d -> c / d <= round_half_even c d <= c / d + 1.
Proof.
  intros Hc Hd. unfold round_half_even.
  destruct (2 * (c mod d) <? d); [lia|].
  destruct (d <? 2 * (c mod d)); [lia|].
  destruct (Z.even (c / d)); lia.
Qed.

(** When digits have to go, [quantize] rounds half to even. *)
Lemma quantize_rounds c e t :
  e < t -> 0 < c < 10 ^ prec ->
  quantize (mkDecimal c e) t
  = inr (mkDecimal (round_half_even c (10 ^ (t - e))) t).
Proof.
  intros Het [Hc Hlt]. unfold quantize; cbn [coef dexp].
  destruct (Z.eqb_spec c 0) as [|_]; [lia|].
  assert (Hd : ndigits (Z.abs c) <= prec).
  { apply ndigits_le; [lia|unfold prec; lia|]. rewrite Z.abs_eq by lia. exact Hlt. }
  unfold adjusted; cbn [coef dexp].
  destruct (Z.ltb_spec prec (e + ndigits (Z.abs c) - 1 - t + 1)) as [|_]; [lia|].
  unfold rescale; cbn [coef dexp].
  destruct (Z.leb_spec t e) as [|_]; [lia|]. cbn [coef].
  rewrite Z.sgn_pos, Z.mul_1_l, (Z.abs_eq c) by lia.
  assert (Hp : 10 <= 10 ^ (t - e)).
  { change 10 with (10 ^ 1) at 1. apply Z.pow_le_mono_r; lia. }
  pose proof (round_half_even_bounds c (10 ^ (t - e)) ltac:(lia) ltac:(lia)) as [Hlo Hhi].
  assert (Hq : c / 10 ^ (t - e) <= c / 10).
  { apply Z.div_le_compat_l; lia. }
  assert (Hq0 : 0 <= c / 10 ^ (t - e)) by (apply Z.div_pos; lia).
  assert (Hc10 : c / 10 < 10 ^ (prec - 1)).
  { apply Z.div_lt_upper_bound; [lia|].
    replace (10 * 10 ^ (prec - 1)) with (10 ^ prec); [exact Hlt|].
    unfold prec. reflexivity. }
  assert (Hr : ndigits (Z.abs (round_half_even c (10 ^ (t - e)))) <= prec).
  { apply ndigits_le; [lia|unfold prec; lia|]. rewrite Z.abs_eq by lia.
    assert (10 ^ (prec - 1) < 10 ^ prec) by (unfold prec; reflexivity). lia. }
  destruct (Z.ltb_spec prec (ndigits (Z.abs (round_half_even c (10 ^ (t - e)))))) as [|_]; [lia|].
  reflexivity.
Qed.

End DecimalFacts.

Module BillingFacts.
Import PyDecimal Billing DecimalFacts.

(** Prices quoted to a tenth of a cent per 1000 tokens. *)
Definition milli_priced (pr : pricing) : Prop :=
  dexp (input_tokens pr) = -3 /\ dexp (output_tokens pr) = -3 /\
  0 <= coef (input_tokens pr) /\ 0 <= coef (output_tokens pr).

(** The cost in millionths of a dollar. *)
Definition micro_cost (pr : pricing) (tokens_in tokens_out : Z) : Z :=
  tokens_in * coef (input_tokens pr) + tokens_out * coef (output_tokens pr).

Lemma calculate_cost_with_exact table p tin tout :
  milli_priced (table p) ->
  0 <= tin -> 0 <= tout ->
  tin < 10 ^ prec -> tout < 10 ^ prec ->
  micro_cost (table p) tin tout < 10 ^ prec ->
  calculate_cost_with table p tin tout
  = inr (mkDecimal (micro_cost (table p) tin tout) (-6)).
Proof.
  intros (Hei & Heo & Hpi & Hpo) Hti Hto Hbi Hbo Hlt.
  unfold calculate_cost_with, micro_cost in *.
  destruct (table p) as [[pi ei] [po eo]]; cbn [input_tokens output_tokens coef dexp] in *.
  subst ei eo.
  destruct (truediv_1000 tin) as (ci & xi & -> & Hxi & Hci & Hvi); [lia|].
  destruct (truediv_1000 tout) as (co & xo & -> & Hxo & Hco & Hvo); [lia|].
  assert (Hpxi : 1 <= 10 ^ (xi + 3)) by (apply pow10_ge_1; lia).
  assert (Hpxo : 1 <= 10 ^ (xo + 3)) by (apply pow10_ge_1; lia).
  assert (Hci' : ci * pi <= tin * pi) by nia.
  assert (Hco' : co * po <= tout * po) by nia.
  rewrite (mul_small (mkDecimal ci xi)) by (cbn [coef]; rewrite Z.abs_eq; nia).
  rewrite (mul_small (mkDecimal co xo)) by (cbn [coef]; rewrite Z.abs_eq; nia).
  cbn [coef dexp].
  set (e := Z.min (xi + -3) (xo + -3)).
  assert (He : -6 <= e <= -3) by (unfold e; lia).
  assert (Hsum : (ci * pi * 10 ^ (xi + -3 - e) + co * po * 10 ^ (xo + -3 - e)) * 10 ^ (e - -6)
                 = tin * pi + tout * po).
  { rewrite Z.mul_add_distr_r, <- !Z.mul_assoc, <- !pow10_split by (unfold e; lia).
    replace (xi + -3 - e + (e - -6)) with (xi + 3) by lia.
    replace (xo + -3 - e + (e - -6)) with (xo + 3) by lia.
    rewrite <- Hvi, <- Hvo. ring. }
  assert (Hpe : 1 <= 10 ^ (e - -6)) by (apply pow10_ge_1; lia).
  assert (Hpa : 0 <= 10 ^ (xi + -3 - e)) by (apply Z.pow_nonneg; lia).
  assert (Hpb : 0 <= 10 ^ (xo + -3 - e)) by (apply Z.pow_nonneg; lia).
  assert (Hnn : 0 <= ci * pi * 10 ^ (xi + -3 - e) + co * po * 10 ^ (xo + -3 - e)) by nia.
  rewrite add_small; cbn [coef dexp]; fold e.
  2:{ rewrite Z.abs_eq by exact Hnn. nia. }
  rewrite quantize_pad; [|lia|exact Hnn|rewrite Hsum; exact Hlt].
  rewrite Hsum. reflexivity.
Qed.

Lemma Qfloor_half (n : Z) : Qfloor (inject_Z n + (1 # 2))%Q = n.
Proof.
  unfold Qfloor, Qplus, inject_Z. cbn [Qnum Qden].
  change (Z.pos (1 * 2)) with 2. change (Z.pos 1) with 1. change (Z.pos 2) with 2.
  replace (n * 2 + 1 * 1) with (1 + n * 2) by ring.
  rewrite Z.div_add by lia. reflexivity.
Qed.

Lemma exact_cost_micro p tin tout :
  (exact_cost PRICING p tin tout * 1000000 == inject_Z (micro_cost (PRICING p) tin tout))%Q.
Proof.
  unfold exact_cost, micro_cost, to_Q.
  destruct p; cbn [PRICING input_tokens output_tokens coef dexp];
    rewrite inject_Z_plus, !inject_Z_mult;
    change ((10 # 1) ^ (-3))%Q with (1 # 1000)%Q; field.
Qed.

(** The formula of the README, [((tokens_in + tokens_out) / 1000) *
    price_per_1k_tokens], is the same amount: each provider has one
    price for input and output. *)
Lemma readme_formula p tin tout :
  (exact_cost PRICING p tin tout
   == (inject_Z (tin + tout) / 1000) * to_Q (input_tokens (PRICING p)))%Q.
Proof.
  unfold exact_cost, to_Q.
  destruct p; cbn [PRICING input_tokens output_tokens coef dexp];
    rewrite inject_Z_plus; change ((10 # 1) ^ (-3))%Q with (1 # 1000)%Q; field.
Qed.

Lemma round6_exact p tin tout :
  round6_half_up (exact_cost PRICING p tin tout) = micro_cost (PRICING p) tin tout.
Proof.
  unfold round6_half_up.
  rewrite <- (Qfloor_half (micro_cost (PRICING p) tin tout)).
  apply Qfloor_comp. rewrite exact_cost_micro. reflexivity.
Qed.

Lemma exact_cost_bound p tin tout :
  (exact_cost PRICING p tin tout < inject_Z (10 ^ 22))%Q ->
  micro_cost (PRICING p) tin tout < 10 ^ prec.
Proof.
  intros H.
  assert (H' : (exact_cost PRICING p tin tout * 1000000 < inject_Z (10 ^ 22) * 1000000)%Q).
  { apply Qmult_lt_compat_r; [reflexivity|exact H]. }
  rewrite exact_cost_micro in H'.
  change 1000000%Q with (inject_Z 1000000) in H'.
  rewrite <- inject_Z_mult in H'. rewrite <- Zlt_Qlt in H'.
  exact H'.
Qed.

(** C2 (amended).  For every provider and all token counts
    [tokens_in >= 0], [tokens_out >= 0] whose exact cost is below 10^22
    dollars (so that its millionths fit the 28 digits of the decimal
    context), [calculate_cost] returns the specification's formula
    [(tokens_in/1000)*price_in + (tokens_out/1000)*price_out] rounded
    half up to 6 fractional digits, as a decimal with exponent -6.  With
    the prices of [PRICING] the formula is a whole number of millionths,
    so no rounding takes place. *)
Theorem calculate_cost_rounds p tin tout :
  0 <= tin -> 0 <= tout ->
  (exact_cost PRICING p tin tout < inject_Z (10 ^ 22))%Q ->
  calculate_cost p tin tout
  = inr (mkDecimal (round6_half_up (exact_cost PRICING p tin tout)) (-6)).
Proof.
  intros Hti Hto Hlt. apply exact_cost_bound in Hlt.
  rewrite round6_exact. unfold calculate_cost.
  assert (Hm : milli_priced (PRICING p)) by (destruct p; repeat split; cbn; lia).
  apply calculate_cost_with_exact; try assumption;
    unfold micro_cost in Hlt; destruct p; cbn [PRICING input_tokens output_tokens coef] in Hlt; lia.
Qed.

(** [quantize] rounds half to even, the default of the context.  The
    prices of [PRICING] never produce a tie; a table quoting 0.0025
    dollars would, and there one token costs 0.000002 where rounding
    half up gives 3 millionths. *)
Lemma quantize_rounds_half_even :
  let table := fun _ : provider => mkPricing (mkDecimal 25 (-4)) (mkDecimal 25 (-4)) in
  calculate_cost_with table vendorA 1 0 = inr (mkDecimal 2 (-6)) /\
  round6_half_up (exact_cost table vendorA 1 0) = 3.
Proof. split; reflexivity. Qed.

(** C2 as stated fails for token counts of 28 digits: at 5 * 10^27
    input tokens the exact cost is 10^22 dollars, [quantize] needs 29
    digits and raises [InvalidOperation]. *)
Lemma calculate_cost_overflow :
  calculate_cost vendorA (5 * 10 ^ 27) 0 = inl InvalidOperation /\
  calculate_cost vendorA (5 * 10 ^ 27) 0
  <> inr (mkDecimal (round6_half_up (exact_cost PRICING vendorA (5 * 10 ^ 27) 0)) (-6)).
Proof. split; [vm_compute; reflexivity|vm_compute; discriminate]. Qed.

(** The documented example: 500 input and 300 output tokens on vendor A
    cost 0.001600 dollars. *)
Lemma calculate_cost_rounds_witness :
  0 <= 500 /\ 0 <= 300 /\
  (exact_cost PRICING vendorA 500 300 < inject_Z (10 ^ 22))%Q /\
  calculate_cost vendorA 500 300 = inr (mkDecimal 1600 (-6)).
Proof.
  split; [lia|]. split; [lia|]. split; [reflexivity|].
  rewrite (calculate_cost_rounds vendorA 500 300); [reflexivity|lia|lia|reflexivity].
Defined.

End BillingFacts.

(** ** Retry sequences and fallback *)

Module ResilienceFacts.
Import Resilience.

Section OneAdapter.
Variable pol : policy.
Variable v : VendorAdapter.
Variable req : VendorRequest.

(** What attempt [k] of the adapter comes to, behind the timeout. *)
Definition outcome (k : nat) : vendor_error + NormalizedResponse :=
  snd (_call_with_timeout pol v req k).

Definition failed (k : nat) : Prop := exists e, outcome k = inl e.

(** The time the retried function sleeps on its own after an attempt. *)
Definition body_wait (out : vendor_error + NormalizedResponse) : Z :=
  match out with
  | inl e => Z.max 0 (sleep_on_error pol e)
  | inr _ => 0
  end.

Definition attempt_status (k : nat) : status :=
  match outcome k with
  | inr _ => st_success
  | inl _ => if (k <? max_attempts pol)%nat then st_retrying else st_error
  end.

Definition attempt_row (k number : nat) : ProviderCallRecord :=
  mkCall (req_correlation_id req) (name v) number (attempt_status k)
         (fst (_call_with_timeout pol v req k)).

Definition attempt_events (k : nat) : list event :=
  Invoke (name v) k ::
  match outcome k with
  | inl e => if 0 <? sleep_on_error pol e then [Sleep (sleep_on_error pol e)] else []
  | inr _ => []
  end.

Lemma _call_with_retry_eq k number st :
  _call_with_retry pol v req k number st
  = (outcome k,
     mkState (provider_calls st ++ [attempt_row k number])
             (timeline st ++ attempt_events k)).
Proof.
  unfold _call_with_retry, attempt_row, attempt_events, attempt_status, outcome.
  destruct (_call_with_timeout pol v req k) as [lat [e|resp]]; cbn [fst snd].
  - unfold asyncio_sleep. destruct (0 <? sleep_on_error pol e);
      unfold log_provider_call, emit; cbn [provider_calls timeline];
      rewrite <- ?app_assoc, ?app_nil_r; reflexivity.
  - reflexivity.
Qed.

(** The loop of [@retry] unrolled: result, audit rows, events. *)
Fixpoint retry_result (fuel k : nat) : vendor_error + NormalizedResponse :=
  match outcome k with
  | inr resp => inr resp
  | inl e => match fuel with
             | O => inl e
             | S fuel' => retry_result fuel' (S k)
             end
  end.

Fixpoint retry_rows (fuel k number : nat) : list ProviderCallRecord :=
  attempt_row k number ::
  match outcome k with
  | inr _ => []
  | inl _ => match fuel with
             | O => []
             | S fuel' => retry_rows fuel' (S k) (S number)
             end
  end.

Fixpoint retry_events (fuel k : nat) : list event :=
  attempt_events k ++
  match outcome k with
  | inr _ => []
  | inl _ => match fuel with
             | O => []
             | S fuel' => Sleep (wait_exponential pol k) :: retry_events fuel' (S k)
             end
  end.

Lemma retry_from_eq fuel : forall k number st,
  retry_from pol v req fuel k number st
  = (retry_result fuel k,
     mkState (provider_calls st ++ retry_rows fuel k number)
             (timeline st ++ retry_events fuel k)).
Proof.
  induction fuel as [|fuel IH]; intros k number st;
    cbn [retry_from retry_result retry_rows retry_events];
    rewrite _call_with_retry_eq; destruct (outcome k) as [e|resp] eqn:Ho;
    try (rewrite app_nil_r; reflexivity).
  replace (retry_if_exception_type e) with true by (destruct e; reflexivity).
  rewrite IH. unfold emit; cbn [provider_calls timeline].
  rewrite <- !app_assoc. reflexivity.
Qed.

Lemma call_with_retry_eq number st :
  call_with_retry pol v req number st
  = (retry_result (max_attempts pol - 1) 1,
     mkState (provider_calls st ++ retry_rows (max_attempts pol - 1) 1 number)
             (timeline st ++ retry_events (max_attempts pol - 1) 1)).
Proof. apply retry_from_eq. Qed.

(** *** Audit rows of one retried call *)

Lemma retry_rows_provider fuel : forall k number,
  Forall (fun r => call_provider r = name v /\ call_status r <> st_fallback)
         (retry_rows fuel k number).
Proof.
  assert (Hrow : forall k number,
    call_provider (attempt_row k number) = name v /\
    call_status (attempt_row k number) <> st_fallback).
  { intros k number. split; [reflexivity|]. unfold attempt_row, attempt_status.
    cbn [call_status]. destruct (outcome k); [destruct (k <? max_attempts pol)%nat|]; discriminate. }
  induction fuel as [|fuel IH]; intros k number; cbn [retry_rows];
    constructor; auto; destruct (outcome k); auto.
Qed.

Lemma retry_rows_numbers fuel : forall k number,
  map attempt_number (retry_rows fuel k number)
  = seq number (length (retry_rows fuel k number)).
Proof.
  induction fuel as [|fuel IH]; intros k number; cbn [retry_rows];
    destruct (outcome k); cbn; try reflexivity.
  rewrite IH. reflexivity.
Qed.

Lemma retry_rows_length fuel : forall k number,
  (1 <= length (retry_rows fuel k number) <= S fuel)%nat.
Proof.
  induction fuel as [|fuel IH]; intros k number; cbn [retry_rows];
    destruct (outcome k); cbn; try lia.
  specialize (IH (S k) (S number)). lia.
Qed.

(** When every attempt fails, all of them are made. *)
Lemma retry_rows_exhausted fuel : forall k number e,
  retry_result fuel k = inl e ->
  length (retry_rows fuel k number) = S fuel.
Proof.
  induction fuel as [|fuel IH]; intros k number e; cbn [retry_result retry_rows];
    destruct (outcome k); cbn; intros H; try discriminate; try reflexivity.
  f_equal. eapply IH; eauto.
Qed.

(** *** Delays *)

Lemma gaps_attempt acc k rest :
  gaps acc (attempt_events k ++ rest) = acc :: gaps (body_wait (outcome k)) rest.
Proof.
  unfold attempt_events, body_wait. destruct (outcome k) as [e|]; [|reflexivity].
  destruct (Z.ltb_spec 0 (sleep_on_error pol e)); cbn [app gaps]; do 2 f_equal; lia.
Qed.

Lemma gaps_retry_events i : forall fuel k acc,
  (i <= fuel)%nat ->
  (forall j, (k <= j < k + i)%nat -> failed j) ->
  gaps acc (retry_events fuel k) !! i
  = Some (match i with
          | O => acc
          | S i' => body_wait (outcome (k + i')) + wait_exponential pol (k + i')
          end).
Proof.
  induction i as [|i IH]; intros fuel k acc Hi Hf.
  - destruct fuel; cbn [retry_events]; rewrite gaps_attempt; reflexivity.
  - destruct fuel as [|fuel]; [lia|]. cbn [retry_events].
    destruct (Hf k ltac:(lia)) as [e He]. rewrite gaps_attempt, He.
    cbn [lookup list_lookup gaps].
    rewrite IH; [|lia|intros j Hj; apply Hf; lia].
    destruct i as [|i]; f_equal.
    + rewrite Nat.add_0_r, He. reflexivity.
    + replace (S k + i)%nat with (k + S i)%nat by lia. reflexivity.
Qed.

End OneAdapter.

(** A policy whose floor does not exceed its first backoff step (the
    documented one has [min = multiplier = 1] second). *)
Definition policy_ok (pol : policy) : Prop :=
  0 <= min_wait_ms pol <= multiplier_ms pol /\ min_wait_ms pol <= max_wait_ms pol.


Lemma retry_result_last pol v req fuel : forall k e,
  retry_result pol v req fuel k = inl e ->
  outcome pol v req (k + fuel) = inl e /\
  forall j, (k <= j <= k + fuel)%nat -> failed pol v req j.
Proof.
  induction fuel as [|fuel IH]; intros k e; cbn [retry_result];
    destruct (outcome pol v req k) as [e0|] eqn:Ho; intros H; try discriminate.
  - inversion H; subst. rewrite Nat.add_0_r. split; [exact Ho|].
    intros j Hj. replace j with k by lia. exists e. exact Ho.
  - apply IH in H. destruct H as [Hl Hf].
    replace (k + S fuel)%nat with (S k + fuel)%nat by lia. split; [exact Hl|].
    intros j Hj. destruct (Nat.eq_dec j k) as [->|]; [exists e0; exact Ho|].
    apply Hf. lia.
Qed.

(** The events a call appended to the timeline. *)
Definition events_since (st st' : caller_state) : list event :=
  drop (length (timeline st)) (timeline st').

(** Before attempt [n > 1] the caller has slept what the retried
    function slept on its own after attempt [n - 1], and then the wait
    of [@retry]. *)
Lemma delay_between_attempts pol v req number st n :
  (2 <= n <= max_attempts pol)%nat ->
  (forall j, (1 <= j < n)%nat -> failed pol v req j) ->
  delay_before n (events_since st (snd (call_with_retry pol v req number st)))
  = Some (body_wait pol (outcome pol v req (n - 1)) + wait_exponential pol (n - 1)).
Proof.
  intros Hn Hf. rewrite call_with_retry_eq. unfold events_since, delay_before.
  cbn [snd timeline]. rewrite drop_app_length.
  rewrite (gaps_retry_events pol v req (n - 1) (max_attempts pol - 1) 1 0);
    [|lia|intros j Hj; apply Hf; lia].
  destruct n as [|[|n]]; [lia|lia|].
  replace (S (S n) - 1)%nat with (S n) by lia.
  replace (1 + n)%nat with (S n) by lia. reflexivity.
Qed.


(** With the rate-limit handling inside the retried function, a
    rate-limited attempt is never followed by the next one before the
    delay the vendor asked for has passed. *)
Lemma rate_limit_delay_respected pol v req number st n ms :
  (2 <= n <= max_attempts pol)%nat ->
  (forall j, (1 <= j < n)%nat -> failed pol v req j) ->
  outcome pol v req (n - 1) = inl (VendorBRateLimitError ms) ->
  sleep_on_error pol (VendorBRateLimitError ms) = ms ->
  exists d,
    delay_before n (events_since st (snd (call_with_retry pol v req number st))) = Some d /\
    ms <= d.
Proof.
  intros Hn Hf Ho Hs. rewrite delay_between_attempts by assumption.
  rewrite Ho. cbn [body_wait]. rewrite Hs. eexists. split; [reflexivity|].
  unfold wait_exponential. lia.
Qed.

Definition request_abc : VendorRequest := mkRequest "What is invoice INV-001 status?" "" "abc-123".

Definition answer (ms : Z) : raw_call := mkRaw ms (inr (mkResponse "..." 100 150 ms)).





(** ** Fallback *)


(** The first revision of [call_with_fallback]: in every logical call
    in which the primary exhausts its attempts and a fallback is
    configured, the audit rows the call appends are the primary's
    attempt rows (numbered from 1, one per allowed attempt), then
    exactly one row with status [fallback], then the fallback's attempt
    rows, in that order.  The numbers of the fallback provider start
    again at 1 with its [fallback] row, and its attempt rows follow with
    2, 3, ..., as in the documented example output. *)
Lemma fallback_audit_order pol primary fb req st e :
  fst (call_with_retry pol primary req 1 st) = inl e ->
  exists P F,
    let marker := mkCall (req_correlation_id req) (name fb) 1 st_fallback 0 in
    provider_calls (snd (call_with_fallback pol primary (Some fb) req st))
    = provider_calls st ++ P ++ [marker] ++ F /\
    Forall (fun r => call_provider r = name primary /\ call_status r <> st_fallback) P /\
    map attempt_number P = seq 1 (length P) /\
    length P = S (max_attempts pol - 1) /\
    Forall (fun r => call_provider r = name fb /\ call_status r <> st_fallback) F /\
    map attempt_number (marker :: F) = seq 1 (S (length F)) /\
    (1 <= length F <= S (max_attempts pol - 1))%nat /\
    length (rows_with st_fallback (P ++ [marker] ++ F)) = 1%nat.
Proof.
  intros He. unfold call_with_fallback.
  rewrite call_with_retry_eq in He |- *. cbn [fst] in He. rewrite He.
  rewrite call_with_retry_eq.
  set (P := retry_rows pol primary req (max_attempts pol - 1) 1 1).
  set (F := retry_rows pol fb req (max_attempts pol - 1) 1 2).
  assert (HP := retry_rows_provider pol primary req (max_attempts pol - 1) 1 1).
  assert (HF := retry_rows_provider pol fb req (max_attempts pol - 1) 1 2).
  fold P in HP. fold F in HF.
  exists P, F. cbv zeta. repeat split.
  - destruct (retry_result pol fb req (max_attempts pol - 1) 1);
      cbn [snd provider_calls log_fallback_event log_provider_call];
      rewrite <- !app_assoc; reflexivity.
  - exact HP.
  - apply retry_rows_numbers.
  - eapply retry_rows_exhausted; eauto.
  - exact HF.
  - cbn [map attempt_number seq]. f_equal. apply retry_rows_numbers.
  - apply retry_rows_length.
  - apply retry_rows_length.
  - unfold rows_with. rewrite !List.filter_app, !length_app.
    assert (Hnone : forall p l,
      Forall (fun r => call_provider r = p /\ call_status r <> st_fallback) l ->
      List.filter (fun r => bool_decide (call_status r = st_fallback)) l = []).
    { intros p l Hl. induction Hl as [|r l [_ Hr] _ IH]; [reflexivity|].
      cbn [List.filter]. rewrite bool_decide_eq_false_2 by exact Hr. exact IH. }
    rewrite (Hnone _ _ HP), (Hnone _ _ HF). reflexivity.
Qed.

Definition vendor_a_down : VendorAdapter :=
  mkAdapter vendorA (fun _ k =>
    match k with
    | 1%nat => mkRaw 120 (inl (VendorAHTTPError 500))
    | 2%nat => mkRaw 250 (inl (VendorAHTTPError 500))
    | _ => mkRaw 180 (inl (VendorAHTTPError 500))
    end).

Definition vendor_b_up : VendorAdapter := mkAdapter vendorB (fun _ _ => answer 340).

(** The documented example output of the tracing query. *)
Lemma documented_example_output :
  provider_calls (snd (call_with_fallback default_policy vendor_a_down (Some vendor_b_up)
                                          request_abc initial_state))
  = [ mkCall "abc-123" vendorA 1 st_retrying 120;
      mkCall "abc-123" vendorA 2 st_retrying 250;
      mkCall "abc-123" vendorA 3 st_error 180;
      mkCall "abc-123" vendorB 1 st_fallback 0;
      mkCall "abc-123" vendorB 2 st_success 340 ].
Proof. reflexivity. Qed.

(** The documented example splits into three rows of the primary, the
    [fallback] row, and one row of the fallback. *)
Lemma documented_example_order :
  fst (call_with_retry default_policy vendor_a_down request_abc 1 initial_state)
  = inl (VendorAHTTPError 500) /\
  exists P F,
    provider_calls (snd (call_with_fallback default_policy vendor_a_down (Some vendor_b_up)
                                            request_abc initial_state))
    = P ++ [mkCall "abc-123" vendorB 1 st_fallback 0] ++ F /\
    length P = 3%nat /\ length F = 1%nat.
Proof.
  assert (He : fst (call_with_retry default_policy vendor_a_down request_abc 1 initial_state)
               = inl (VendorAHTTPError 500)) by reflexivity.
  split; [exact He|].
  destruct (fallback_audit_order default_policy vendor_a_down vendor_b_up request_abc
              initial_state _ He) as (P & F & Heq & _ & _ & HlP & _ & _ & HlF & _).
  exists P, F. split; [exact Heq|]. split; [exact HlP|].
  cbv zeta in Heq. rewrite documented_example_output in Heq. cbn [provider_calls initial_state app] in Heq.
  apply (f_equal (@length _)) in Heq. rewrite !length_app in Heq. cbn [length] in Heq.
  cbn in HlP. lia.
Defined.

(** The first revision's [call_with_fallback] on failure: without a
    fallback, [AllVendorsFailed] with the primary's last error and
    nothing done after the primary's attempts; with one, both last
    errors. *)
Lemma call_with_fallback_failure pol primary req st pe :
  fst (call_with_retry pol primary req 1 st) = inl pe ->
  outcome pol primary req (S (max_attempts pol - 1)) = inl pe /\
  call_with_fallback pol primary None req st
  = (inl (AllVendorsFailed pe None), snd (call_with_retry pol primary req 1 st)) /\
  forall fb fe,
    fst (call_with_retry pol fb req 2
           (log_fallback_event fb req (snd (call_with_retry pol primary req 1 st)))) = inl fe ->
    outcome pol fb req (S (max_attempts pol - 1)) = inl fe /\
    fst (call_with_fallback pol primary (Some fb) req st)
    = inl (AllVendorsFailed pe (Some fe)).
Proof.
  intros He. split; [|split].
  - rewrite call_with_retry_eq in He. cbn [fst] in He.
    apply retry_result_last in He. apply He.
  - unfold call_with_fallback.
    destruct (call_with_retry pol primary req 1 st) as [[e|r] st1]; cbn in He; [|discriminate].
    inversion He; subst. reflexivity.
  - intros fb fe Hfe. split.
    + rewrite call_with_retry_eq in Hfe. cbn [fst] in Hfe.
      apply retry_result_last in Hfe. apply Hfe.
    + unfold call_with_fallback.
      destruct (call_with_retry pol primary req 1 st) as [[e|r] st1]; cbn in He; [|discriminate].
      inversion He; subst. cbn [snd] in Hfe.
      destruct (call_with_retry pol fb req 2 (log_fallback_event fb req st1)) as [[e'|r'] st3];
        cbn in Hfe; [|discriminate].
      inversion Hfe; subst. reflexivity.
Qed.

Definition vendor_b_limited : VendorAdapter :=
  mkAdapter vendorB (fun _ _ => mkRaw 40 (inl (VendorBRateLimitError 2000))).

(** C6 on the second revision of [call_with_fallback]: primary and
    fallback both exhaust their three attempts, and what the caller
    gets is the fallback's rate-limit error as it was raised, not
    [AllVendorsFailed] with both errors, which the first revision
    raises on the same input. *)
Theorem rev2_loses_primary_error :
  fst (call_with_fallback_rev2 default_policy vendor_a_down (Some vendor_b_limited)
                               request_abc initial_state)
  = inl (Raised (VendorBRateLimitError 2000)) /\
  fst (call_with_fallback default_policy vendor_a_down (Some vendor_b_limited)
                          request_abc initial_state)
  = inl (AllVendorsFailed (VendorAHTTPError 500) (Some (VendorBRateLimitError 2000))).
Proof. split; reflexivity. Qed.

Lemma rows_with_app s (l1 l2 : list ProviderCallRecord) :
  rows_with s (l1 ++ l2) = rows_with s l1 ++ rows_with s l2.
Proof. apply List.filter_app. Qed.

(** One retried call writes no row of status [fallback]. *)
Lemma retry_rows_no_fallback pol v req fuel k number :
  rows_with st_fallback (retry_rows pol v req fuel k number) = [].
Proof.
  pose proof (retry_rows_provider pol v req fuel k number) as H.
  unfold rows_with. induction H as [|r l [_ Hr] _ IH]; [reflexivity|].
  cbn [List.filter]. rewrite bool_decide_eq_false_2 by exact Hr. exact IH.
Qed.

(** C4 on the second revision of [call_with_fallback]: the primary
    exhausts its three attempts, the fallback answers at once, and the
    audit holds the primary's three rows followed by the fallback's
    row, with no row of status [fallback] in between; no call of the
    second revision, whatever the adapters, adds a [fallback] row.  The
    first revision writes the marker on the same input, as in the
    documented example output. *)
Theorem rev2_writes_no_fallback_row :
  fst (call_with_retry default_policy vendor_a_down request_abc 1 initial_state)
  = inl (VendorAHTTPError 500) /\
  provider_calls (snd (call_with_fallback_rev2 default_policy vendor_a_down (Some vendor_b_up)
                                               request_abc initial_state))
  = [ mkCall "abc-123" vendorA 1 st_retrying 120;
      mkCall "abc-123" vendorA 2 st_retrying 250;
      mkCall "abc-123" vendorA 3 st_error 180;
      mkCall "abc-123" vendorB 1 st_success 340 ] /\
  (forall pol primary fallback req st,
     rows_with st_fallback
       (provider_calls (snd (call_with_fallback_rev2 pol primary fallback req st)))
     = rows_with st_fallback (provider_calls st)) /\
  rows_with st_fallback
    (provider_calls (snd (call_with_fallback default_policy vendor_a_down (Some vendor_b_up)
                                             request_abc initial_state)))
  = [ mkCall "abc-123" vendorB 1 st_fallback 0 ].
Proof.
  split; [reflexivity|]. split; [reflexivity|]. split; [|reflexivity].
  intros pol primary fallback req st. unfold call_with_fallback_rev2.
  rewrite call_with_retry_eq.
  destruct (retry_result pol primary req (max_attempts pol - 1) 1) as [e|resp].
  - destruct fallback as [fb|].
    + rewrite call_with_retry_eq.
      destruct (retry_result pol fb req (max_attempts pol - 1) 1);
        cbn [snd provider_calls];
        rewrite !rows_with_app, !retry_rows_no_fallback, !app_nil_r; reflexivity.
    + cbn [snd provider_calls].
      rewrite rows_with_app, retry_rows_no_fallback. apply app_nil_r.
  - cbn [snd provider_calls].
    rewrite rows_with_app, retry_rows_no_fallback. apply app_nil_r.
Qed.

End ResilienceFacts.

(** ** The idempotency stores *)

Module IdempotencyFacts.
Import Idempotency.

Section Stores.
Context {R : Type}.

(** *** The table *)

Lemma table_visible : store_visible R (idempotency_keys R).
Proof.
  intros tbl t k r now ttl tbl' now' Hst Hlt. cbn in *.
  unfold db_cache_response in Hst. unfold db_get_cached_response.
  unfold idempotency_keys in *.
  destruct (255 <? char_length k)%nat; [discriminate|].
  destruct (tbl !! k) eqn:Hk; [discriminate|]. inversion Hst; subst.
  rewrite lookup_insert_eq. cbn [row_tenant_id row_expires_at row_response].
  rewrite bool_decide_eq_true_2 by reflexivity.
  destruct (Z.ltb_spec now' (now + ttl)); [reflexivity|lia].
Qed.

(** The primary key admits one row per key string, whoever the tenant:
    no state of the table serves two tenants under one key. *)
Lemma table_one_tenant_per_key (tbl : idempotency_keys R) tA tB k nowA nowB rA rB :
  db_get_cached_response tbl tA k nowA = Some rA ->
  db_get_cached_response tbl tB k nowB = Some rB ->
  tA = tB.
Proof.
  unfold db_get_cached_response. destruct (tbl !! k) as [row|]; [|discriminate].
  intros HA HB.
  destruct (bool_decide_reflect (row_tenant_id row = tA)) as [<-|]; [|discriminate].
  destruct (bool_decide_reflect (row_tenant_id row = tB)) as [<-|]; [|discriminate].
  reflexivity.
Qed.

(** What does hold on the table: a write for one tenant, accepted or
    refused, leaves the lookups of every other tenant as they were. *)
Lemma table_lookup_other_tenant (tbl : idempotency_keys R) tA tB k k' r now ttl at_ :
  tA <> tB ->
  db_get_cached_response
    (default tbl (db_cache_response tbl tB k r now ttl)) tA k' at_
  = db_get_cached_response tbl tA k' at_.
Proof.
  intros Hne. unfold db_cache_response. unfold idempotency_keys in *.
  destruct (255 <? char_length k)%nat; [reflexivity|].
  destruct (tbl !! k) eqn:Hk; [reflexivity|]. cbn [default from_option]. unfold id.
  unfold db_get_cached_response. unfold idempotency_keys in *.
  destruct (decide (k = k')) as [<-|Hkk].
  - rewrite lookup_insert_eq, Hk. cbn [row_tenant_id].
    rewrite bool_decide_eq_false_2 by congruence. reflexivity.
  - rewrite lookup_insert_ne by exact Hkk. reflexivity.
Qed.

(** A row past its expiry is served to nobody. *)
Lemma table_expired_is_absent (tbl : idempotency_keys R) tenant k row at_ :
  tbl !! k = Some row -> row_expires_at row <= at_ ->
  db_get_cached_response tbl tenant k at_ = None.
Proof.
  intros Hk He. unfold db_get_cached_response. rewrite Hk.
  destruct (Z.ltb_spec at_ (row_expires_at row)); [lia|].
  rewrite andb_false_r. reflexivity.
Qed.

(** *** Redis *)

Lemma redis_expired_is_absent (db : redis R) name value expires at_ :
  db !! name = Some (value, expires) -> expires <= at_ ->
  redis_get db name at_ = None.
Proof.
  intros Hk He. unfold redis_get. rewrite Hk.
  destruct (Z.ltb_spec at_ expires); [lia|reflexivity].
Qed.

Lemma length_append s1 s2 :
  String.length (s1 +:+ s2) = (String.length s1 + String.length s2)%nat.
Proof.
  induction s1 as [|a s1 IH]; [reflexivity|].
  change (String a s1 +:+ s2) with (String a (s1 +:+ s2)).
  cbn [String.length]. rewrite IH. reflexivity.
Qed.

Lemma append_cancel_r s1 : forall s2 t, s1 +:+ t = s2 +:+ t -> s1 = s2.
Proof.
  induction s1 as [|a s1 IH]; intros [|b s2] t H.
  - reflexivity.
  - apply (f_equal String.length) in H. rewrite !length_append in H.
    cbn [String.length] in H. lia.
  - apply (f_equal String.length) in H. rewrite !length_append in H.
    cbn [String.length] in H. lia.
  - change (String a (s1 +:+ t) = String b (s2 +:+ t)) in H.
    injection H as -> H. f_equal. eapply IH. exact H.
Qed.

Lemma redis_name_tenant tA tB k :
  redis_name tA k = redis_name tB k -> tA = tB.
Proof.
  unfold redis_name. intros H.
  apply (inj (String.append "idempotency:")) in H.
  eapply append_cancel_r. exact H.
Qed.

Lemma redis_visible : store_visible R (redis R).
Proof.
  intros db t k r now ttl db' now' Hst Hlt. cbn in *. inversion Hst; subst.
  unfold redis_get, setex. unfold redis in *. rewrite lookup_insert_eq.
  destruct (Z.ltb_spec now' (now + ttl)); [reflexivity|lia].
Qed.

(** With the Redis names, the same key string of two tenants is two
    entries: each tenant is served its own response, and a write of one
    leaves the entry of the other as it was. *)
Lemma redis_scoped_per_tenant (db : redis R) tA tB k rA rB now ttl at_ :
  tA <> tB ->
  redis_get (setex db (redis_name tB k) ttl rB now) (redis_name tA k) at_
  = redis_get db (redis_name tA k) at_ /\
  (at_ < now + ttl ->
   let db' := setex (setex db (redis_name tA k) ttl rA now) (redis_name tB k) ttl rB now in
   redis_get db' (redis_name tA k) at_ = Some rA /\
   redis_get db' (redis_name tB k) at_ = Some rB).
Proof.
  intros Hne.
  assert (Hn : redis_name tB k <> redis_name tA k).
  { intros H. apply redis_name_tenant in H. congruence. }
  unfold redis_get, setex. unfold redis in *. split; [|intros Hlt; cbv zeta; split].
  - rewrite lookup_insert_ne by exact Hn. reflexivity.
  - rewrite lookup_insert_ne by exact Hn. rewrite lookup_insert_eq.
    destruct (Z.ltb_spec at_ (now + ttl)); [reflexivity|lia].
  - rewrite lookup_insert_eq.
    destruct (Z.ltb_spec at_ (now + ttl)); [reflexivity|lia].
Qed.

End Stores.

(** C8 on the table [idempotency_keys]: tenant A stores a response
    under ["k1"]; the insert of tenant B under the same key string is
    refused by the primary key, and B's lookup stays absent while A's
    is served.  The two tenants do not get two entries. *)
Theorem table_key_not_scoped :
  let tA := "0b0e5a6e-0000-4000-8000-00000000000a" in
  let tB := "0b0e5a6e-0000-4000-8000-00000000000b" in
  exists tbl,
    db_cache_response (∅ : idempotency_keys string) tA "k1" "response A" 0 86400 = Some tbl /\
    db_cache_response tbl tB "k1" "response B" 10 86400 = None /\
    db_get_cached_response tbl tB "k1" 20 = None /\
    db_get_cached_response tbl tA "k1" 20 = Some "response A".
Proof.
  cbv zeta. eexists. split; [reflexivity|]. repeat split; vm_compute; reflexivity.
Qed.

End IdempotencyFacts.

(** ** Sends: persistence and replay *)

Module OrchestratorFacts.
Import PyDecimal Resilience Idempotency Orchestrator ResilienceFacts.

Section Sends.
Context {St : Type} `{IdempotencyStore MessageResponse St}.
Variable pol : policy.

(** The request the handler passes to the adapters. *)
Definition vendor_request (r : SendRequest) : VendorRequest :=
  mkRequest (body_content r) (system_prompt (agent r)) (correlation_id r).


Lemma evaluate_tools_keeps r answer (w : World St) :
  let w' := snd (evaluate_tools r answer w) in
  messages w' = messages w /\ usage_events w' = usage_events w /\
  audit w' = audit w /\ clock_events w' = clock_events w /\
  idempotency w' = idempotency w.
Proof.
  unfold evaluate_tools.
  destruct (_ && _); cbn; repeat split; reflexivity.
Qed.

Lemma assistant_messages_app (w : World St) l a u c t (i : St) e :
  messages w = l ->
  assistant_messages (mkWorld (l ++ a) u c t i e)
  = assistant_messages w ++ List.filter (fun m => bool_decide (message_role m = assistant)) a.
Proof.
  intros <-. unfold assistant_messages. cbn [messages]. apply List.filter_app.
Qed.

(** What one run of the handler leaves in the database: nothing of the
    answer, or the assistant message together with its usage event. *)
Inductive persisted (w w' : World St) : (send_error + MessageResponse) -> Prop :=
| persisted_neither e :
    usage_events w' = usage_events w ->
    assistant_messages w' = assistant_messages w ->
    persisted w w' (inl e)
| persisted_both reply u :
    usage_events w' = usage_events w ++ [u] ->
    assistant_messages w' = assistant_messages w ++ [reply_message reply] ->
    usage_message_id u = message_id (reply_message reply) ->
    usage_provider u = default vendorA (provider_used (reply_message reply)) ->
    cost_usd u = reply_cost_usd reply ->
    persisted w w' (inr reply).

Lemma assistant_filter_user (l : list Message) (m : Message) :
  message_role m = user ->
  List.filter (fun m => bool_decide (message_role m = assistant)) (l ++ [m])
  = List.filter (fun m => bool_decide (message_role m = assistant)) l.
Proof.
  intros Hm. rewrite List.filter_app. cbn [List.filter].
  rewrite bool_decide_eq_false_2 by (rewrite Hm; discriminate). apply app_nil_r.
Qed.

Lemma handle_message_persisted r (w : World St) :
  persisted w (snd (handle_message pol r w)) (fst (handle_message pol r w)) /\
  idempotency (snd (handle_message pol r w)) = idempotency w.
Proof.
  unfold handle_message.
  destruct (call_with_fallback pol (primary_adapter r) (fallback_adapter r) _ _)
    as [[f|[resp used]] cs].
  - cbn [fst snd]. split; [|reflexivity]. constructor; [reflexivity|].
    unfold assistant_messages. cbn [messages]. apply assistant_filter_user. reflexivity.
  - match goal with |- context [evaluate_tools r ?a ?w0] =>
      pose proof (evaluate_tools_keeps r a w0) as Hk;
      destruct (evaluate_tools r a w0) as [[answer tools] w1] end.
    cbn [snd] in Hk. destruct Hk as (Hm & Hu & _ & _ & Hi).
    cbn [messages usage_events idempotency] in Hm, Hu, Hi.
    assert (Hnone : usage_events w1 = usage_events w /\
                    assistant_messages w1 = assistant_messages w).
    { split; [exact Hu|]. unfold assistant_messages. rewrite Hm.
      apply assistant_filter_user. reflexivity. }
    destruct Hnone as [Hu' Ha'].
    destruct (bool_decide _).
    { cbn [fst snd db_rollback db_add_message db_begin committed].
      split; [|exact Hi]. constructor; assumption. }
    destruct (Billing.calculate_cost _ _ _) as [e|cost].
    { cbn [fst snd db_rollback db_add_message db_begin committed].
      split; [|exact Hi]. constructor; assumption. }
    destruct (bool_decide _).
    { cbn [fst snd db_rollback db_add_usage db_add_message db_begin committed].
      split; [|exact Hi]. constructor; assumption. }
    cbn [fst snd]. split; [|exact Hi].
    econstructor.
    + cbn. rewrite Hu'. reflexivity.
    + unfold assistant_messages in *. cbn. rewrite List.filter_app, Ha'. reflexivity.
    + reflexivity.
    + reflexivity.
    + reflexivity.
Qed.

Lemma truthy_some k : k <> "" -> truthy (Some k) = true.
Proof.
  intros Hk. cbn. destruct (String.eqb_spec k ""); [contradiction|reflexivity].
Qed.

(** A cache hit returns the cached response and touches nothing. *)
Lemma send_message_hit r (w : World St) k cached :
  idempotency_key r = Some k -> k <> "" ->
  get_cached_response k (tenant_id r) (now r) w = Some cached ->
  send_message pol r w = (inr cached, w).
Proof.
  intros Hk Hne Hc. unfold send_message. rewrite Hk, (truthy_some k Hne), Hc.
  reflexivity.
Qed.

Lemma cache_response_keeps key tenant response at_ (w w' : World St) :
  cache_response key tenant response at_ w = Some w' ->
  messages w' = messages w /\ usage_events w' = usage_events w /\
  audit w' = audit w /\ clock_events w' = clock_events w.
Proof.
  unfold cache_response. destruct key as [k|]; [|intros [= <-]; auto].
  destruct (truthy (Some k)); [|intros [= <-]; auto].
  destruct (store _ _ _ _ _ _); [|discriminate]. intros [= <-]. auto.
Qed.

(** The answer of a send is in the database in full or not at all. *)
Definition both_or_neither (w w' : World St) : Prop :=
  (usage_events w' = usage_events w /\ assistant_messages w' = assistant_messages w) \/
  (exists m u,
     usage_events w' = usage_events w ++ [u] /\
     assistant_messages w' = assistant_messages w ++ [m] /\
     usage_message_id u = message_id m).

Definition neither (w w' : World St) : Prop :=
  usage_events w' = usage_events w /\ assistant_messages w' = assistant_messages w.

Lemma handle_message_never_refused r (w : World St) :
  fst (handle_message pol r w) <> inl CacheWriteRefused.
Proof.
  unfold handle_message.
  destruct (call_with_fallback _ _ _ _ _) as [[f|[resp used]] cs]; [discriminate|].
  destruct (evaluate_tools _ _ _) as [[? ?] ?].
  destruct (bool_decide _); [discriminate|].
  destruct (Billing.calculate_cost _ _ _); [discriminate|].
  destruct (bool_decide _); discriminate.
Qed.

(** The three ways a send can end: served from the cache; failed with
    nothing of the answer written; processed, with the assistant message
    and its usage event written together. *)
Lemma send_message_cases r (w : World St) :
  let res := fst (send_message pol r w) in
  let w' := snd (send_message pol r w) in
  (w' = w /\ exists cached, res = inr cached) \/
  (exists e, res = inl e /\ e <> CacheWriteRefused /\ neither w w') \/
  (exists reply u,
     (res = inr reply \/ res = inl CacheWriteRefused) /\
     usage_events w' = usage_events w ++ [u] /\
     assistant_messages w' = assistant_messages w ++ [reply_message reply] /\
     usage_message_id u = message_id (reply_message reply) /\
     usage_provider u = default vendorA (provider_used (reply_message reply)) /\
     cost_usd u = reply_cost_usd reply).
Proof.
  cbv zeta. unfold send_message.
  destruct (match idempotency_key r with
            | Some k => if truthy (idempotency_key r)
                        then get_cached_response k (tenant_id r) (now r) w else None
            | None => None end) as [cached|].
  { left. cbn. eauto. }
  right.
  destruct (handle_message_persisted r w) as [Hp _].
  pose proof (handle_message_never_refused r w) as Hne.
  destruct (handle_message pol r w) as [[e|reply] w1]; cbn [fst snd] in *.
  - left. exists e. inversion Hp; subst.
    split; [reflexivity|]. split; [congruence|]. split; assumption.
  - right. inversion Hp; subst.
    destruct (cache_response _ _ _ _ _) as [w2|] eqn:Hc.
    + apply cache_response_keeps in Hc. destruct Hc as (Hm & Hu & _).
      exists reply, u. cbn [fst snd]. split; [left; reflexivity|].
      unfold assistant_messages. rewrite Hm, Hu. repeat split; assumption.
    + exists reply, u. cbn [fst snd]. split; [right; reflexivity|]. repeat split; assumption.
Qed.

(** C7.  Every logical send, and so every one that ends in failure,
    leaves the assistant message and its usage event both written or
    both unwritten.  A send that fails before the commit, and in
    particular one interrupted by an error between the insert of the
    message and the insert of the usage event, leaves neither. *)
Theorem commit_all_or_nothing r (w : World St) :
  both_or_neither w (snd (send_message pol r w)) /\
  (forall e, fst (send_message pol r w) = inl e -> e <> CacheWriteRefused ->
             neither w (snd (send_message pol r w))) /\
  (interruption (env r) = FaultAfterMessageInsert ->
   neither w (snd (send_message pol r w))).
Proof.
  destruct (send_message_cases r w) as [[Hw [c Hc]]|[(e & He & Hne & Hn)|(reply & u & Hr & Hu & Ha & Hid & _)]].
  - split; [left; rewrite Hw; split; reflexivity|].
    split; intros; rewrite Hw; split; reflexivity.
  - split; [left; exact Hn|]. split; intros; exact Hn.
  - split; [right; exists (reply_message reply), u; auto|]. split.
    + intros e He Hne. destruct Hr as [Hr|Hr]; rewrite Hr in He; congruence.
    + intros Hf. exfalso.
      revert Hr Hu. unfold send_message.
      destruct (match idempotency_key r with
                | Some k => if truthy (idempotency_key r)
                            then get_cached_response k (tenant_id r) (now r) w else None
                | None => None end) as [cached|].
      { cbn [fst snd]. intros _ Hu. apply (f_equal (@length _)) in Hu.
        rewrite length_app in Hu. cbn in Hu. lia. }
      assert (Hh : exists e0 w0, handle_message pol r w = (inl e0, w0) /\ usage_events w0 = usage_events w).
      { destruct (handle_message_persisted r w) as [Hp _]. revert Hp.
        unfold handle_message.
        destruct (call_with_fallback _ _ _ _ _) as [[f|[resp used]] cs];
          [cbn; intros Hp; inversion Hp; eauto|].
        destruct (evaluate_tools _ _ _) as [[? ?] ?].
        rewrite Hf, bool_decide_eq_true_2 by reflexivity.
        cbn. intros Hp; inversion Hp; eauto. }
      destruct Hh as (e0 & w0 & -> & Hu0). cbn [fst snd].
      intros _ Hu. rewrite Hu0 in Hu. apply (f_equal (@length _)) in Hu.
      rewrite length_app in Hu. cbn in Hu. lia.
Qed.

(** Sends that hit the cache, one after the other. *)
Lemma serve_replays (w : World St) tenant k cached (rs : list SendRequest) :
  k <> "" ->
  Forall (fun r => tenant_id r = tenant /\ idempotency_key r = Some k /\
                   get_cached_response k tenant (now r) w = Some cached) rs ->
  serve pol rs w = (map (fun _ => inr cached) rs, w).
Proof.
  intros Hk Hrs. induction Hrs as [|r rs (Ht & Hkey & Hc) _ IH]; [reflexivity|].
  cbn [serve map]. rewrite (send_message_hit r w k cached Hkey Hk) by (rewrite Ht; exact Hc).
  rewrite IH. reflexivity.
Qed.

(** Exactly once: a send with a fresh key that is answered writes one
    usage event and one assistant message, and every later send of the
    tenant with that key, within the 24 hours, gets the same answer and
    writes nothing. *)
Lemma exactly_once (w0 w : World St) r k reply (rs : list SendRequest) :
  store_visible MessageResponse St ->
  idempotency_key r = Some k -> k <> "" ->
  get_cached_response k (tenant_id r) (now r) w0 = None ->
  send_message pol r w0 = (inr reply, w) ->
  Forall (fun r' => tenant_id r' = tenant_id r /\ idempotency_key r' = Some k /\
                    now r' < now r + 86400) rs ->
  length (usage_events w) = S (length (usage_events w0)) /\
  length (assistant_messages w) = S (length (assistant_messages w0)) /\
  serve pol rs w = (map (fun _ => inr reply) rs, w).
Proof.
  intros Hlaw Hk Hne Hmiss Hsend Hrs.
  assert (Hhit : forall r', tenant_id r' = tenant_id r -> now r' < now r + 86400 ->
                            get_cached_response k (tenant_id r) (now r') w = Some reply).
  { intros r' Ht Hlt. revert Hsend. unfold send_message.
    rewrite Hk, (truthy_some k Hne), Hmiss.
    destruct (handle_message pol r w0) as [[e|reply'] w1]; [discriminate|].
    unfold cache_response. rewrite (truthy_some k Hne).
    destruct (store (idempotency w1) (tenant_id r) k reply' (now r) 86400) as [s'|] eqn:Hst;
      [|discriminate].
    intros [= <- <-]. unfold get_cached_response. cbn [idempotency].
    eapply Hlaw; eauto. }
  assert (Hgrow : usage_events w = usage_events w0 ++ [] -> False).
  { revert Hsend. unfold send_message. rewrite Hk, (truthy_some k Hne), Hmiss.
    destruct (handle_message_persisted r w0) as [Hp _].
    destruct (handle_message pol r w0) as [[e|reply'] w1]; [discriminate|].
    cbn [fst snd] in Hp. inversion Hp as [|? u Hu Ha _ _ _]; subst.
    destruct (cache_response _ _ _ _ _) as [w2|] eqn:Hc; [|discriminate].
    apply cache_response_keeps in Hc. destruct Hc as (_ & Hu2 & _).
    intros [= <- <-] Heq. rewrite Hu2, Hu in Heq.
    apply (f_equal (@length _)) in Heq. rewrite !length_app in Heq. cbn in Heq. lia. }
  destruct (send_message_cases r w0)
    as [[Hw _]|[(e & He & _)|(reply' & u & _ & Hu & Ha & _)]].
  - exfalso. apply Hgrow. rewrite Hsend in Hw. cbn [snd] in Hw. rewrite Hw, app_nil_r.
    reflexivity.
  - rewrite Hsend in He. discriminate.
  - rewrite Hsend in Hu, Ha. cbn [snd] in Hu, Ha.
    rewrite Hu, Ha, !length_app. cbn [length]. split; [lia|]. split; [lia|].
    apply (serve_replays w (tenant_id r) k reply rs Hne).
    eapply Forall_impl; [exact Hrs|].
    intros r' (Ht & Hk' & Hlt). split; [exact Ht|]. split; [exact Hk'|].
    apply (Hhit r' Ht Hlt).
Qed.

(** C1.  While a (tenant, key) pair has a record that has not expired
    (the key a non-empty string: an empty one counts as no key), every
    call of that tenant with that key is answered with the cached
    response, the same one each time, and leaves the world as it was: no
    usage event, no message, no audit row is added.  No single call,
    cached or not, adds more than one usage event or more than one
    assistant message.  And from a fresh key on, over a store that
    serves what it accepted: the answered call that stores the record
    writes exactly one usage event and one assistant message, and the
    calls repeated within the 24 hours write none and return its
    response. *)
Theorem idempotent_replay :
  (forall (w : World St) tenant k cached (rs : list SendRequest),
     k <> "" ->
     Forall (fun r => tenant_id r = tenant /\ idempotency_key r = Some k /\
                      get_cached_response k tenant (now r) w = Some cached) rs ->
     serve pol rs w = (map (fun _ => inr cached) rs, w)) /\
  (forall r (w0 : World St),
     (length (usage_events (snd (send_message pol r w0)))
      <= length (usage_events w0) + 1)%nat /\
     (length (assistant_messages (snd (send_message pol r w0)))
      <= length (assistant_messages w0) + 1)%nat) /\
  (forall (w0 w : World St) r k reply (rs : list SendRequest),
     store_visible MessageResponse St ->
     idempotency_key r = Some k -> k <> "" ->
     get_cached_response k (tenant_id r) (now r) w0 = None ->
     send_message pol r w0 = (inr reply, w) ->
     Forall (fun r' => tenant_id r' = tenant_id r /\ idempotency_key r' = Some k /\
                       now r' < now r + 86400) rs ->
     length (usage_events w) = S (length (usage_events w0)) /\
     length (assistant_messages w) = S (length (assistant_messages w0)) /\
     serve pol rs w = (map (fun _ => inr reply) rs, w)).
Proof.
  split; [|split].
  - intros w tenant k cached rs Hk Hrs. apply (serve_replays w tenant k cached rs Hk Hrs).
  - intros r w0.
    destruct (send_message_cases r w0)
      as [[-> _]|[(e & _ & _ & Hu & Ha)|(reply & u & _ & Hu & Ha & _)]];
      [lia|rewrite Hu, Ha; lia|rewrite Hu, Ha, !length_app; cbn; lia].
  - intros w0 w r k reply rs. apply exactly_once.
Qed.

(** A record of a send that was accepted by the store answers the next
    send of the tenant with that key, for 24 hours. *)
Lemma send_then_replay (w0 w : World St) r1 r2 k reply :
  store_visible MessageResponse St ->
  idempotency_key r1 = Some k -> k <> "" ->
  get_cached_response k (tenant_id r1) (now r1) w0 = None ->
  send_message pol r1 w0 = (inr reply, w) ->
  idempotency_key r2 = Some k -> tenant_id r2 = tenant_id r1 ->
  now r2 < now r1 + 86400 ->
  send_message pol r2 w = (inr reply, w).
Proof.
  intros Hlaw Hk1 Hne Hmiss Hsend Hk2 Ht Hnow.
  apply (send_message_hit r2 w k reply Hk2 Hne).
  revert Hsend. unfold send_message. rewrite Hk1, (truthy_some k Hne), Hmiss.
  destruct (handle_message_persisted r1 w0) as [_ Hi].
  destruct (handle_message pol r1 w0) as [[e|reply'] w1]; [discriminate|].
  cbn [snd] in Hi. unfold cache_response. rewrite (truthy_some k Hne).
  destruct (store (idempotency w1) (tenant_id r1) k reply' (now r1) 86400) as [s'|] eqn:Hst;
    [|discriminate].
  intros [= <- <-]. unfold get_cached_response. cbn [idempotency]. rewrite Ht.
  eapply Hlaw; eauto.
Qed.

(** A message whose primary vendor answers its first call in time, and
    whose answer can be priced, is handled to the end when nothing
    interrupts it. *)
Lemma handle_message_answered r (w : World St) resp cost :
  outcome pol (primary_adapter r) (vendor_request r) 1 = inr resp ->
  Billing.calculate_cost (primary_provider (agent r)) (tokens_in resp) (tokens_out resp)
  = inr cost ->
  interruption (env r) = NoFault ->
  exists reply w1,
    handle_message pol r w = (inr reply, w1) /\
    reply_cost_usd reply = cost /\
    provider_used (reply_message reply) = Some (primary_provider (agent r)).
Proof.
  intros Ho Hc Hi. unfold handle_message. fold (vendor_request r).
  unfold call_with_fallback. rewrite call_with_retry_eq.
  assert (Hr : retry_result pol (primary_adapter r) (vendor_request r)
                 (max_attempts pol - 1) 1 = inr resp).
  { destruct (max_attempts pol - 1)%nat; cbn [retry_result]; rewrite Ho; reflexivity. }
  rewrite Hr.
  destruct (evaluate_tools _ _ _) as [[answer tools] w1].
  rewrite Hi, !bool_decide_eq_false_2 by discriminate.
  cbn [name primary_adapter]. rewrite Hc.
  eexists. eexists. split; [reflexivity|]. split; reflexivity.
Qed.


End Sends.

Section PrimarySucceeds.
Context {St : Type} `{IdempotencyStore MessageResponse St}.






End PrimarySucceeds.
End OrchestratorFacts.

(** ** The chat hook *)

Module DashboardFacts.
Import Dashboard.

Lemma prefix_append s : forall x, String.prefix s (s +:+ x) = true.
Proof.
  induction s as [|a s IH]; intros x.
  - destruct x; reflexivity.
  - change (String a s +:+ x) with (String a (s +:+ x)). cbn [String.prefix].
    destruct (Ascii.ascii_dec a a) as [_|Hn]; [apply IH|contradiction].
Qed.

Lemma stamp_temp t : String.prefix "temp-" (stamp "temp-" t) = true.
Proof. apply prefix_append. Qed.

Lemma uuid_not_temp s : is_uuid s = true -> String.prefix "temp-" s = false.
Proof.
  unfold is_uuid. destruct s as [|c s]; [discriminate|].
  intros Hu. apply andb_prop in Hu. destruct Hu as [_ Hc].
  cbn [all_chars] in Hc. apply andb_prop in Hc. destruct Hc as [Hc _].
  cbn [String.prefix].
  destruct (Ascii.ascii_dec "t" c) as [<-|]; [discriminate Hc|reflexivity].
Qed.

Definition no_temp (l : list Message) : Prop := Forall (fun m => is_temp m = false) l.

Lemma onError_no_temp l : no_temp (onError l).
Proof.
  unfold no_temp, onError. induction l as [|m l IH]; [constructor|].
  cbn [List.filter]. destruct (is_temp m) eqn:Hm; cbn [negb]; [exact IH|].
  constructor; assumption.
Qed.

Lemma onError_id l : no_temp l -> onError l = l.
Proof.
  unfold no_temp, onError. induction 1 as [|m l Hm _ IH]; [reflexivity|].
  cbn [List.filter]. rewrite Hm. cbn [negb]. f_equal. exact IH.
Qed.

Lemma onError_app l1 l2 : onError (l1 ++ l2) = onError l1 ++ onError l2.
Proof. apply List.filter_app. Qed.

(** Between sends, no message of the list is a temporary one. *)
Lemma settled_no_temp l : settled l -> no_temp l.
Proof.
  induction 1 as [|msgs Hm|sid content t1 t2 ans prev _ IH Ha|sid content t1 prev _ IH
                  |sid text t prev _ IH|sid text t prev _ IH|ans prev _ IH Ha].
  - constructor.
  - unfold no_temp. eapply Forall_impl; [exact Hm|].
    intros m Hu. apply uuid_not_temp. exact Hu.
  - unfold onSuccess. apply Forall_app. split; [apply onError_no_temp|].
    constructor; [reflexivity|]. constructor; [|constructor].
    apply uuid_not_temp. exact Ha.
  - apply onError_no_temp.
  - apply Forall_app. split; [exact IH|]. constructor; [reflexivity|constructor].
  - apply Forall_app. split; [exact IH|]. constructor; [reflexivity|constructor].
  - apply Forall_app. split; [exact IH|]. constructor; [|constructor].
    apply uuid_not_temp. exact Ha.
Qed.

(** C10.  Sending appends one optimistic message whose id starts with
    [temp-]; [onError] removes every message whose id starts with
    [temp-]; and for every message list the chat page can show between
    sends, a send that fails leaves the list as it was before it. *)
Theorem failed_send_restores_messages sid content t prev :
  settled prev ->
  (exists m, onMutate sid content t prev = prev ++ [m] /\
             String.prefix "temp-" (id m) = true) /\
  (forall l, Forall (fun m => String.prefix "temp-" (id m) = false) (onError l)) /\
  onError (onMutate sid content t prev) = prev.
Proof.
  intros Hs. split; [|split].
  - eexists. split; [reflexivity|]. apply stamp_temp.
  - intros l. apply onError_no_temp.
  - unfold onMutate. rewrite onError_app, (onError_id prev) by (apply settled_no_temp; exact Hs).
    unfold onError at 1. unfold List.filter, is_temp. unfold id at 1.
    rewrite stamp_temp. apply app_nil_r.
Qed.

Definition restored_list : list Message :=
  [ mkMessage "3f2b8c1e-7a4d-4e2b-9c1f-0a1b2c3d4e5f" "s1" "user" "hello" [] 1700000000000;
    mkMessage "9d8c7b6a-5e4f-4a3b-8c2d-1e0f9a8b7c6d" "s1" "assistant" "hi" [] 1700000000500 ].

(** A failed send on a restored transcript of two messages. *)
Lemma failed_send_restores_messages_witness :
  settled restored_list /\
  onError (onMutate "s1" "status?" 1700000001000 restored_list) = restored_list.
Proof.
  assert (Hs : settled restored_list).
  { apply settled_restored. repeat constructor. }
  split; [exact Hs|].
  apply (failed_send_restores_messages "s1" "status?" 1700000001000 restored_list Hs).
Defined.

(** With two sends in flight the hypothesis is needed: the failure of
    the second also removes the optimistic message of the first. *)
Lemma overlapping_sends_lose_optimistic_message :
  let pending := onMutate "s1" "first" 1700000001000 [] in
  onError (onMutate "s1" "second" 1700000001001 pending) <> pending.
Proof. vm_compute. discriminate. Qed.

(** *** The idempotency key of a dashboard send *)

Import Resilience Idempotency Orchestrator OrchestratorFacts IdempotencyFacts.

(** The request the backend handles for a post of the dashboard: the
    key is the [Idempotency-Key] header, the content the JSON body. *)
Definition receive (p : post) (tenant : string) (ag : AgentConfig)
    (sid corr : string) (at_ : Z) (e : Env) : SendRequest :=
  mkSend tenant ag sid (data p) (idempotency_header p) corr at_ e.

Lemma stamp_msg_nonempty t : stamp "msg-" t <> "".
Proof.
  unfold stamp. change ("msg-" +:+ pretty t) with (String "m" ("sg-" +:+ pretty t)).
  discriminate.
Qed.

Lemma sendMessage_header sid content k :
  k <> "" -> idempotency_header (sendMessage sid content (Some k)) = Some k.
Proof.
  intros Hk. unfold idempotency_header, sendMessage, js_truthy. cbn [config_headers].
  destruct (String.eqb_spec k ""); [contradiction|]. cbn [negb header].
  rewrite String.eqb_refl. reflexivity.
Qed.

(** C9 as stated fails for the voice messages of the chat page: the
    recorder of the same page posts them through [sendVoiceMessage],
    whose headers are [X-API-Key] and [Content-Type] only, so such a
    message reaches the backend without an idempotency key. *)
Lemma voice_message_has_no_key :
  (forall sid apiKey, idempotency_header (sendVoiceMessage sid apiKey) = None) /\
  config_headers (sendVoiceMessage "session-1" "key-1")
  = Some [("X-API-Key", "key-1"); ("Content-Type", "multipart/form-data")] /\
  Orchestrator.truthy (idempotency_header (sendVoiceMessage "session-1" "key-1")) = false.
Proof. split; [intros; reflexivity|]. split; reflexivity. Qed.

(** C9 (amended).  Every text message sent through the chat hook carries
    the header [Idempotency-Key: msg-<milliseconds>], never an absent or
    empty key, so the backend does not skip its idempotency check for
    it.  Two text sends issued in the same millisecond carry the same
    key, whatever their content or session.  A send with such a key that
    the backend receives while it holds no record of the key (and the
    store accepts one), whose primary vendor answers at its first call
    with an answer that can be priced, is processed: it is answered, it
    writes exactly one usage event and one assistant message, and its
    response is stored.  Every text send of that millisecond that the
    same tenant's backend receives after that, within the 24 hours, is
    answered with the stored response and the world stays as it was. *)
Theorem dashboard_send_is_keyed :
  (forall sid content t,
     mutationFn (Some sid) content t
     = inr (sendMessage sid content (Some (stamp "msg-" t))) /\
     idempotency_header (sendMessage sid content (Some (stamp "msg-" t)))
     = Some ("msg-" +:+ pretty t) /\
     Orchestrator.truthy (Some (stamp "msg-" t)) = true) /\
  (forall sid1 content1 sid2 content2 t p1 p2,
     mutationFn (Some sid1) content1 t = inr p1 ->
     mutationFn (Some sid2) content2 t = inr p2 ->
     idempotency_header p1 = idempotency_header p2) /\
  (forall (St : Type) (backend : IdempotencyStore MessageResponse St) pol
          sid1 content1 t p1 tenant ag1 s1 c1 at1 e1 (w0 : World St) resp cost,
     let r1 := receive p1 tenant ag1 s1 c1 at1 e1 in
     mutationFn (Some sid1) content1 t = inr p1 ->
     store_visible MessageResponse St ->
     get_cached_response (stamp "msg-" t) tenant at1 w0 = None ->
     (forall reply, store (idempotency w0) tenant (stamp "msg-" t) reply at1 86400 <> None) ->
     ResilienceFacts.outcome pol (primary_adapter r1) (vendor_request r1) 1 = inr resp ->
     Billing.calculate_cost (primary_provider ag1) (tokens_in resp) (tokens_out resp)
     = inr cost ->
     interruption e1 = NoFault ->
     exists reply w,
       send_message pol r1 w0 = (inr reply, w) /\
       reply_cost_usd reply = cost /\
       length (usage_events w) = S (length (usage_events w0)) /\
       length (assistant_messages w) = S (length (assistant_messages w0)) /\
       forall sid2 content2 p2 ag2 s2 c2 at2 e2,
         mutationFn (Some sid2) content2 t = inr p2 ->
         at2 < at1 + 86400 ->
         send_message pol (receive p2 tenant ag2 s2 c2 at2 e2) w = (inr reply, w)).
Proof.
  split; [|split].
  - intros sid content t. split; [reflexivity|]. split.
    + apply sendMessage_header, stamp_msg_nonempty.
    + apply truthy_some, stamp_msg_nonempty.
  - intros sid1 content1 sid2 content2 t p1 p2 [= <-] [= <-].
    rewrite !sendMessage_header by apply stamp_msg_nonempty. reflexivity.
  - intros St backend pol sid1 content1 t p1 tenant ag1 s1 c1 at1 e1 w0 resp cost r1
           [= <-] Hlaw Hmiss Hacc Ho Hc Hi.
    assert (Hk1 : idempotency_key r1 = Some (stamp "msg-" t))
      by (apply sendMessage_header, stamp_msg_nonempty).
    destruct (handle_message_answered pol r1 w0 resp cost Ho Hc Hi)
      as (reply & w1 & Hh & Hcost & _).
    destruct (handle_message_persisted pol r1 w0) as [_ Hid].
    rewrite Hh in Hid. cbn [snd] in Hid.
    assert (Hsend : exists w, send_message pol r1 w0 = (inr reply, w)).
    { unfold send_message. rewrite Hk1, (truthy_some _ (stamp_msg_nonempty t)).
      change (tenant_id r1) with tenant. change (now r1) with at1.
      rewrite Hmiss, Hh. unfold cache_response.
      rewrite (truthy_some _ (stamp_msg_nonempty t)), Hid.
      destruct (store (idempotency w0) tenant (stamp "msg-" t) reply at1 86400) eqn:Hst;
        [eexists; reflexivity|].
      exfalso. exact (Hacc reply Hst). }
    destruct Hsend as [w Hsend]. exists reply, w.
    split; [exact Hsend|]. split; [exact Hcost|].
    destruct (exactly_once pol w0 w r1 (stamp "msg-" t) reply [] Hlaw Hk1
                (stamp_msg_nonempty t) Hmiss Hsend ltac:(constructor)) as (Hu & Ha & _).
    split; [exact Hu|]. split; [exact Ha|].
    intros sid2 content2 p2 ag2 s2 c2 at2 e2 [= <-] Hlt.
    eapply (send_then_replay pol w0 w r1 _ (stamp "msg-" t) reply Hlaw Hk1
              (stamp_msg_nonempty t) Hmiss Hsend).
    + apply sendMessage_header, stamp_msg_nonempty.
    + reflexivity.
    + exact Hlt.
Qed.

End DashboardFacts.

(** ** Worked scenarios *)

Module Scenarios.
Import PyDecimal Resilience Idempotency Orchestrator.
Import ResilienceFacts IdempotencyFacts OrchestratorFacts DashboardFacts.

Definition fails_twice : VendorRequest -> nat -> raw_call :=
  fun _ k =>
    match k with
    | 1%nat | 2%nat => mkRaw 120 (inl (VendorAHTTPError 500))
    | _ => mkRaw 234 (inr (mkResponse "Invoice INV-001 is paid." 500 300 234))
    end.

Definition always_answers : VendorRequest -> nat -> raw_call :=
  fun _ _ => mkRaw 340 (inr (mkResponse "Invoice INV-001 is paid." 100 150 340)).

Definition demo_agent : AgentConfig :=
  mkAgent "agent-1" vendorA (Some vendorB) "You are a billing assistant." [].

Definition demo_env (f : fault) : Env :=
  mkEnv fails_twice always_answers "user-message-1" "assistant-message-1" None f.

Definition demo_send (at_ : Z) (f : fault) : SendRequest :=
  mkSend "tenant-1" demo_agent "session-1" "What is invoice INV-001 status?"
         (Some "request-xyz-789") "correlation-abc" at_ (demo_env f).

Definition empty_world : World (redis MessageResponse) := mkWorld [] [] [] [] ∅ [].

Definition after_first_send : World (redis MessageResponse) :=
  snd (send_message default_policy (demo_send 1000 NoFault) empty_world).

(** Two more sends with the key of a send that was answered and stored. *)
Lemma idempotent_replay_witness :
  "request-xyz-789" <> "" /\
  exists cached,
    serve default_policy [demo_send 2000 NoFault; demo_send 3000 NoFault] after_first_send
    = ([inr cached; inr cached], after_first_send).
Proof.
  assert (Hk : "request-xyz-789" <> "") by discriminate.
  split; [exact Hk|]. eexists.
  refine (proj1 (idempotent_replay default_policy) after_first_send "tenant-1"
            "request-xyz-789" _ [demo_send 2000 NoFault; demo_send 3000 NoFault] Hk _).
  constructor; [|constructor; [|constructor]];
    (split; [reflexivity|split; [reflexivity|vm_compute; reflexivity]]).
Defined.

(** A send interrupted between the two inserts writes neither row. *)
Lemma commit_all_or_nothing_witness :
  interruption (env (demo_send 1000 FaultAfterMessageInsert)) = FaultAfterMessageInsert /\
  neither empty_world
    (snd (send_message default_policy (demo_send 1000 FaultAfterMessageInsert) empty_world)).
Proof.
  split; [reflexivity|].
  apply (proj2 (proj2 (commit_all_or_nothing default_policy
                         (demo_send 1000 FaultAfterMessageInsert) empty_world))).
  reflexivity.
Defined.


(** A vendor reporting 5 * 10^27 input tokens: pricing the answer
    raises after the message was added to the session, and neither the
    message nor a usage event is written. *)
Definition absurd_usage : VendorRequest -> nat -> raw_call :=
  fun _ _ => mkRaw 234 (inr (mkResponse "..." (5 * 10 ^ 27) 0 234)).

Lemma billing_error_writes_nothing :
  let r := mkSend "tenant-1" demo_agent "session-1" "hello" None "correlation-abc" 1000
                  (mkEnv absurd_usage always_answers "user-message-1" "assistant-message-1"
                         None NoFault) in
  fst (send_message default_policy r empty_world) = inl (BillingError InvalidOperation) /\
  usage_events (snd (send_message default_policy r empty_world)) = [] /\
  assistant_messages (snd (send_message default_policy r empty_world)) = [].
Proof. cbv zeta. repeat split; vm_compute; reflexivity. Qed.

Definition first_post : Dashboard.post :=
  Dashboard.sendMessage "session-1" "hello" (Some (Dashboard.stamp "msg-" 1700000000000)).

Definition second_post : Dashboard.post :=
  Dashboard.sendMessage "session-1" "hello again" (Some (Dashboard.stamp "msg-" 1700000000000)).

(** An environment whose primary vendor answers its first call. *)
Definition prompt_env : Env :=
  mkEnv always_answers always_answers "user-message-1" "assistant-message-1" None NoFault.

Definition first_outcome : (send_error + MessageResponse) * World (redis MessageResponse) :=
  send_message default_policy
    (receive first_post "tenant-1" demo_agent "session-1" "c-1" 1000 prompt_env)
    empty_world.

(** Two dashboard sends of one millisecond, handled one after the other
    over the Redis store: the first is processed and billed once, the
    second is answered from the cache. *)
Lemma dashboard_send_is_keyed_witness :
  Dashboard.mutationFn (Some "session-1") "hello" 1700000000000 = inr first_post /\
  Dashboard.mutationFn (Some "session-1") "hello again" 1700000000000 = inr second_post /\
  exists reply w,
    first_outcome = (inr reply, w) /\
    reply_cost_usd reply = mkDecimal 500 (-6) /\
    length (usage_events w) = 1%nat /\
    length (assistant_messages w) = 1%nat /\
    send_message default_policy
      (receive second_post "tenant-1" demo_agent "session-1" "c-2" 1001 (demo_env NoFault)) w
    = (inr reply, w).
Proof.
  split; [reflexivity|]. split; [reflexivity|].
  destruct (proj2 (proj2 dashboard_send_is_keyed) (redis MessageResponse) _ default_policy
              "session-1" "hello" 1700000000000%N first_post "tenant-1" demo_agent
              "session-1" "c-1" 1000 prompt_env empty_world
              (mkResponse "Invoice INV-001 is paid." 100 150 340) (mkDecimal 500 (-6))
              eq_refl redis_visible eq_refl ltac:(discriminate) eq_refl eq_refl eq_refl)
    as (reply & w & Hsend & Hcost & Hu & Ha & Hnext).
  exists reply, w. split; [exact Hsend|]. split; [exact Hcost|].
  split; [exact Hu|]. split; [exact Ha|].
  apply (Hnext "session-1" "hello again" second_post demo_agent "session-1" "c-2" 1001
           (demo_env NoFault) eq_refl).
  lia.
Defined.

End Scenarios.

(** ** The voice recorder's timer *)

Module VoiceRecorderFacts.
Import VoiceRecorder.

(** The character of a decimal digit. *)
Definition digit (d : N) : ascii := Ascii.ascii_of_N (48 + d).

Definition two_digits (s : N) : string :=
  String (digit (s / 10)) (String (digit (s mod 10)) "").

Lemma padStart_two_digits s :
  (s < 60)%N -> padStart 2 "0" (pretty s) = two_digits s.
Proof.
  intros Hs.
  assert (Hall : forallb (fun k => String.eqb (padStart 2 "0" (pretty (N.of_nat k)))
                                              (two_digits (N.of_nat k)))
                         (seq 0 60) = true) by (vm_compute; reflexivity).
  rewrite forallb_forall in Hall.
  specialize (Hall (N.to_nat s)).
  rewrite N2Nat.id in Hall.
  apply String.eqb_eq, Hall, in_seq. lia.
Qed.

Lemma two_digits_inj a b :
  (a < 60)%N -> (b < 60)%N -> two_digits a = two_digits b -> a = b.
Proof.
  intros Ha Hb H.
  assert (Hall : forallb (fun i => forallb (fun j =>
                   implb (String.eqb (two_digits (N.of_nat i)) (two_digits (N.of_nat j)))
                         (Nat.eqb i j)) (seq 0 60)) (seq 0 60) = true)
    by (vm_compute; reflexivity).
  rewrite forallb_forall in Hall.
  specialize (Hall (N.to_nat a)). rewrite forallb_forall in Hall.
  assert (Hi : In (N.to_nat a) (seq 0 60)) by (apply in_seq; lia).
  assert (Hj : In (N.to_nat b) (seq 0 60)) by (apply in_seq; lia).
  specialize (Hall Hi (N.to_nat b) Hj).
  rewrite !N2Nat.id in Hall.
  apply String.eqb_eq in H. rewrite H in Hall. cbn in Hall.
  apply Nat.eqb_eq in Hall. lia.
Qed.

Lemma append_inj_suffix s1 : forall s2 t1 t2,
  String.length t1 = String.length t2 ->
  s1 +:+ t1 = s2 +:+ t2 -> s1 = s2 /\ t1 = t2.
Proof.
  induction s1 as [|a s1 IH]; intros [|b s2] t1 t2 Hl H.
  - split; [reflexivity|exact H].
  - apply (f_equal String.length) in H.
    rewrite !IdempotencyFacts.length_append in H. cbn [String.length] in H. lia.
  - apply (f_equal String.length) in H.
    rewrite !IdempotencyFacts.length_append in H. cbn [String.length] in H. lia.
  - change (String a (s1 +:+ t1) = String b (s2 +:+ t2)) in H.
    injection H as -> H. destruct (IH _ _ _ Hl H) as [-> ->]. split; reflexivity.
Qed.

(** X1.  The timer of the voice recorder: for every count of seconds
    the display is the minutes, a colon and the seconds as exactly two
    digits, the seconds below 60; and two different counts are never
    displayed alike. *)
Theorem formatTime_two_digit_seconds (a b : N) :
  (a < 2 ^ 53)%N -> (b < 2 ^ 53)%N ->
  formatTime a = pretty (a / 60)%N +:+ ":" +:+ two_digits (a mod 60)%N /\
  (a mod 60 < 60)%N /\
  (formatTime a = formatTime b -> a = b).
Proof.
  intros _ _.
  assert (Hshape : forall n,
             formatTime n = pretty (n / 60)%N +:+ ":" +:+ two_digits (n mod 60)%N).
  { intros n. unfold formatTime. cbv zeta.
    rewrite padStart_two_digits by (apply N.mod_lt; discriminate). reflexivity. }
  split; [apply Hshape|]. split; [apply N.mod_lt; discriminate|].
  rewrite !Hshape. intros H.
  apply append_inj_suffix in H; [|reflexivity].
  destruct H as [Hm Hs].
  apply (inj pretty) in Hm.
  injection Hs as Hs1 Hs0.
  assert (a mod 60 = b mod 60)%N.
  { apply two_digits_inj; try (apply N.mod_lt; discriminate).
    unfold two_digits. rewrite Hs1, Hs0. reflexivity. }
  rewrite (N.div_mod a 60), (N.div_mod b 60) by discriminate. congruence.
Qed.

Lemma formatTime_two_digit_seconds_witness :
  formatTime 65 = "1:05" /\ (5 < 60)%N /\ (formatTime 65 = formatTime 65 -> 65%N = 65%N).
Proof.
  exact (formatTime_two_digit_seconds 65 65 eq_refl eq_refl).
Defined.

End VoiceRecorderFacts.

(** ** Dashboard authentication *)

Module AuthFacts.
Import Auth.

Lemma truthy_true k : truthy (Some k) = true <-> k <> "".
Proof.
  cbn. destruct (String.eqb_spec k ""); cbn; split; congruence.
Qed.

Lemma request_interceptor_stored s cfg k :
  getItem "apiKey" s = Some k -> k <> "" ->
  request_interceptor s cfg = mkRequest (path cfg) (<["X-API-Key" := k]> (headers cfg)).
Proof.
  intros Hk Hne. unfold request_interceptor. rewrite Hk.
  apply truthy_true in Hne. rewrite Hne. reflexivity.
Qed.

Lemma request_interceptor_none s cfg :
  truthy (getItem "apiKey" s) = false -> request_interceptor s cfg = cfg.
Proof.
  unfold request_interceptor. destruct (getItem "apiKey" s) as [k|]; [|reflexivity].
  intros ->. reflexivity.
Qed.

Lemma sent_typed_key path typed (b : Browser) :
  truthy (getItem "apiKey" (storage b)) = false ->
  headers (sent_request path {["X-API-Key" := typed]} b) !! "X-API-Key" = Some typed.
Proof.
  intros H. unfold sent_request. rewrite request_interceptor_none by exact H.
  cbn. apply lookup_union_Some_l. apply lookup_singleton_eq.
Qed.

(** X2.  With a key in the storage, the request interceptor replaces
    whatever [X-API-Key] the caller passed: the request by which the
    login form "tests" the typed key carries the stored key, so the
    outcome of the form does not depend on the key that was typed, and
    when the stored key is accepted the typed one is stored without
    having been sent. *)
Theorem stored_key_overrides_typed_key (server : Request -> outcome)
    (typed other stored : string) (b : Browser) :
  getItem "apiKey" (storage b) = Some stored -> stored <> "" ->
  headers (sent_request "/api/agents" {["X-API-Key" := typed]} b) !! "X-API-Key"
  = Some stored /\
  fst (handleSubmit server typed b) = fst (handleSubmit server other b) /\
  (resolves (server (sent_request "/api/agents" {["X-API-Key" := typed]} b)) = true ->
   getItem "apiKey" (storage (snd (handleSubmit server typed b))) = Some typed).
Proof.
  intros Hk Hne.
  assert (Hsent : forall t,
             sent_request "/api/agents" {["X-API-Key" := t]} b
             = mkRequest "/api/agents"
                 (<["X-API-Key" := stored]> default_headers)).
  { intros t. unfold sent_request.
    rewrite (request_interceptor_stored _ _ stored) by assumption.
    reflexivity. }
  split; [|split].
  - rewrite Hsent. cbn. apply lookup_insert_eq.
  - unfold handleSubmit, apiClient_get. rewrite !Hsent.
    set (o := server _). destruct (resolves o) eqn:Hr; cbn; rewrite ?Hr; reflexivity.
  - unfold handleSubmit, apiClient_get. rewrite !Hsent.
    set (o := server _). intros Hr. rewrite Hr. cbn. rewrite Hr.
    cbn. apply lookup_insert_eq.
Qed.

Definition stale_browser : Browser :=
  mkBrowser {["apiKey" := "sk_old"]} "/login".

Definition accepts (key : string) (r : Request) : outcome :=
  if bool_decide (headers r !! "X-API-Key" = Some key) then Status 200 else Status 401.

Lemma stored_key_overrides_typed_key_witness :
  headers (sent_request "/api/agents" {["X-API-Key" := "sk_typo"]} stale_browser)
    !! "X-API-Key" = Some "sk_old" /\
  fst (handleSubmit (accepts "sk_old") "sk_typo" stale_browser)
  = fst (handleSubmit (accepts "sk_old") "sk_other" stale_browser) /\
  (resolves (accepts "sk_old"
      (sent_request "/api/agents" {["X-API-Key" := "sk_typo"]} stale_browser)) = true ->
   getItem "apiKey" (storage (snd (handleSubmit (accepts "sk_old") "sk_typo" stale_browser)))
   = Some "sk_typo").
Proof.
  apply (stored_key_overrides_typed_key (accepts "sk_old") "sk_typo" "sk_other" "sk_old"
           stale_browser).
  - reflexivity.
  - discriminate.
Defined.

(** X3.  Without a key in the storage the login form sends the typed
    key; it stores the key and goes to the agents page exactly when the
    backend answered 2xx, and otherwise leaves the storage as it was
    and shows one of its two messages, the "invalid key" one exactly on
    a 401. *)
Theorem login_stores_only_validated_key (server : Request -> outcome)
    (typed : string) (b : Browser) :
  getItem "apiKey" (storage b) = None ->
  let sent := sent_request "/api/agents" {["X-API-Key" := typed]} b in
  let '(st, b') := handleSubmit server typed b in
  headers sent !! "X-API-Key" = Some typed /\
  loading st = false /\
  (resolves (server sent) = true ->
     getItem "apiKey" (storage b') = Some typed /\
     navigated st = Some "/agents" /\ pathname b' = "/agents" /\ error st = "") /\
  (resolves (server sent) = false ->
     storage b' = storage b /\ navigated st = None /\
     error st = if is_401 (server sent)
                then "Invalid API key. Please check and try again."
                else "Failed to connect to backend. Is the server running?").
Proof.
  intros Hnone sent.
  assert (Hh : headers sent !! "X-API-Key" = Some typed).
  { apply sent_typed_key. rewrite Hnone. reflexivity. }
  unfold handleSubmit, apiClient_get. fold sent.
  destruct (resolves (server sent)) eqn:Hr; rewrite Hr; cbn.
  - split; [exact Hh|]. split; [reflexivity|]. split; [|discriminate].
    intros _. split; [apply lookup_insert_eq|]. repeat split.
  - split; [exact Hh|]. split; [reflexivity|]. split; [discriminate|].
    intros _. split; [|split; reflexivity].
    unfold response_error_interceptor.
    destruct (is_401 (server sent) && negb (String.eqb (pathname b) "/login")); [|reflexivity].
    cbn. unfold removeItem. apply delete_id. exact Hnone.
Qed.

Definition fresh_browser : Browser := mkBrowser ∅ "/login".

Lemma login_stores_only_validated_key_witness :
  let sent := sent_request "/api/agents" {["X-API-Key" := "sk_good"]} fresh_browser in
  let '(st, b') := handleSubmit (accepts "sk_good") "sk_good" fresh_browser in
  headers sent !! "X-API-Key" = Some "sk_good" /\
  loading st = false /\
  (resolves (accepts "sk_good" sent) = true ->
     getItem "apiKey" (storage b') = Some "sk_good" /\
     navigated st = Some "/agents" /\ pathname b' = "/agents" /\ error st = "") /\
  (resolves (accepts "sk_good" sent) = false ->
     storage b' = storage fresh_browser /\ navigated st = None /\
     error st = if is_401 (accepts "sk_good" sent)
                then "Invalid API key. Please check and try again."
                else "Failed to connect to backend. Is the server running?").
Proof.
  apply (login_stores_only_validated_key (accepts "sk_good") "sk_good" fresh_browser).
  reflexivity.
Defined.

(** X4.  A hook that mounts reports [isAuthenticated] exactly when the
    request interceptor attaches a key: both read the same storage entry
    and both treat an empty string as no key. *)
Theorem authenticated_iff_key_sent (s : Storage) (cfg : Request) :
  headers cfg !! "X-API-Key" = None ->
  (isAuthenticated (useAuth_mount s) = true
   <-> is_Some (headers (request_interceptor s cfg) !! "X-API-Key")) /\
  (forall k, headers (request_interceptor s cfg) !! "X-API-Key" = Some k ->
             useAuth_mount s = Some k /\ k <> "").
Proof.
  intros Hcfg. unfold useAuth_mount, isAuthenticated, request_interceptor.
  destruct (getItem "apiKey" s) as [k|] eqn:Hk; cbv zeta.
  - destruct (truthy (Some k)) eqn:Ht.
    + split.
      * split; [intros _; exists k; apply lookup_insert_eq|intros _; exact Ht].
      * intros k'. cbn [headers]. unfold Headers in *.
        rewrite lookup_insert_eq. intros [= <-].
        split; [reflexivity|]. apply truthy_true. exact Ht.
    + split.
      * split; [discriminate|]. rewrite Hcfg. intros [? [=]].
      * intros k'. rewrite Hcfg. discriminate.
  - split.
    + split; [discriminate|]. rewrite Hcfg. intros [? [=]].
    + intros k'. rewrite Hcfg. discriminate.
Qed.

Lemma authenticated_iff_key_sent_witness :
  (isAuthenticated (useAuth_mount {["apiKey" := "sk_old"]}) = true
   <-> is_Some (headers (request_interceptor {["apiKey" := "sk_old"]}
                           (merge_config "/api/agents" ∅)) !! "X-API-Key")) /\
  (forall k, headers (request_interceptor {["apiKey" := "sk_old"]}
                        (merge_config "/api/agents" ∅)) !! "X-API-Key" = Some k ->
             useAuth_mount {["apiKey" := "sk_old"]} = Some k /\ k <> "").
Proof.
  apply (authenticated_iff_key_sent {["apiKey" := "sk_old"]} (merge_config "/api/agents" ∅)).
  reflexivity.
Defined.

(** X5.  [login] then [logout]: after [login(key)] with a non-empty key
    a hook that mounts holds that key and requests carry it; after
    [logout()] the storage has no key, a hook that mounts is not
    authenticated and requests go out as the caller made them.  An
    empty key is stored by [login] but authenticates nothing. *)
Theorem login_logout_round_trip (s : Storage) (key : string) (cfg : Request) :
  key <> "" ->
  let s1 := fst (login key s) in
  let s2 := fst (logout s1) in
  useAuth_mount s1 = Some key /\
  headers (request_interceptor s1 cfg) !! "X-API-Key" = Some key /\
  getItem "apiKey" s2 = None /\
  isAuthenticated (useAuth_mount s2) = false /\
  request_interceptor s2 cfg = cfg /\
  isAuthenticated (snd (login "" s)) = false /\
  isAuthenticated (useAuth_mount (fst (login "" s))) = false.
Proof.
  intros Hne. cbn [login logout fst snd]. unfold setItem, removeItem.
  assert (Hget : getItem "apiKey" (<["apiKey" := key]> s) = Some key)
    by apply lookup_insert_eq.
  assert (Hdel : getItem "apiKey" (delete "apiKey" (<["apiKey" := key]> s)) = None)
    by apply lookup_delete_eq.
  split.
  { unfold useAuth_mount. rewrite Hget. apply truthy_true in Hne. rewrite Hne. reflexivity. }
  split.
  { rewrite (request_interceptor_stored _ _ key) by assumption. cbn. apply lookup_insert_eq. }
  split; [exact Hdel|].
  split; [unfold useAuth_mount; rewrite Hdel; reflexivity|].
  split; [apply request_interceptor_none; rewrite Hdel; reflexivity|].
  split; [reflexivity|].
  unfold useAuth_mount.
  replace (getItem "apiKey" (<["apiKey" := ""]> s)) with (Some "") by (symmetry; apply lookup_insert_eq).
  reflexivity.
Qed.

Lemma login_logout_round_trip_witness :
  let s1 := fst (login "sk_good" ∅) in
  let s2 := fst (logout s1) in
  useAuth_mount s1 = Some "sk_good" /\
  headers (request_interceptor s1 (merge_config "/api/agents" ∅)) !! "X-API-Key"
  = Some "sk_good" /\
  getItem "apiKey" s2 = None /\
  isAuthenticated (useAuth_mount s2) = false /\
  request_interceptor s2 (merge_config "/api/agents" ∅) = merge_config "/api/agents" ∅ /\
  isAuthenticated (snd (login "" ∅)) = false /\
  isAuthenticated (useAuth_mount (fst (login "" ∅))) = false.
Proof.
  apply (login_logout_round_trip ∅ "sk_good" (merge_config "/api/agents" ∅)).
  discriminate.
Defined.

(** X6.  A 401 on any page but the login page removes the stored key and
    sends the browser to [/login], so that a hook mounting afterwards is
    not authenticated; every other failure, and a 401 on the login page
    itself, leaves the browser as it was.  The caller sees the failure
    in every case. *)
Theorem unauthorized_response_logs_out (server : Request -> outcome)
    (path_ : string) (call_headers : Headers) (b : Browser) :
  resolves (server (sent_request path_ call_headers b)) = false ->
  let o := server (sent_request path_ call_headers b) in
  let '(o', b') := apiClient_get server path_ call_headers b in
  o' = o /\
  (is_401 o = true -> pathname b <> "/login" ->
     getItem "apiKey" (storage b') = None /\ pathname b' = "/login" /\
     isAuthenticated (useAuth_mount (storage b')) = false) /\
  (is_401 o = false \/ pathname b = "/login" -> b' = b).
Proof.
  intros Hr o. unfold apiClient_get. fold o. fold o in Hr. rewrite Hr.
  split; [reflexivity|]. unfold response_error_interceptor. split.
  - intros H401 Hp. rewrite H401.
    destruct (String.eqb_spec (pathname b) "/login"); [contradiction|]. cbn.
    assert (Hdel : getItem "apiKey" (removeItem "apiKey" (storage b)) = None)
      by apply lookup_delete_eq.
    split; [exact Hdel|]. split; [reflexivity|].
    unfold useAuth_mount. rewrite Hdel. reflexivity.
  - intros [H401|Hp].
    + rewrite H401. reflexivity.
    + rewrite Hp. cbn. rewrite andb_false_r. reflexivity.
Qed.

Definition agents_browser : Browser := mkBrowser {["apiKey" := "sk_revoked"]} "/agents".

Lemma unauthorized_response_logs_out_witness :
  let o := accepts "sk_good" (sent_request "/api/agents" ∅ agents_browser) in
  let '(o', b') := apiClient_get (accepts "sk_good") "/api/agents" ∅ agents_browser in
  o' = o /\
  (is_401 o = true -> pathname agents_browser <> "/login" ->
     getItem "apiKey" (storage b') = None /\ pathname b' = "/login" /\
     isAuthenticated (useAuth_mount (storage b')) = false) /\
  (is_401 o = false \/ pathname agents_browser = "/login" -> b' = agents_browser).
Proof.
  apply (unauthorized_response_logs_out (accepts "sk_good") "/api/agents" ∅ agents_browser).
  reflexivity.
Defined.

End AuthFacts.

(** ** The chat page *)

Module ChatPageFacts.
Import Dashboard DashboardFacts ChatPage.

Lemma trimStart_nil s : trimStart s = [] <-> forallb is_js_whitespace s = true.
Proof.
  induction s as [|c s IH]; cbn [trimStart forallb]; [tauto|].
  destruct (is_js_whitespace c); cbn [andb]; [exact IH|].
  split; discriminate.
Qed.

Lemma trimStart_blank_suffix s :
  forallb is_js_whitespace (trimStart s) = forallb is_js_whitespace s.
Proof.
  induction s as [|c s IH]; [reflexivity|]. cbn [trimStart].
  destruct (is_js_whitespace c) eqn:Hc.
  - cbn [forallb]. rewrite Hc. exact IH.
  - reflexivity.
Qed.

Lemma forallb_rev {A} (f : A -> bool) l : forallb f (rev l) = forallb f l.
Proof.
  induction l as [|a l IH]; [reflexivity|].
  cbn [rev forallb]. rewrite forallb_app, IH. cbn [forallb].
  rewrite andb_true_r. apply andb_comm.
Qed.

(** [trim] leaves nothing exactly when every code unit is white space. *)
Lemma trim_blank s : js_not (trim s) = forallb is_js_whitespace s.
Proof.
  unfold trim, trimEnd.
  destruct (forallb is_js_whitespace s) eqn:Hs.
  - assert (H1 : trimStart s = []) by (apply trimStart_nil; exact Hs).
    rewrite H1. reflexivity.
  - destruct (rev (trimStart (rev (trimStart s)))) as [|c r] eqn:Hr; [|reflexivity].
    exfalso.
    apply (f_equal (@rev N)) in Hr. rewrite rev_involutive in Hr. cbn [rev] in Hr.
    apply trimStart_nil in Hr. rewrite forallb_rev, trimStart_blank_suffix in Hr.
    congruence.
Qed.

(** X7.  [handleSend]: nothing is sent without a session or when the
    input holds only white space and line terminators, and the input
    field is then left as it is; any other input is handed to the
    mutation exactly as typed, surrounding blanks included, and the
    field is cleared. *)
Theorem handleSend_skips_blank_input (input : jsstring) (session : option string) :
  handleSend input session =
  if forallb is_js_whitespace input || negb (bool_decide (is_Some session))
  then (None, input) else (Some input, []).
Proof.
  unfold handleSend. rewrite trim_blank. reflexivity.
Qed.

Definition placeholder (sid : string) (t1 : N) : Message :=
  mkMessage (stamp "voice-" t1) sid "user" "🎤 Voice message (transcribing...)" [] t1.

Lemma placeholder_not_temp sid t1 : is_temp (placeholder sid t1) = false.
Proof. reflexivity. Qed.

Lemma elem_of_onError m l : is_temp m = false -> m ∈ l -> m ∈ onError l.
Proof.
  intros Hm Hin. unfold onError. apply list_elem_of_In, filter_In.
  split; [apply list_elem_of_In; exact Hin|]. rewrite Hm. reflexivity.
Qed.

(** X8.  The voice flow only ever appends: with a session and a stored
    key it adds the "transcribing" placeholder before the upload; when
    the upload fails the placeholder stays (one message more), when it
    succeeds the transcript and the answer follow it (three more) and
    the placeholder is still there; and the text flow that runs later
    does not remove it either, whether its send succeeds or fails. *)
Theorem voice_placeholder_is_never_removed (sid : string) (apiKey : option string)
    (t1 t2 t3 : N) (result : upload) (st : VoiceState) :
  Auth.truthy apiKey = true ->
  let st' := handleVoiceMessage (Some sid) apiKey t1 t2 t3 result st in
  (exists more, messages st' = messages st ++ placeholder sid t1 :: more /\
                length more = match result with Uploaded _ => 2%nat | UploadFailed _ _ => 0%nat end) /\
  voiceLoading st' = false /\
  (forall content t, placeholder sid t1 ∈ onError (onMutate sid content t (messages st'))) /\
  (forall content t t' answer,
     placeholder sid t1 ∈ onSuccess sid content t' answer (onMutate sid content t (messages st'))).
Proof.
  intros Hk st'.
  assert (Hmsgs : exists more, messages st' = messages st ++ placeholder sid t1 :: more /\
            length more = match result with Uploaded _ => 2%nat | UploadFailed _ _ => 0%nat end).
  { unfold st', handleVoiceMessage. rewrite Hk. cbn [negb].
    destruct result as [r|d m]; cbn [messages]; unfold addMessage.
    - eexists. rewrite <- !app_assoc. cbn [app]. split; reflexivity.
    - exists []. split; reflexivity. }
  assert (Hin : placeholder sid t1 ∈ messages st').
  { destruct Hmsgs as (more & -> & _). apply elem_of_app. right. left. }
  split; [exact Hmsgs|]. split.
  { unfold st', handleVoiceMessage. rewrite Hk. cbn [negb]. destruct result; reflexivity. }
  split.
  - intros content t. apply elem_of_onError; [reflexivity|].
    unfold onMutate. apply elem_of_app. left. exact Hin.
  - intros content t t' answer. unfold onSuccess. apply elem_of_app. left.
    apply (elem_of_onError _ (onMutate sid content t (messages st'))); [reflexivity|].
    unfold onMutate. apply elem_of_app. left. exact Hin.
Qed.

Lemma voice_placeholder_is_never_removed_witness :
  let st' := handleVoiceMessage (Some "s1") (Some "sk_good") 1 2 3
               (UploadFailed None (Some "Network Error")) (mkVoiceState [] false None) in
  (exists more, messages st' = [] ++ placeholder "s1" 1 :: more /\ length more = 0%nat) /\
  voiceLoading st' = false /\
  (forall content t, placeholder "s1" 1 ∈ onError (onMutate "s1" content t (messages st'))) /\
  (forall content t t' answer,
     placeholder "s1" 1 ∈ onSuccess "s1" content t' answer (onMutate "s1" content t (messages st'))).
Proof.
  apply (voice_placeholder_is_never_removed "s1" (Some "sk_good") 1 2 3
           (UploadFailed None (Some "Network Error")) (mkVoiceState [] false None)).
  reflexivity.
Defined.

(** X9.  A text send that succeeds, started from a list the page can
    show between sends, ends with that list followed by the user's
    message under a [user-] id and the assistant's message: the
    optimistic [temp-] message is gone and nothing else is. *)
Theorem successful_send_replaces_optimistic_message
    (sid content : string) (t1 t2 : N) (answer : Message) (prev : list Message) :
  settled prev ->
  onSuccess sid content t2 answer (onMutate sid content t1 prev)
  = prev ++ [mkMessage (stamp "user-" t2) sid "user" content [] t2; answer].
Proof.
  intros Hs. unfold onSuccess, onMutate. f_equal.
  change (onError (prev ++ [mkMessage (stamp "temp-" t1) sid "user" content [] t1]) = prev).
  rewrite onError_app, (onError_id prev) by (apply settled_no_temp; exact Hs).
  unfold onError. cbn [List.filter]. unfold is_temp. cbn [id].
  rewrite stamp_temp. cbn [negb]. apply app_nil_r.
Qed.

Lemma successful_send_replaces_optimistic_message_witness :
  onSuccess "s1" "hello" 2 (mkMessage "a" "s1" "assistant" "hi" [] 2)
    (onMutate "s1" "hello" 1 [])
  = [] ++ [mkMessage (stamp "user-" 2) "s1" "user" "hello" [] 2;
           mkMessage "a" "s1" "assistant" "hi" [] 2].
Proof.
  apply (successful_send_replaces_optimistic_message "s1" "hello" 1 2
           (mkMessage "a" "s1" "assistant" "hi" [] 2) []).
  apply settled_new_session.
Defined.



(** X11.  When the user switches to another agent and the creation of
    its session fails, the hook keeps the session of the agent selected
    before; the page still lets a non-blank input through, and the
    message is posted to that earlier session. *)
Theorem failed_creation_posts_to_previous_session (agentId : string)
    (old : Session) (st : ChatState) (input : jsstring) (content : string) (t : N) :
  agentId <> "" ->
  session st = Some old ->
  forallb is_js_whitespace input = false ->
  exists st',
    session_effect agentId None Rejected st = inr st' /\
    session st' = Some old /\
    chat_error st' = "Failed to create session" /\
    handleSend input (option_map session_id_ (session st')) = (Some input, []) /\
    text_send st' content t
    = inr (sendMessage (session_id_ old) content (Some (stamp "msg-" t))).
Proof.
  intros Hne Hold Hinput.
  exists (mkChat (Some old) (chat_messages st) "Failed to create session" false).
  split.
  { unfold session_effect. destruct (String.eqb_spec agentId ""); [contradiction|].
    cbn. rewrite Hold. reflexivity. }
  cbn [session chat_error option_map].
  split; [reflexivity|]. split; [reflexivity|]. split.
  - unfold handleSend. rewrite trim_blank, Hinput. reflexivity.
  - reflexivity.
Qed.

Lemma failed_creation_posts_to_previous_session_witness :
  let st := mkChat (Some (mkSession "s1" "agent-1")) [] "" false in
  exists st',
    session_effect "agent-2" None Rejected st = inr st' /\
    session st' = Some (mkSession "s1" "agent-1") /\
    chat_error st' = "Failed to create session" /\
    handleSend [104; 105]%N (option_map session_id_ (session st')) = (Some [104; 105]%N, []) /\
    text_send st' "hi" 7
    = inr (sendMessage "s1" "hi" (Some (stamp "msg-" 7))).
Proof.
  apply (failed_creation_posts_to_previous_session "agent-2"
           (mkSession "s1" "agent-1")
           (mkChat (Some (mkSession "s1" "agent-1")) [] "" false)
           [104; 105]%N "hi" 7).
  - discriminate.
  - reflexivity.
  - reflexivity.
Defined.

(** The number of optimistic messages in a list. *)
Definition temps (l : list Message) : nat := length (List.filter is_temp l).

Lemma temps_app l1 l2 : temps (l1 ++ l2) = (temps l1 + temps l2)%nat.
Proof. unfold temps. rewrite List.filter_app, length_app. reflexivity. Qed.

Lemma temps_onError l : temps (onError l) = 0%nat.
Proof.
  unfold temps, onError. induction l as [|m l IH]; [reflexivity|].
  cbn [List.filter]. destruct (is_temp m) eqn:Hm; cbn [negb List.filter]; [exact IH|].
  rewrite Hm. exact IH.
Qed.

Lemma temps_no_temp l : temps l = 0%nat <-> no_temp l.
Proof.
  unfold temps, no_temp. induction l as [|m l IH]; cbn [List.filter].
  - split; [constructor|reflexivity].
  - destruct (is_temp m) eqn:Hm; cbn [length].
    + split; [discriminate|]. intros H. apply Forall_cons in H. destruct H. congruence.
    + rewrite IH. split.
      * intros H. constructor; assumption.
      * intros H. apply Forall_cons in H. tauto.
Qed.

Lemma voice_not_temp t : String.prefix "temp-" (stamp "voice-" t) = false.
Proof. reflexivity. Qed.

Lemma user_voice_not_temp t : String.prefix "temp-" (stamp "user-voice-" t) = false.
Proof. reflexivity. Qed.

(** The ids the backend assigns do not start with [temp-]. *)
Definition event_ok (e : ui_event) : Prop :=
  match e with
  | SendSucceeded _ assistantMessage => is_temp assistantMessage = false
  | VoiceSucceeded _ _ response => String.prefix "temp-" (assistant_message_id response) = false
  | _ => True
  end.

(** The invariant of the page. *)
Definition page_inv (p : Page) : Prop :=
  temps (page_messages p) = match pending p with Some _ => 1%nat | None => 0%nat end.

Lemma step_inv sid p e : event_ok e -> page_inv p -> page_inv (step sid p e).
Proof.
  unfold page_inv. intros Hok Hinv.
  destruct e as [content t|t a| |t1|t2 t3 r|]; cbn [step event_ok] in *.
  - destruct (pending p) as [c|] eqn:Hp; cbn [bool_decide orb].
    + rewrite bool_decide_eq_true_2 by eauto. cbn [orb]. rewrite Hp. exact Hinv.
    + rewrite bool_decide_eq_false_2 by (intros [? [=]]). cbn [orb].
      destruct (page_voiceLoading p); [rewrite Hp; exact Hinv|].
      cbn [page_messages pending]. unfold onMutate. rewrite temps_app, Hinv.
      unfold temps. cbn [List.filter]. unfold is_temp at 1. cbn [id].
      rewrite stamp_temp. reflexivity.
  - destruct (pending p) as [c|] eqn:Hp; [|rewrite Hp; exact Hinv].
    cbn [page_messages pending]. unfold onSuccess.
    rewrite temps_app. change (List.filter (fun m => negb (is_temp m)) (page_messages p))
      with (onError (page_messages p)). rewrite temps_onError.
    unfold temps. cbn [List.filter]. rewrite Hok. reflexivity.
  - destruct (pending p) as [c|] eqn:Hp; [|rewrite Hp; exact Hinv].
    cbn [page_messages pending]. apply temps_onError.
  - destruct (page_voiceLoading p); [exact Hinv|].
    cbn [page_messages pending]. unfold addMessage. rewrite temps_app, Hinv.
    unfold temps. cbn [List.filter]. unfold is_temp. cbn [id].
    rewrite voice_not_temp. cbn. lia.
  - destruct (page_voiceLoading p); [|exact Hinv].
    cbn [page_messages pending]. unfold addMessage. rewrite !temps_app, Hinv.
    unfold temps. cbn [List.filter]. unfold is_temp. cbn [id].
    rewrite Hok, user_voice_not_temp. cbn. lia.
  - destruct (page_voiceLoading p); exact Hinv.
Qed.

Lemma run_inv sid events : forall p,
  Forall event_ok events -> page_inv p -> page_inv (run sid events p).
Proof.
  unfold run. induction events as [|e events IH]; intros p Hok Hinv; [exact Hinv|].
  apply Forall_cons in Hok. destruct Hok as [He Hok].
  cbn [fold_left]. apply IH; [exact Hok|]. apply step_inv; assumption.
Qed.

(** The two voice events together are [handleVoiceMessage]. *)
Lemma voice_events_agree sid key t1 t2 t3 response (p : Page) :
  page_voiceLoading p = false -> key <> "" ->
  page_messages (run sid [VoiceRecorded t1; VoiceSucceeded t2 t3 response] p)
  = messages (handleVoiceMessage (Some sid) (Some key) t1 t2 t3 (Uploaded response)
                (mkVoiceState (page_messages p) false None)).
Proof.
  intros Hv Hk. unfold run. cbn [fold_left step]. rewrite Hv. cbn [page_voiceLoading].
  unfold handleVoiceMessage.
  replace (Auth.truthy (Some key)) with true
    by (symmetry; cbn; destruct (String.eqb_spec key ""); [contradiction|reflexivity]).
  reflexivity.
Qed.

(** X26.  Optimistic messages never pile up.  Starting from a page
    without a send in flight and without [temp-] messages, after any
    sequence of sends, voice messages and their outcomes the list holds
    exactly one [temp-] message while a send is in flight and none
    otherwise, the ids assigned by the backend not starting with
    [temp-]; a send pressed while another is in flight, or while a
    voice message is processed, changes nothing. *)
Theorem optimistic_messages_never_pile_up (sid : string) (events : list ui_event)
    (p0 : Page) :
  pending p0 = None -> no_temp (page_messages p0) ->
  Forall event_ok events ->
  let p := run sid events p0 in
  (is_Some (pending p) -> temps (page_messages p) = 1%nat) /\
  (pending p = None -> no_temp (page_messages p)) /\
  (forall content t, is_Some (pending p) \/ page_voiceLoading p = true ->
                     step sid p (PressSend content t) = p).
Proof.
  intros Hp0 Hn0 Hok p.
  assert (Hinv : page_inv p).
  { apply run_inv; [exact Hok|]. unfold page_inv. rewrite Hp0. apply temps_no_temp. exact Hn0. }
  unfold page_inv in Hinv. split; [|split].
  - intros [c Hc]. rewrite Hc in Hinv. exact Hinv.
  - intros Hc. rewrite Hc in Hinv. apply temps_no_temp. exact Hinv.
  - intros content t [Hc|Hv]; cbn [step].
    + rewrite bool_decide_eq_true_2 by exact Hc. reflexivity.
    + rewrite Hv, orb_true_r. reflexivity.
Qed.

Lemma optimistic_messages_never_pile_up_witness :
  let p := run "s1" [PressSend "hello" 1; PressSend "again" 2; VoiceRecorded 3]
               (mkPage [] None false) in
  (is_Some (pending p) -> temps (page_messages p) = 1%nat) /\
  (pending p = None -> no_temp (page_messages p)) /\
  (forall content t, is_Some (pending p) \/ page_voiceLoading p = true ->
                     step "s1" p (PressSend content t) = p).
Proof.
  apply (optimistic_messages_never_pile_up "s1"
           [PressSend "hello" 1; PressSend "again" 2; VoiceRecorded 3] (mkPage [] None false)).
  - reflexivity.
  - constructor.
  - repeat constructor.
Defined.

(** X27.  The idempotency key of a dashboard send identifies the
    millisecond of the send and nothing else: two sends carry the same
    [Idempotency-Key] header exactly when they read the same clock
    value, whatever their sessions and contents. *)
Theorem dashboard_key_identifies_millisecond (sid1 content1 sid2 content2 : string)
    (t1 t2 : N) (p1 p2 : post) :
  mutationFn (Some sid1) content1 t1 = inr p1 ->
  mutationFn (Some sid2) content2 t2 = inr p2 ->
  (idempotency_header p1 = idempotency_header p2 <-> t1 = t2).
Proof.
  intros [= <-] [= <-].
  rewrite !sendMessage_header by apply stamp_msg_nonempty.
  unfold stamp. split.
  - intros [= H]. change (pretty t1 = pretty t2) in H. apply (inj pretty) in H. exact H.
  - intros ->. reflexivity.
Qed.

Lemma dashboard_key_identifies_millisecond_witness :
  idempotency_header (sendMessage "s1" "hello" (Some (stamp "msg-" 1700000000000)))
  = idempotency_header (sendMessage "s2" "bye" (Some (stamp "msg-" 1700000000001)))
  <-> 1700000000000%N = 1700000000001%N.
Proof.
  apply (dashboard_key_identifies_millisecond "s1" "hello" "s2" "bye"
           1700000000000 1700000000001); reflexivity.
Defined.

End ChatPageFacts.

(** ** Authentication and tenant scoping *)

Module TenancyFacts.
Import Tenancy.

Lemma NoDup_map_inj {A B} (f : A -> B) (l : list A) x y :
  NoDup (map f l) -> x ∈ l -> y ∈ l -> f x = f y -> x = y.
Proof.
  induction l as [|a l IH]; intros Hnd Hx Hy Hf; [inversion Hx|].
  cbn [map] in Hnd. apply NoDup_cons in Hnd. destruct Hnd as [Hna Hnd].
  apply elem_of_cons in Hx. apply elem_of_cons in Hy.
  destruct Hx as [->|Hx], Hy as [->|Hy].
  - reflexivity.
  - exfalso. apply Hna. rewrite Hf. apply list_elem_of_In, in_map, list_elem_of_In. exact Hy.
  - exfalso. apply Hna. rewrite <- Hf. apply list_elem_of_In, in_map, list_elem_of_In. exact Hx.
  - apply IH; assumption.
Qed.

Lemma find_key_some key tenants t :
  List.find (fun t => String.eqb (api_key t) key) tenants = Some t ->
  t ∈ tenants /\ api_key t = key.
Proof.
  intros H. apply find_some in H. destruct H as [Hin He].
  split; [apply list_elem_of_In; exact Hin|apply String.eqb_eq; exact He].
Qed.

Lemma find_key_none key tenants :
  List.find (fun t => String.eqb (api_key t) key) tenants = None <->
  forall t, t ∈ tenants -> api_key t <> key.
Proof.
  split.
  - intros H t Hin He. apply list_elem_of_In in Hin.
    pose proof (find_none _ _ H t Hin) as Hf.
    cbn in Hf. rewrite He, String.eqb_refl in Hf. discriminate.
  - intros H. destruct (List.find _ tenants) as [t|] eqn:Hf; [|reflexivity].
    apply find_key_some in Hf. destruct Hf as [Hin He]. exfalso. exact (H t Hin He).
Qed.

(** X12.  Authentication by API key: under the constraints of the
    schema, [get_current_tenant] returns a tenant exactly when that
    tenant is in the table under the presented key, and raises
    [UnauthorizedException] exactly when no tenant has the key. *)
Theorem get_current_tenant_sound (key : string) (tenants : list Tenant) :
  tenants_ok tenants ->
  (forall t, get_current_tenant key tenants = inr t <-> t ∈ tenants /\ api_key t = key) /\
  (get_current_tenant key tenants = inl (Unauthorized "Invalid API key")
   <-> forall t, t ∈ tenants -> api_key t <> key) /\
  (forall e, get_current_tenant key tenants = inl e -> e = Unauthorized "Invalid API key").
Proof.
  intros [_ Hkeys]. unfold get_current_tenant.
  destruct (List.find _ tenants) as [t0|] eqn:Hf.
  - pose proof (find_key_some _ _ _ Hf) as [Hin0 He0].
    split; [|split].
    + intros t. split.
      * intros [= <-]. split; assumption.
      * intros [Hin He]. f_equal.
        apply (NoDup_map_inj api_key tenants); [assumption..|congruence].
    + split; [discriminate|]. intros H. exfalso. exact (H t0 Hin0 He0).
    + discriminate.
  - split; [|split].
    + intros t. split; [discriminate|]. intros [Hin He].
      exfalso. exact (proj1 (find_key_none _ _) Hf t Hin He).
    + split; [intros _; apply find_key_none; exact Hf|reflexivity].
    + intros e [= <-]. reflexivity.
Qed.

Definition techcorp : Tenant := mkTenant "t-1" "TechCorp" "sk_tc".
Definition healthfirst : Tenant := mkTenant "t-2" "HealthFirst" "sk_hf".

Lemma demo_tenants_ok : tenants_ok [techcorp; healthfirst].
Proof.
  split; cbn; repeat constructor; rewrite ?elem_of_cons, ?elem_of_nil;
    intros H; repeat destruct H as [H|H]; try discriminate H; exact H.
Defined.

Lemma get_current_tenant_sound_witness :
  (forall t, get_current_tenant "sk_hf" [techcorp; healthfirst] = inr t
             <-> t ∈ [techcorp; healthfirst] /\ api_key t = "sk_hf") /\
  (get_current_tenant "sk_hf" [techcorp; healthfirst] = inl (Unauthorized "Invalid API key")
   <-> forall t, t ∈ [techcorp; healthfirst] -> api_key t <> "sk_hf") /\
  (forall e, get_current_tenant "sk_hf" [techcorp; healthfirst] = inl e ->
             e = Unauthorized "Invalid API key").
Proof.
  apply (get_current_tenant_sound "sk_hf" [techcorp; healthfirst]).
  exact demo_tenants_ok.
Defined.

(** X13.  Tenant isolation of the agent listing: a request
    authenticated by a key gets exactly the agents whose [tenant_id] is
    the id of the tenant owning that key; an agent of any other tenant
    of the table, or of no tenant, is never in the answer. *)
Theorem get_agents_scoped_to_tenant (key : string) (tenants : list Tenant)
    (agents listed : list Agent) :
  tenants_ok tenants ->
  get_agents key tenants agents = inr listed ->
  exists t, t ∈ tenants /\ api_key t = key /\
    (forall a, a ∈ listed <-> a ∈ agents /\ agent_tenant_id a = Some (tenant_id t)) /\
    (forall t' a, t' ∈ tenants -> t' <> t ->
                  agent_tenant_id a = Some (tenant_id t') -> a ∉ listed) /\
    (forall a, agent_tenant_id a = None -> a ∉ listed).
Proof.
  intros [Hids Hkeys] H. unfold get_agents, get_current_tenant in H.
  destruct (List.find _ tenants) as [t|] eqn:Hf; [|discriminate].
  injection H as <-. apply find_key_some in Hf. destruct Hf as [Hin He].
  exists t. split; [exact Hin|]. split; [exact He|].
  assert (Hl : forall a, a ∈ list_agents t agents
                         <-> a ∈ agents /\ agent_tenant_id a = Some (tenant_id t)).
  { intros a. unfold list_agents. rewrite list_elem_of_In, filter_In, <- list_elem_of_In.
    destruct (agent_tenant_id a) as [x|].
    - rewrite String.eqb_eq. split; intros [? ?]; split; congruence.
    - split; intros [? ?]; discriminate. }
  split; [exact Hl|]. split.
  - intros t' a Hin' Hne Ha Hla. apply Hl in Hla. destruct Hla as [_ Hla].
    rewrite Ha in Hla. injection Hla as Hid. apply Hne.
    apply (NoDup_map_inj tenant_id tenants); assumption.
  - intros a Ha Hla. apply Hl in Hla. destruct Hla as [_ Hla]. congruence.
Qed.

Definition demo_agents : list Agent :=
  [mkAgent "a-1" (Some "t-1") "Support Bot"; mkAgent "a-2" (Some "t-2") "Billing Bot";
   mkAgent "a-3" None "Orphan"].

Lemma get_agents_scoped_to_tenant_witness :
  exists t, t ∈ [techcorp; healthfirst] /\ api_key t = "sk_tc" /\
    (forall a, a ∈ [mkAgent "a-1" (Some "t-1") "Support Bot"]
               <-> a ∈ demo_agents /\ agent_tenant_id a = Some (tenant_id t)) /\
    (forall t' a, t' ∈ [techcorp; healthfirst] -> t' <> t ->
                  agent_tenant_id a = Some (tenant_id t') ->
                  a ∉ [mkAgent "a-1" (Some "t-1") "Support Bot"]) /\
    (forall a, agent_tenant_id a = None -> a ∉ [mkAgent "a-1" (Some "t-1") "Support Bot"]).
Proof.
  apply (get_agents_scoped_to_tenant "sk_tc" [techcorp; healthfirst] demo_agents).
  - exact demo_tenants_ok.
  - reflexivity.
Defined.

End TenancyFacts.

(** ** The tool framework *)

Module ToolsFacts.
Import Tools.

Lemma dict_truthy_some (m : dict) : dict_truthy (Some m) = true <-> m <> ∅.
Proof.
  cbn. destruct (decide (m = ∅)) as [->|Hne].
  - rewrite bool_decide_eq_true_2 by reflexivity. cbn. split; [discriminate|congruence].
  - rewrite bool_decide_eq_false_2 by exact Hne. cbn. split; [intros _; exact Hne|reflexivity].
Qed.

Lemma invoices_get_cases (table : gmap string dict) (v : pyval) :
  (exists id, v = PStr id /\ invoices_get table v = inr (table !! id)) \/
  (exists type_name, unhashable v = Some type_name /\
                     invoices_get table v = inl (TypeError (unhashable_message type_name))) \/
  ((forall id, v <> PStr id) /\ unhashable v = None /\ invoices_get table v = inr None).
Proof.
  destruct v; cbn;
    first [ left; eexists; split; reflexivity
          | right; left; eexists; split; reflexivity
          | right; right; split; [discriminate|split; reflexivity] ].
Qed.

(** X14.  The invoice lookup of the first revision: it answers with an
    invoice exactly when the [invoice_id] parameter is a string that
    is a key of the table (the stored invoice not being the empty
    dict), and that invoice is the stored one; it raises in two cases
    only, [KeyError] of [invoice_id] when the parameter is missing and
    [TypeError] when its value is a list or a dict, which cannot be
    hashed; every other answer is "Not found"; and the context, tenant
    included, has no influence on its answer. *)
Theorem invoice_lookup_answers_stored_invoice (table : gmap string dict)
    (params context : dict) :
  (forall invoice,
     execute table params context = inr (Success invoice) <->
     exists id, params !! "invoice_id" = Some (PStr id) /\
                table !! id = Some invoice /\ invoice <> ∅) /\
  (forall e, execute table params context = inl e <->
             (params !! "invoice_id" = None /\ e = KeyError "invoice_id") \/
             (exists v type_name,
                params !! "invoice_id" = Some v /\ unhashable v = Some type_name /\
                e = TypeError (unhashable_message type_name))) /\
  (forall error, execute table params context = inr (Failure error) -> error = "Not found") /\
  (forall context', execute table params context' = execute table params context).
Proof.
  unfold execute.
  destruct (params !! "invoice_id") as [v|] eqn:Hp.
  - destruct (invoices_get_cases table v)
      as [(id & -> & Hg)|[(ty & Hu & Hg)|(Hns & Hu & Hg)]]; rewrite Hg.
    + split; [|split; [|split]].
      * intros invoice. destruct (table !! id) as [inv|] eqn:Ht.
        -- destruct (dict_truthy (Some inv)) eqn:Hd.
           ++ apply dict_truthy_some in Hd. split.
              ** intros [= <-]. exists id. auto.
              ** intros (id' & [= <-] & Hi & _). congruence.
           ++ split; [discriminate|]. intros (id' & [= <-] & Hi & Hne).
              assert (inv = invoice) as -> by congruence.
              apply dict_truthy_some in Hne. congruence.
        -- split; [discriminate|]. intros (id' & [= <-] & Hi & _). congruence.
      * intros e. split.
        -- destruct (table !! id) as [inv|]; [destruct (dict_truthy _)|]; discriminate.
        -- intros [[[=] _]|(v & ty & [= <-] & Hu & _)]. discriminate Hu.
      * intros error.
        destruct (table !! id) as [inv|]; [destruct (dict_truthy _)|];
          intros [=]; congruence.
      * reflexivity.
    + split; [|split; [|split]].
      * intros invoice. split; [discriminate|].
        intros (id & [= ->] & _). discriminate Hu.
      * intros e. split.
        -- intros [= <-]. right. exists v, ty. auto.
        -- intros [[[=] _]|(v' & ty' & [= <-] & Hu' & ->)]. congruence.
      * discriminate.
      * reflexivity.
    + split; [|split; [|split]].
      * intros invoice. split; [discriminate|].
        intros (id & [= ->] & _). exfalso. exact (Hns id eq_refl).
      * intros e. split; [discriminate|].
        intros [[[=] _]|(v' & ty' & [= <-] & Hu' & _)]. congruence.
      * intros error [=]. congruence.
      * reflexivity.
  - split; [|split; [|split]].
    + intros invoice. split; [discriminate|]. intros (id & [=] & _).
    + intros e. split.
      * intros [= <-]. left. auto.
      * intros [[_ ->]|(v & ty & [=] & _)]. reflexivity.
    + discriminate.
    + reflexivity.
Qed.

Definition inv_001 : dict :=
  {[ "id" := PStr "INV-001"; "amount" := PNum 1500;
     "status" := PStr "paid"; "due_date" := PStr "2025-01-15" ]}.

(** A lookup with the id of the table, and one with a list for an id. *)
Lemma invoice_lookup_answers_stored_invoice_witness :
  (exists id, ({[ "invoice_id" := PStr "INV-001" ]} : dict) !! "invoice_id" = Some (PStr id) /\
              INVOICES !! id = Some inv_001 /\ inv_001 <> ∅) /\
  execute INVOICES {[ "invoice_id" := PList [PStr "INV-001"] ]} ∅
  = inl (TypeError "unhashable type: 'list'").
Proof.
  split.
  - apply (proj1 (proj1 (invoice_lookup_answers_stored_invoice
                           INVOICES {[ "invoice_id" := PStr "INV-001" ]} ∅) inv_001)).
    reflexivity.
  - apply (proj2 (proj1 (proj2 (invoice_lookup_answers_stored_invoice
                                  INVOICES {[ "invoice_id" := PList [PStr "INV-001"] ]} ∅))
                    (TypeError "unhashable type: 'list'"))).
    right. exists (PList [PStr "INV-001"]), "list". repeat split.
Defined.

Section Audit.
Variable TOOLS : gmap string Tool.
Variables (tenant_id : string) (context : dict).

(** The row [execute_tool] leaves for an outcome of the tool. *)
Definition audit_row (tool_name : string) (params : dict)
    (out : py_exn + tool_result) : ToolExecution :=
  match out with
  | inr res => mkExecution tenant_id tool_name params "success" (Some res) None
  | inl e =>
      if is_Exception e
      then mkExecution tenant_id tool_name params "error" None (Some (str e))
      else mkExecution tenant_id tool_name params "pending" None None
  end.

(** Whether the outcome of the tool gets past [except Exception]. *)
Definition escapes (out : py_exn + tool_result) : bool :=
  match out with
  | inl e => negb (is_Exception e)
  | inr _ => false
  end.

Lemma db_update_last_snoc f (db : Session) x :
  db_update_last f (db_add_flush x db) = mkSession (committed db) (flushed db ++ [f x]).
Proof.
  unfold db_update_last, db_add_flush. cbn [flushed committed].
  rewrite rev_app_distr. cbn [rev app]. rewrite rev_involutive. reflexivity.
Qed.

Lemma execute_tool_known tool_name tool params db :
  TOOLS !! tool_name = Some tool ->
  let out := tool_execute tool params context in
  execute_tool TOOLS tenant_id context tool_name params db
  = (out,
     if escapes out
     then mkSession (committed db) (flushed db ++ [audit_row tool_name params out])
     else mkSession (committed db ++ flushed db ++ [audit_row tool_name params out]) []).
Proof.
  intros Ht out. unfold execute_tool, out. rewrite Ht.
  destruct (tool_execute tool params context) as [e|res]; cbn [audit_row escapes].
  - destruct (is_Exception e); cbn [negb].
    + rewrite db_update_last_snoc. reflexivity.
    + reflexivity.
  - rewrite db_update_last_snoc. reflexivity.
Qed.

(** X15.  The audit of tool executions.  A call for a registered tool
    returns or raises what the tool does and leaves one new row after
    everything that was there.  When the tool returned, or raised an
    [Exception], the row is committed with the rest of the transaction:
    status [success] with the result, or status [error] with the text
    of the exception.  When the tool is left by an exception that is
    no [Exception], as when the coroutine is cancelled while the tool
    runs, [except Exception] does not catch it: nothing is committed,
    and the row stays [pending] in the open transaction.  A call for a name that is not registered raises
    [KeyError] and writes no row. *)
Theorem execute_tool_audits_every_call (tool_name : string) (params : dict) (db : Session) :
  let '(out, db') := execute_tool TOOLS tenant_id context tool_name params db in
  match TOOLS !! tool_name with
  | Some tool =>
      out = tool_execute tool params context /\
      exists row,
        exec_tenant_id row = tenant_id /\ Tools.tool_name row = tool_name /\
        parameters row = params /\
        match out with
        | inr res =>
            db' = mkSession (committed db ++ flushed db ++ [row]) [] /\
            status row = "success" /\ result row = Some res /\ error_message row = None
        | inl e =>
            if is_Exception e
            then db' = mkSession (committed db ++ flushed db ++ [row]) [] /\
                 status row = "error" /\ result row = None /\
                 error_message row = Some (str e)
            else db' = mkSession (committed db) (flushed db ++ [row]) /\
                 status row = "pending" /\ result row = None /\
                 error_message row = None
        end
  | None => out = inl (KeyError tool_name) /\ db' = db
  end.
Proof.
  destruct (TOOLS !! tool_name) as [tool|] eqn:Ht.
  - rewrite (execute_tool_known _ tool) by exact Ht.
    split; [reflexivity|].
    exists (audit_row tool_name params (tool_execute tool params context)).
    destruct (tool_execute tool params context) as [e|res]; cbn [audit_row escapes].
    + destruct (is_Exception e); cbn; repeat split.
    + cbn. repeat split.
  - unfold execute_tool. rewrite Ht. split; reflexivity.
Qed.

End Audit.

(** A tool whose coroutine is cancelled while it runs. *)
Definition cancelled_tool : Tool :=
  mkTool "slow_lookup" "A lookup that is cancelled" (fun _ _ => inl CancelledError).

Lemma cancelled_tool_leaves_pending_row :
  execute_tool {[ "slow_lookup" := cancelled_tool ]} "t-1" ∅ "slow_lookup" ∅ (mkSession [] [])
  = (inl CancelledError,
     mkSession [] [mkExecution "t-1" "slow_lookup" ∅ "pending" None None]).
Proof. reflexivity. Qed.

(** X16.  Looking up an invoice that is not in the table through
    [execute_tool] is recorded as a successful execution: the tool
    returns its "Not found" answer instead of raising, so the audit row
    has status [success] and holds that answer. *)
Theorem unknown_invoice_is_audited_as_success (TOOLS : gmap string Tool)
    (table : gmap string dict) (tool : Tool) (tenant_id id : string)
    (context params : dict) (db : Session) :
  TOOLS !! "invoice_lookup" = Some tool ->
  tool_execute tool = execute table ->
  params !! "invoice_id" = Some (PStr id) ->
  table !! id = None ->
  execute_tool TOOLS tenant_id context "invoice_lookup" params db
  = (inr (Failure "Not found"),
     mkSession (committed db ++ flushed db ++
                [mkExecution tenant_id "invoice_lookup" params "success"
                             (Some (Failure "Not found")) None]) []).
Proof.
  intros Ht He Hp Hi.
  rewrite (execute_tool_known _ _ _ _ tool) by exact Ht.
  rewrite He. unfold execute. rewrite Hp. cbn [invoices_get unhashable]. rewrite Hi.
  reflexivity.
Qed.

Definition TOOLS : gmap string Tool := {[ "invoice_lookup" := InvoiceLookupTool ]}.

Lemma unknown_invoice_is_audited_as_success_witness :
  execute_tool TOOLS "t-1" ∅ "invoice_lookup" {[ "invoice_id" := PStr "INV-999" ]}
               (mkSession [] [])
  = (inr (Failure "Not found"),
     mkSession ([] ++ [] ++
                [mkExecution "t-1" "invoice_lookup" {[ "invoice_id" := PStr "INV-999" ]}
                             "success" (Some (Failure "Not found")) None]) []).
Proof.
  apply (unknown_invoice_is_audited_as_success TOOLS INVOICES InvoiceLookupTool
           "t-1" "INV-999" ∅ {[ "invoice_id" := PStr "INV-999" ]} (mkSession [] [])).
  - reflexivity.
  - reflexivity.
  - reflexivity.
  - reflexivity.
Defined.

(** X17.  The invoice lookup of the second revision returns an invoice
    only when the invoice's own [tenant_id] equals the tenant of the
    context.  The table that revision prints holds invoices without a
    [tenant_id] entry: with it the tool never returns an invoice, and a
    lookup of either of its two invoices raises [KeyError] of
    [tenant_id]. *)
Theorem invoice_lookup_rev2_checks_tenant :
  (forall (table : gmap string dict) params context invoice,
     execute_rev2 table params context = inr (Success invoice) ->
     exists id tenant owner,
       params !! "invoice_id" = Some (PStr id) /\ table !! id = Some invoice /\
       context !! "tenant_id" = Some tenant /\ invoice !! "tenant_id" = Some owner /\
       py_eq owner tenant = true) /\
  (forall params context invoice,
     execute_rev2 INVOICES_rev2 params context <> inr (Success invoice)) /\
  (forall params context id tenant,
     params !! "invoice_id" = Some (PStr id) ->
     context !! "tenant_id" = Some tenant ->
     id = "INV-TC-001" \/ id = "INV-HF-001" ->
     execute_rev2 INVOICES_rev2 params context = inl (KeyError "tenant_id")).
Proof.
  assert (Hgen : forall (table : gmap string dict) params context invoice,
     execute_rev2 table params context = inr (Success invoice) ->
     exists id tenant owner,
       params !! "invoice_id" = Some (PStr id) /\ table !! id = Some invoice /\
       context !! "tenant_id" = Some tenant /\ invoice !! "tenant_id" = Some owner /\
       py_eq owner tenant = true).
  { intros table params context invoice. unfold execute_rev2.
    destruct (params !! "invoice_id") as [v|] eqn:Hp; [|discriminate].
    destruct (context !! "tenant_id") as [tenant|] eqn:Hc; [|discriminate].
    destruct (invoices_get_cases table v)
      as [(id & -> & Hg)|[(ty & Hu & Hg)|(Hns & Hu & Hg)]]; rewrite Hg; try discriminate.
    destruct (table !! id) as [inv|] eqn:Ht; [|discriminate].
    destruct (dict_truthy (Some inv)); [|discriminate].
    destruct (inv !! "tenant_id") as [owner|] eqn:Ho; [|discriminate].
    destruct (py_eq owner tenant) eqn:He; [|discriminate].
    intros [= <-]. exists id, tenant, owner. repeat split; assumption. }
  split; [exact Hgen|]. split.
  - intros params context invoice H.
    destruct (Hgen _ _ _ _ H) as (id & tenant & owner & _ & Ht & _ & Ho & _).
    unfold INVOICES_rev2 in Ht.
    destruct (decide (id = "INV-TC-001")) as [->|H1].
    + rewrite lookup_insert_eq in Ht. injection Ht as <-. discriminate Ho.
    + rewrite lookup_insert_ne in Ht by congruence.
      destruct (decide (id = "INV-HF-001")) as [->|H2].
      * rewrite lookup_singleton_eq in Ht. injection Ht as <-. discriminate Ho.
      * rewrite lookup_singleton_ne in Ht by congruence. discriminate.
  - intros params context id tenant Hp Hc Hid. unfold execute_rev2.
    rewrite Hp, Hc. cbn [invoices_get unhashable]. destruct Hid as [-> | ->]; reflexivity.
Qed.

Definition owned_invoices : gmap string dict :=
  {[ "INV-TC-001" := {[ "amount" := PNum 15000; "status" := PStr "paid";
                        "tenant_id" := PStr "t-1" ]} ]}.

Lemma invoice_lookup_rev2_checks_tenant_witness :
  (exists id tenant owner,
     ({[ "invoice_id" := PStr "INV-TC-001" ]} : dict) !! "invoice_id" = Some (PStr id) /\
     owned_invoices !! id
     = Some {[ "amount" := PNum 15000; "status" := PStr "paid"; "tenant_id" := PStr "t-1" ]} /\
     ({[ "tenant_id" := PStr "t-1" ]} : dict) !! "tenant_id" = Some tenant /\
     ({[ "amount" := PNum 15000; "status" := PStr "paid"; "tenant_id" := PStr "t-1" ]} : dict)
       !! "tenant_id" = Some owner /\
     py_eq owner tenant = true) /\
  execute_rev2 INVOICES_rev2 {[ "invoice_id" := PStr "INV-TC-001" ]}
               {[ "tenant_id" := PStr "t-1" ]}
  = inl (KeyError "tenant_id").
Proof.
  split.
  - apply (proj1 invoice_lookup_rev2_checks_tenant owned_invoices
             {[ "invoice_id" := PStr "INV-TC-001" ]} {[ "tenant_id" := PStr "t-1" ]}).
    reflexivity.
  - apply (proj2 (proj2 invoice_lookup_rev2_checks_tenant)
             {[ "invoice_id" := PStr "INV-TC-001" ]} {[ "tenant_id" := PStr "t-1" ]}
             "INV-TC-001" (PStr "t-1")).
    + reflexivity.
    + reflexivity.
    + left. reflexivity.
Defined.

End ToolsFacts.

(** ** The analytics queries *)

Module AnalyticsFacts.
Import Analytics.

Section Grouping.
Context {A K : Type} `{EqDecision K}.
Variable key : A -> K.

Lemma SUM_cons {B} (f : B -> Z) b l : SUM f (b :: l) = f b + SUM f l.
Proof. reflexivity. Qed.

Lemma SUM_app (f : A -> Z) l1 l2 : SUM f (l1 ++ l2) = SUM f l1 + SUM f l2.
Proof.
  unfold SUM. induction l1 as [|a l1 IH]; cbn [app fold_right]; [reflexivity|].
  rewrite IH. ring.
Qed.

(** The rows of one key. *)
Definition of_key (k : K) (rows : list A) : list A :=
  List.filter (fun r => bool_decide (key r = k)) rows.

(** A sum taken group by group over keys [ks]. *)
Definition by_groups (f : A -> Z) (ks : list K) (rows : list A) : Z :=
  SUM (fun k => SUM f (of_key k rows)) ks.

Lemma by_groups_cons (f : A -> Z) r rows (ks : list K) :
  NoDup ks ->
  by_groups f ks (r :: rows)
  = (if bool_decide (key r ∈ ks) then f r else 0) + by_groups f ks rows.
Proof.
  unfold by_groups, of_key. induction 1 as [|k ks Hk Hnd IH].
  - cbn. rewrite bool_decide_eq_false_2 by (apply not_elem_of_nil). reflexivity.
  - rewrite !SUM_cons, IH. cbn [List.filter].
    destruct (decide (key r = k)) as [Heq|Hne].
    + rewrite (bool_decide_eq_true_2 (key r = k)) by exact Heq.
      rewrite (bool_decide_eq_true_2 (key r ∈ k :: ks)) by (rewrite Heq; left).
      rewrite (bool_decide_eq_false_2 (key r ∈ ks)) by (rewrite Heq; exact Hk).
      rewrite SUM_cons. ring.
    + rewrite (bool_decide_eq_false_2 (key r = k)) by exact Hne.
      destruct (decide (key r ∈ ks)) as [Hin|Hnin].
      * rewrite (bool_decide_eq_true_2 (key r ∈ ks)) by exact Hin.
        rewrite (bool_decide_eq_true_2 (key r ∈ k :: ks)) by (right; exact Hin).
        ring.
      * rewrite (bool_decide_eq_false_2 (key r ∈ ks)) by exact Hnin.
        rewrite (bool_decide_eq_false_2 (key r ∈ k :: ks)).
        -- ring.
        -- intros Hc. apply elem_of_cons in Hc. destruct Hc; contradiction.
Qed.

(** Grouping loses and duplicates nothing: the group sums add up to
    the sum over all rows. *)
Lemma by_groups_total (f : A -> Z) (ks : list K) (rows : list A) :
  NoDup ks -> (forall r, r ∈ rows -> key r ∈ ks) ->
  by_groups f ks rows = SUM f rows.
Proof.
  intros Hnd. induction rows as [|r rows IH]; intros Hall.
  - unfold by_groups, of_key. cbn [List.filter].
    clear Hnd Hall. induction ks as [|k ks IHk]; [reflexivity|].
    rewrite SUM_cons, IHk. reflexivity.
  - rewrite by_groups_cons by exact Hnd.
    rewrite bool_decide_eq_true_2 by (apply Hall; left).
    rewrite IH by (intros r' Hr'; apply Hall; right; exact Hr').
    reflexivity.
Qed.

Lemma GROUP_BY_keys (rows : list A) :
  map fst (GROUP_BY key rows) = remove_dups (map key rows).
Proof.
  unfold GROUP_BY. rewrite map_map. cbn [fst]. apply map_id.
Qed.

Lemma GROUP_BY_sum (f : A -> Z) (rows : list A) :
  SUM (fun g => SUM f (snd g)) (GROUP_BY key rows) = SUM f rows.
Proof.
  rewrite <- (by_groups_total f (remove_dups (map key rows)) rows).
  - unfold by_groups, GROUP_BY, SUM, of_key.
    induction (remove_dups (map key rows)) as [|k ks IH]; [reflexivity|].
    cbn [map fold_right snd]. rewrite IH. reflexivity.
  - apply NoDup_remove_dups.
  - intros r Hr. apply elem_of_remove_dups, list_elem_of_In, in_map, list_elem_of_In. exact Hr.
Qed.

Lemma GROUP_BY_elem (k : K) (g : list A) (rows : list A) :
  (k, g) ∈ GROUP_BY key rows <->
  (exists r, r ∈ rows /\ key r = k) /\ g = of_key k rows.
Proof.
  unfold GROUP_BY. rewrite list_elem_of_In, in_map_iff. split.
  - intros (k' & [= <- <-] & Hin).
    apply list_elem_of_In, elem_of_remove_dups, list_elem_of_In, in_map_iff in Hin.
    destruct Hin as (r & Hr & Hin). split; [|reflexivity].
    exists r. split; [apply list_elem_of_In; exact Hin|exact Hr].
  - intros [(r & Hin & Hr) ->]. exists k. split; [reflexivity|].
    apply list_elem_of_In, elem_of_remove_dups, list_elem_of_In, in_map_iff.
    exists r. split; [exact Hr|apply list_elem_of_In; exact Hin].
Qed.

Lemma of_key_nonempty (k : K) rows r : r ∈ rows -> key r = k -> of_key k rows <> [].
Proof.
  intros Hin Hr Hnil.
  assert (Hm : In r (of_key k rows)).
  { apply filter_In. split; [apply list_elem_of_In; exact Hin|].
    apply bool_decide_eq_true_2. exact Hr. }
  rewrite Hnil in Hm. exact Hm.
Qed.

End Grouping.

Definition ones {A} (l : list A) : Z := SUM (fun _ => 1) l.

Lemma ones_length {A} (l : list A) : ones l = Z.of_nat (length l).
Proof.
  unfold ones, SUM. induction l as [|a l IH]; [reflexivity|].
  cbn [fold_right length]. rewrite IH. lia.
Qed.

Lemma SUM_map {A B} (f : B -> Z) (g : A -> B) l : SUM f (map g l) = SUM (fun a => f (g a)) l.
Proof.
  unfold SUM. induction l as [|a l IH]; [reflexivity|]. cbn. rewrite IH. reflexivity.
Qed.

Lemma SUM_ext {A} (f g : A -> Z) l : (forall a, f a = g a) -> SUM f l = SUM g l.
Proof.
  intros H. unfold SUM. induction l as [|a l IH]; [reflexivity|]. cbn. rewrite IH, H. reflexivity.
Qed.

(** X18.  The provider breakdown accounts for every selected event
    once: its costs add up to the cost of the tenant's events inside
    the window, its counts to their number, no provider is listed
    twice and none with a count of zero; events of other tenants,
    events without a tenant or a date, and events outside the window
    change nothing. *)
Theorem provider_breakdown_conserves_cost (tenant : string) (from to_ : Z)
    (usage_events others : list UsageEvent) :
  let result := cost_breakdown_by_provider tenant from to_ usage_events in
  let selected := List.filter (in_window tenant from to_) usage_events in
  SUM pc_total_cost result = SUM cost_usd selected /\
  SUM (fun row => Z.of_nat (message_count row)) result = Z.of_nat (length selected) /\
  NoDup (map pc_provider result) /\
  (forall row, row ∈ result -> (1 <= message_count row)%nat) /\
  ((forall u, u ∈ others -> in_window tenant from to_ u = false) ->
   cost_breakdown_by_provider tenant from to_ (usage_events ++ others) = result).
Proof.
  intros result selected. unfold result, cost_breakdown_by_provider. fold selected.
  split; [|split; [|split; [|split]]].
  - rewrite SUM_map. cbn [pc_total_cost]. apply (GROUP_BY_sum provider cost_usd selected).
  - rewrite SUM_map. cbn [message_count]. rewrite <- ones_length. unfold ones.
    rewrite <- (GROUP_BY_sum provider (fun _ => 1) selected).
    apply SUM_ext. intros [p g]. cbn [fst snd]. rewrite <- ones_length. reflexivity.
  - rewrite map_map. cbn [pc_provider]. rewrite GROUP_BY_keys. apply NoDup_remove_dups.
  - intros row Hrow. apply list_elem_of_In, in_map_iff in Hrow.
    destruct Hrow as ([p g] & <- & Hin). cbn [fst snd message_count].
    apply list_elem_of_In, GROUP_BY_elem in Hin. destruct Hin as [(r & Hr & Hk) ->].
    pose proof (of_key_nonempty provider p selected r Hr Hk) as Hne.
    destruct (of_key provider p selected); [contradiction|cbn; lia].
  - intros Ho. rewrite List.filter_app.
    assert (Hnil : List.filter (in_window tenant from to_) others = []).
    { induction others as [|u l IH]; [reflexivity|]. cbn [List.filter].
      rewrite (Ho u) by left. apply IH. intros u' Hu'. apply Ho. right. exact Hu'. }
    rewrite Hnil, app_nil_r. reflexivity.
Qed.

Definition e1 : UsageEvent :=
  mkEvent (Some "t-1") (Some "a-1") (Some "s-1") "vendorA" 500 300 1600 (Some 10).
Definition e2 : UsageEvent :=
  mkEvent (Some "t-1") (Some "a-1") (Some "s-1") "vendorB" 100 100 600 (Some 20).
Definition e3 : UsageEvent :=
  mkEvent (Some "t-2") (Some "a-2") (Some "s-2") "vendorA" 1000 0 2000 (Some 15).
Definition e4 : UsageEvent :=
  mkEvent (Some "t-1") (Some "a-2") (Some "s-3") "vendorA" 100 150 500 None.

Lemma provider_breakdown_conserves_cost_witness :
  cost_breakdown_by_provider "t-1" 0 100 ([e1; e2] ++ [e3; e4])
  = [mkProviderCost "vendorA" 1 1600; mkProviderCost "vendorB" 1 600].
Proof.
  apply (proj2 (proj2 (proj2 (proj2
           (provider_breakdown_conserves_cost "t-1" 0 100 [e1; e2] [e3; e4]))))).
  intros u Hu.
  apply elem_of_cons in Hu. destruct Hu as [->|Hu]; [reflexivity|].
  apply elem_of_cons in Hu. destruct Hu as [->|Hu]; [reflexivity|].
  inversion Hu.
Defined.

Lemma SUM_bounds {A} (f : A -> Z) (bound : Z) (l : list A) :
  (forall a, In a l -> - bound <= f a <= bound) ->
  - bound * Z.of_nat (length l) <= SUM f l <= bound * Z.of_nat (length l).
Proof.
  induction l as [|a l IH]; intros Hl; [cbn; lia|].
  rewrite SUM_cons. cbn [length].
  pose proof (Hl a (or_introl eq_refl)) as Ha.
  specialize (IH (fun x Hx => Hl x (or_intror Hx))). lia.
Qed.

Lemma is_int4_bounds z : is_int4 z = true <-> -2147483648 <= z <= 2147483647.
Proof. unfold is_int4. rewrite andb_true_iff, !Z.leb_le. reflexivity. Qed.

(** X19.  The per-tenant totals of a [usage_events] table.  When the
    two token counts of some row add up to more than an [INTEGER]
    holds, the query fails with [integer out of range].  Otherwise it
    partitions the table: every tenant id that occurs (the missing one
    included) has exactly one row, holding the sums over the events of
    that id, the rows add up to the sums over the whole table, and
    every token total fits the [BIGINT] it is accumulated in. *)
Theorem tenant_totals_partition_usage (usage_events : list UsageEvent) :
  usage_events_ok usage_events ->
  let tokens := fun u => tokens_in u + tokens_out u in
  match total_cost_per_tenant usage_events with
  | inl e =>
      e = integer_out_of_range /\
      exists u, u ∈ usage_events /\ (tokens u < -2147483648 \/ 2147483647 < tokens u)
  | inr result =>
      (forall u, u ∈ usage_events -> -2147483648 <= tokens u <= 2147483647) /\
      NoDup (map tt_tenant_id result) /\
      (forall row,
         row ∈ result <->
         (exists u, u ∈ usage_events /\ tenant_id u = tt_tenant_id row) /\
         tt_total_cost row = SUM cost_usd (of_key tenant_id (tt_tenant_id row) usage_events) /\
         tt_total_tokens row = SUM tokens (of_key tenant_id (tt_tenant_id row) usage_events)) /\
      SUM tt_total_cost result = SUM cost_usd usage_events /\
      SUM tt_total_tokens result = SUM tokens usage_events /\
      Forall (fun row => is_int8 (tt_total_tokens row) = true) result
  end.
Proof.
  intros [Hlen Hcols] tokens. unfold total_cost_per_tenant.
  destruct (forallb (fun u => is_int4 (tokens_in u + tokens_out u)) usage_events) eqn:Hfit.
  - rewrite forallb_forall in Hfit.
    assert (Hrange : forall u, In u usage_events -> -2147483648 <= tokens u <= 2147483647).
    { intros u Hu. apply is_int4_bounds, Hfit, Hu. }
    split; [intros u Hu; apply Hrange, list_elem_of_In, Hu|].
    split; [|split; [|split; [|split]]].
    + rewrite map_map. cbn [tt_tenant_id]. rewrite GROUP_BY_keys. apply NoDup_remove_dups.
    + intros row. rewrite list_elem_of_In, in_map_iff. split.
      * intros ([t g] & <- & Hin). cbn [fst snd tt_tenant_id tt_total_cost tt_total_tokens].
        apply list_elem_of_In, GROUP_BY_elem in Hin. destruct Hin as [Hex ->].
        split; [exact Hex|]. split; reflexivity.
      * destruct row as [t c n]. cbn [tt_tenant_id tt_total_cost tt_total_tokens].
        intros (Hex & -> & ->). exists (t, of_key tenant_id t usage_events).
        split; [reflexivity|]. apply list_elem_of_In, GROUP_BY_elem.
        split; [exact Hex|reflexivity].
    + rewrite SUM_map. cbn [tt_total_cost]. apply (GROUP_BY_sum tenant_id cost_usd usage_events).
    + rewrite SUM_map. cbn [tt_total_tokens].
      apply (GROUP_BY_sum tenant_id tokens usage_events).
    + apply Forall_forall. intros row Hrow.
      apply list_elem_of_In, in_map_iff in Hrow. destruct Hrow as ([t g] & <- & Hin).
      cbn [fst snd tt_total_tokens].
      apply list_elem_of_In, GROUP_BY_elem in Hin. destruct Hin as [_ ->].
      pose proof (SUM_bounds tokens 2147483648 (of_key tenant_id t usage_events)) as Hb.
      assert (Hg : (length (of_key tenant_id t usage_events) <= length usage_events)%nat)
        by apply List.filter_length_le.
      unfold is_int8. rewrite andb_true_iff, !Z.leb_le.
      change (2 ^ 32) with 4294967296 in Hlen.
      assert (Hterms : forall a, In a (of_key tenant_id t usage_events) ->
                                 - 2147483648 <= tokens a <= 2147483648).
      { intros a Ha. apply filter_In in Ha. destruct Ha as [Ha _].
        specialize (Hrange a Ha). lia. }
      specialize (Hb Hterms). fold tokens. nia.
  - split; [reflexivity|].
    assert (Hex : exists u, In u usage_events /\ is_int4 (tokens u) = false).
    { clear Hlen Hcols. induction usage_events as [|u l IH]; [discriminate|].
      cbn [forallb] in Hfit. apply andb_false_iff in Hfit. destruct Hfit as [Hu|Hl].
      - exists u. split; [left; reflexivity|exact Hu].
      - destruct (IH Hl) as (u' & Hin & Hu'). exists u'. split; [right; exact Hin|exact Hu']. }
    destruct Hex as (u & Hin & Hu). exists u. split; [apply list_elem_of_In, Hin|].
    destruct (Z_lt_le_dec (tokens u) (-2147483648)) as [Hlo|Hlo]; [left; exact Hlo|].
    destruct (Z_lt_le_dec 2147483647 (tokens u)) as [Hhi|Hhi]; [right; exact Hhi|].
    exfalso. assert (is_int4 (tokens u) = true) by (apply is_int4_bounds; lia). congruence.
Qed.

(** Three events of two tenants, and a table whose one row holds token
    counts that add up to 2^31. *)
Lemma tenant_totals_partition_usage_witness :
  usage_events_ok [e1; e2; e3] /\
  total_cost_per_tenant [e1; e2; e3]
  = inr [mkTenantTotal (Some "t-1") 2200 1000; mkTenantTotal (Some "t-2") 2000 1000] /\
  SUM tt_total_tokens
      [mkTenantTotal (Some "t-1") 2200 1000; mkTenantTotal (Some "t-2") 2000 1000]
  = SUM (fun u => tokens_in u + tokens_out u) [e1; e2; e3].
Proof.
  assert (Hok : usage_events_ok [e1; e2; e3]).
  { split; [cbn; lia|]. constructor; [split; reflexivity|].
    constructor; [split; reflexivity|]. constructor; [split; reflexivity|]. constructor. }
  split; [exact Hok|].
  pose proof (tenant_totals_partition_usage [e1; e2; e3] Hok) as H. cbv zeta in H.
  assert (Hq : total_cost_per_tenant [e1; e2; e3]
               = inr [mkTenantTotal (Some "t-1") 2200 1000;
                      mkTenantTotal (Some "t-2") 2000 1000])
    by (vm_compute; reflexivity).
  split; [exact Hq|].
  rewrite Hq in H. apply H.
Defined.

(** One row whose token counts add up to 2^31 makes the query fail. *)
Lemma token_sum_overflow_fails :
  total_cost_per_tenant
    [mkEvent (Some "t-1") (Some "a-1") (Some "s-1") "vendorA" 2147483647 1 0 (Some 10)]
  = inl integer_out_of_range.
Proof. reflexivity. Qed.

(** *** Top agents *)

Lemma insert_desc_perm x l : insert_desc x l ≡ₚ x :: l.
Proof.
  induction l as [|y l IH]; cbn [insert_desc]; [reflexivity|].
  destruct (total_cost x <=? total_cost y); [|reflexivity].
  rewrite IH. apply Permutation_swap.
Qed.

Lemma ORDER_BY_perm l : ORDER_BY_total_cost_DESC l ≡ₚ l.
Proof.
  unfold ORDER_BY_total_cost_DESC. induction l as [|x l IH]; [reflexivity|].
  cbn [fold_right]. rewrite insert_desc_perm, IH. reflexivity.
Qed.

(** Non-increasing cost. *)
Fixpoint descending (l : list TopAgent) : Prop :=
  match l with
  | [] => True
  | x :: l' => (forall y, y ∈ l' -> total_cost y <= total_cost x) /\ descending l'
  end.

Lemma insert_desc_sorted x l : descending l -> descending (insert_desc x l).
Proof.
  induction l as [|y l IH]; cbn [insert_desc descending].
  - intros _. split; [intros y Hy; inversion Hy|exact I].
  - intros [Hy Hs].
    destruct (Z.leb_spec (total_cost x) (total_cost y)) as [Hle|Hlt]; cbn [descending].
    + split; [|apply IH; exact Hs].
      intros z Hz. rewrite insert_desc_perm in Hz.
      apply elem_of_cons in Hz. destruct Hz as [->|Hz]; [exact Hle|apply Hy; exact Hz].
    + split; [|split; assumption].
      intros z Hz. apply elem_of_cons in Hz. destruct Hz as [->|Hz]; [lia|].
      specialize (Hy z Hz). lia.
Qed.

Lemma ORDER_BY_sorted l : descending (ORDER_BY_total_cost_DESC l).
Proof.
  unfold ORDER_BY_total_cost_DESC. induction l as [|x l IH]; [exact I|].
  cbn [fold_right]. apply insert_desc_sorted. exact IH.
Qed.

Lemma descending_split l : forall n x y,
  descending l -> x ∈ take n l -> y ∈ drop n l -> total_cost y <= total_cost x.
Proof.
  induction l as [|z l IH]; intros n x y Hs Hx Hy.
  - rewrite take_nil in Hx. inversion Hx.
  - destruct n as [|n]; [inversion Hx|].
    destruct Hs as [Hz Hs].
    cbn [take drop] in Hx, Hy. apply elem_of_cons in Hx. destruct Hx as [->|Hx].
    + apply Hz. apply list_elem_of_lookup in Hy. destruct Hy as [i Hi].
      rewrite lookup_drop in Hi. eapply list_elem_of_lookup_2. exact Hi.
    + apply (IH n); assumption.
Qed.

Lemma descending_lookup l : forall i j x y,
  descending l -> (i <= j)%nat -> l !! i = Some x -> l !! j = Some y ->
  total_cost y <= total_cost x.
Proof.
  induction l as [|z l IH]; intros i j x y Hs Hij Hi Hj; [discriminate|].
  destruct Hs as [Hz Hs].
  destruct i as [|i], j as [|j]; cbn in Hi, Hj.
  - injection Hi as <-. injection Hj as <-. lia.
  - injection Hi as <-. apply Hz. eapply list_elem_of_lookup_2. exact Hj.
  - lia.
  - apply (IH i j); [assumption|lia|assumption..].
Qed.

Lemma descending_take l : forall n, descending l -> descending (take n l).
Proof.
  induction l as [|z l IH]; intros [|n] Hs; cbn [take descending]; try exact I.
  destruct Hs as [Hz Hs]. split; [|apply IH; exact Hs].
  intros y Hy. apply Hz. apply list_elem_of_lookup in Hy. destruct Hy as [i Hi].
  apply lookup_take_Some in Hi. eapply list_elem_of_lookup_2. exact (proj1 Hi).
Qed.

(** X20.  The ranking of the top agents: at most ten rows, the ten (or
    all, when there are fewer) agent totals of the tenant, in order of
    non-increasing cost; what is left out costs no more than anything
    that is listed. *)
Theorem top_agents_are_the_costliest (tenant : string)
    (usage_events : list UsageEvent) (agents : list Agent) :
  let all := agent_totals tenant usage_events agents in
  let result := top_agents_by_cost tenant usage_events agents in
  length result = Nat.min 10 (length all) /\
  (forall i j x y, (i <= j)%nat -> result !! i = Some x -> result !! j = Some y ->
                   total_cost y <= total_cost x) /\
  exists rest, result ++ rest ≡ₚ all /\
               forall x y, x ∈ result -> y ∈ rest -> total_cost y <= total_cost x.
Proof.
  intros all result. unfold result, top_agents_by_cost. fold all.
  split; [|split].
  - rewrite length_take. rewrite (Permutation_length (ORDER_BY_perm all)). reflexivity.
  - intros i j x y. apply descending_lookup. apply descending_take, ORDER_BY_sorted.
  - exists (drop 10 (ORDER_BY_total_cost_DESC all)). split.
    + rewrite take_drop. apply ORDER_BY_perm.
    + intros x y. apply descending_split. apply ORDER_BY_sorted.
Qed.

Definition support_bot : Agent := mkAgent "a-1" "Support Bot".
Definition billing_bot : Agent := mkAgent "a-2" "Billing Bot".

Lemma top_agents_are_the_costliest_witness :
  let all := agent_totals "t-1" [e1; e2; e3; e4] [support_bot; billing_bot] in
  let result := top_agents_by_cost "t-1" [e1; e2; e3; e4] [support_bot; billing_bot] in
  length result = Nat.min 10 (length all) /\
  (forall i j x y, (i <= j)%nat -> result !! i = Some x -> result !! j = Some y ->
                   total_cost y <= total_cost x) /\
  exists rest, result ++ rest ≡ₚ all /\
               forall x y, x ∈ result -> y ∈ rest -> total_cost y <= total_cost x.
Proof.
  exact (top_agents_are_the_costliest "t-1" [e1; e2; e3; e4] [support_bot; billing_bot]).
Defined.











End AnalyticsFacts.

(** ** Bounds of the retry loop, of the cost, and the Redis names *)

Module RetryBounds.
Import Resilience ResilienceFacts.

(** The attempts [stop_after_attempt] allows. *)
Definition attempts_allowed (pol : policy) : nat := S (max_attempts pol - 1).

(** X23.  The backoff between attempts stays between the floor and the
    cap of the policy and never shrinks from one attempt to the next;
    with the documented policy it is 1 s, 2 s, 4 s, 8 s and then 10 s
    for every later attempt. *)
Theorem backoff_is_bounded_and_monotone (pol : policy) (k : nat) :
  policy_ok pol -> (1 <= k)%nat ->
  min_wait_ms pol <= wait_exponential pol k <= max_wait_ms pol /\
  wait_exponential pol k <= wait_exponential pol (S k) /\
  map (wait_exponential default_policy) [1; 2; 3; 4; 5; 6]%nat
  = [1000; 2000; 4000; 8000; 10000; 10000].
Proof.
  intros [[H0 Hm] Hc] Hk. unfold wait_exponential.
  assert (Hp : 1 <= 2 ^ (Z.of_nat k - 1)).
  { assert (0 < 2 ^ (Z.of_nat k - 1)) by (apply Z.pow_pos_nonneg; lia). lia. }
  assert (Hs : 2 ^ (Z.of_nat (S k) - 1) = 2 * 2 ^ (Z.of_nat k - 1)).
  { replace (Z.of_nat (S k) - 1) with (Z.succ (Z.of_nat k - 1)) by lia.
    apply Z.pow_succ_r. lia. }
  rewrite Hs. split; [|split; [|reflexivity]].
  - split; [lia|]. apply Z.max_lub; [lia|]. apply Z.le_min_r.
  - assert (multiplier_ms pol * 2 ^ (Z.of_nat k - 1)
            <= multiplier_ms pol * (2 * 2 ^ (Z.of_nat k - 1))) by nia.
    lia.
Qed.

Section FirstSuccess.
Variable pol : policy.
Variable v : VendorAdapter.
Variable req : VendorRequest.

Lemma retry_result_success fuel : forall k resp,
  retry_result pol v req fuel k = inr resp <->
  exists i, (i <= fuel)%nat /\ outcome pol v req (k + i) = inr resp /\
            forall j, (j < i)%nat -> failed pol v req (k + j).
Proof.
  induction fuel as [|fuel IH]; intros k resp; cbn [retry_result].
  - destruct (outcome pol v req k) as [e|r] eqn:Ho.
    + split; [discriminate|]. intros (i & Hi & Hs & _).
      replace i with 0%nat in Hs by lia. rewrite Nat.add_0_r in Hs. congruence.
    + split.
      * intros [= <-]. exists 0%nat. rewrite Nat.add_0_r. split; [lia|]. split; [exact Ho|lia].
      * intros (i & Hi & Hs & _). replace i with 0%nat in Hs by lia.
        rewrite Nat.add_0_r in Hs. congruence.
  - destruct (outcome pol v req k) as [e|r] eqn:Ho.
    + rewrite IH. split.
      * intros (i & Hi & Hs & Hf). exists (S i). split; [lia|]. split.
        -- replace (k + S i)%nat with (S k + i)%nat by lia. exact Hs.
        -- intros [|j] Hj.
           ++ rewrite Nat.add_0_r. exists e. exact Ho.
           ++ replace (k + S j)%nat with (S k + j)%nat by lia. apply Hf. lia.
      * intros (i & Hi & Hs & Hf). destruct i as [|i].
        -- rewrite Nat.add_0_r in Hs. congruence.
        -- exists i. split; [lia|]. split.
           ++ replace (S k + i)%nat with (k + S i)%nat by lia. exact Hs.
           ++ intros j Hj. replace (S k + j)%nat with (k + S j)%nat by lia. apply Hf. lia.
    + split.
      * intros [= <-]. exists 0%nat. rewrite Nat.add_0_r. split; [lia|]. split; [exact Ho|lia].
      * intros (i & Hi & Hs & Hf). destruct i as [|i].
        -- rewrite Nat.add_0_r in Hs. congruence.
        -- destruct (Hf 0%nat ltac:(lia)) as [e He]. rewrite Nat.add_0_r in He. congruence.
Qed.

Lemma retry_result_failure fuel : forall k e,
  retry_result pol v req fuel k = inl e <->
  outcome pol v req (k + fuel) = inl e /\
  forall j, (j <= fuel)%nat -> failed pol v req (k + j).
Proof.
  induction fuel as [|fuel IH]; intros k e; cbn [retry_result].
  - rewrite Nat.add_0_r. destruct (outcome pol v req k) as [e'|r] eqn:Ho.
    + split.
      * intros [= <-]. split; [reflexivity|]. intros j Hj.
        replace j with 0%nat by lia. rewrite Nat.add_0_r. exists e'. exact Ho.
      * intros [[= <-] _]. reflexivity.
    + split; [discriminate|]. intros [[=] _].
  - destruct (outcome pol v req k) as [e'|r] eqn:Ho.
    + rewrite IH. replace (S k + fuel)%nat with (k + S fuel)%nat by lia. split.
      * intros [He Hf]. split; [exact He|]. intros [|j] Hj.
        -- rewrite Nat.add_0_r. exists e'. exact Ho.
        -- replace (k + S j)%nat with (S k + j)%nat by lia. apply Hf. lia.
      * intros [He Hf]. split; [exact He|]. intros j Hj.
        replace (S k + j)%nat with (k + S j)%nat by lia. apply Hf. lia.
    + split; [discriminate|]. intros [_ Hf].
      destruct (Hf 0%nat ltac:(lia)) as [e0 He0]. rewrite Nat.add_0_r in He0. congruence.
Qed.

(** X28.  What the retried call returns: the response of the first
    attempt that answers within the timeout, provided it is one of the
    attempts [stop_after_attempt] allows and every attempt before it
    failed; and when all the allowed attempts fail, the exception of
    the last one ([reraise=True]), never an earlier one. *)
Theorem call_with_retry_returns_first_success (number : nat) (st : caller_state) :
  let n := attempts_allowed pol in
  let res := fst (call_with_retry pol v req number st) in
  (forall resp,
     res = inr resp <->
     exists k, (1 <= k <= n)%nat /\ outcome pol v req k = inr resp /\
               forall j, (1 <= j < k)%nat -> failed pol v req j) /\
  (forall e,
     res = inl e <->
     outcome pol v req n = inl e /\ forall j, (1 <= j <= n)%nat -> failed pol v req j).
Proof.
  intros n res. unfold res. rewrite call_with_retry_eq. cbn [fst].
  unfold n, attempts_allowed. split.
  - intros resp. rewrite retry_result_success. split.
    + intros (i & Hi & Hs & Hf). exists (1 + i)%nat. split; [lia|]. split; [exact Hs|].
      intros j Hj. replace j with (1 + (j - 1))%nat by lia. apply Hf. lia.
    + intros (k & Hk & Hs & Hf). exists (k - 1)%nat. split; [lia|]. split.
      * replace (1 + (k - 1))%nat with k by lia. exact Hs.
      * intros j Hj. apply Hf. lia.
  - intros e. rewrite retry_result_failure.
    replace (1 + (max_attempts pol - 1))%nat with (S (max_attempts pol - 1)) by lia. split.
    + intros [He Hf]. split; [exact He|]. intros j Hj.
      replace j with (1 + (j - 1))%nat by lia. apply Hf. lia.
    + intros [He Hf]. split; [exact He|]. intros j Hj. apply Hf. lia.
Qed.

(** The vendor calls of a timeline, in order: provider and attempt. *)
Fixpoint invoked (tl : list event) : list (provider * nat) :=
  match tl with
  | [] => []
  | Invoke p k :: tl' => (p, k) :: invoked tl'
  | Sleep _ :: tl' => invoked tl'
  end.

Lemma invoked_app a b : invoked (a ++ b) = invoked a ++ invoked b.
Proof.
  induction a as [|[p k|ms] a IH]; cbn [app invoked]; [reflexivity| |exact IH].
  rewrite IH. reflexivity.
Qed.

Lemma invoked_attempt k : invoked (attempt_events pol v req k) = [(name v, k)].
Proof.
  unfold attempt_events.
  destruct (outcome pol v req k) as [e|]; [destruct (0 <? sleep_on_error pol e)|]; reflexivity.
Qed.

(** One retried call invokes its vendor for the attempts 1, 2, ... in
    order, once per audit row. *)
Lemma invoked_retry fuel : forall k number,
  invoked (retry_events pol v req fuel k)
  = map (pair (name v)) (seq k (length (retry_rows pol v req fuel k number))).
Proof.
  induction fuel as [|fuel IH]; intros k number; cbn [retry_events retry_rows];
    rewrite invoked_app, invoked_attempt;
    destruct (outcome pol v req k); cbn [length seq map app invoked]; try reflexivity.
  rewrite (IH (S k) (S number)). reflexivity.
Qed.


(** X29.  An answer that arrives after the timeout is never returned:
    what the retried call returns was answered within the timeout by
    one of the attempts [stop_after_attempt] allows.  With a vendor
    whose every call runs longer than the timeout, all the allowed
    attempts are made, in order, and the call raises
    [VendorCallTimeout], whatever the vendor would have answered
    later. *)
Theorem slow_vendor_times_out (number : nat) (st : caller_state) :
  (forall resp,
     fst (call_with_retry pol v req number st) = inr resp ->
     exists k, (1 <= k <= attempts_allowed pol)%nat /\
               raw_result (send_message v req k) = inr resp /\
               elapsed_ms (send_message v req k) <= timeout_ms pol) /\
  ((forall k, timeout_ms pol < elapsed_ms (send_message v req k)) ->
   fst (call_with_retry pol v req number st) = inl VendorCallTimeout /\
   invoked (events_since st (snd (call_with_retry pol v req number st)))
   = map (pair (name v)) (seq 1 (attempts_allowed pol))).
Proof.
  rewrite call_with_retry_eq. cbn [fst snd]. split.
  - intros resp Hres. apply retry_result_success in Hres.
    destruct Hres as (i & Hi & Hs & _). exists (1 + i)%nat.
    split; [unfold attempts_allowed; lia|].
    unfold outcome, _call_with_timeout in Hs.
    destruct (Z.ltb_spec (timeout_ms pol) (elapsed_ms (send_message v req (1 + i))));
      cbn [snd] in Hs; [discriminate|]. split; [exact Hs|lia].
  - intros Hslow.
    assert (Hfail : forall k, outcome pol v req k = inl VendorCallTimeout).
    { intros k. unfold outcome, _call_with_timeout. specialize (Hslow k).
      destruct (Z.ltb_spec (timeout_ms pol) (elapsed_ms (send_message v req k)));
        [reflexivity|lia]. }
    assert (Hres : retry_result pol v req (max_attempts pol - 1) 1 = inl VendorCallTimeout).
    { apply retry_result_failure. split; [apply Hfail|].
      intros j _. exists VendorCallTimeout. apply Hfail. }
    split; [exact Hres|].
    unfold events_since. cbn [timeline]. rewrite drop_app_length.
    rewrite (invoked_retry _ _ number).
    rewrite (retry_rows_exhausted pol v req _ _ _ _ Hres). reflexivity.
Qed.

End FirstSuccess.

(** A vendor that needs 12 seconds for every answer. *)
Definition vendor_too_slow : VendorAdapter :=
  mkAdapter vendorA (fun _ _ => answer 12000).

Lemma call_with_retry_returns_first_success_witness :
  exists k, (1 <= k <= attempts_allowed default_policy)%nat /\
            outcome default_policy vendor_b_up request_abc k
            = inr (mkResponse "..." 100 150 340) /\
            forall j, (1 <= j < k)%nat -> failed default_policy vendor_b_up request_abc j.
Proof.
  apply (proj1 (proj1 (call_with_retry_returns_first_success default_policy vendor_b_up
                         request_abc 1 initial_state) (mkResponse "..." 100 150 340))).
  reflexivity.
Defined.

(** Three calls of 12 seconds each are abandoned, and the answers the
    vendor held are lost. *)
Lemma slow_vendor_times_out_witness :
  raw_result (send_message vendor_too_slow request_abc 1)
  = inr (mkResponse "..." 100 150 12000) /\
  fst (call_with_retry default_policy vendor_too_slow request_abc 1 initial_state)
  = inl VendorCallTimeout /\
  invoked (events_since initial_state
             (snd (call_with_retry default_policy vendor_too_slow request_abc 1 initial_state)))
  = [(vendorA, 1%nat); (vendorA, 2%nat); (vendorA, 3%nat)].
Proof.
  split; [reflexivity|].
  apply (proj2 (slow_vendor_times_out default_policy vendor_too_slow request_abc 1
                  initial_state)).
  intros k. reflexivity.
Defined.

Lemma backoff_is_bounded_and_monotone_witness :
  min_wait_ms default_policy <= wait_exponential default_policy 2
    <= max_wait_ms default_policy /\
  wait_exponential default_policy 2 <= wait_exponential default_policy 3 /\
  map (wait_exponential default_policy) [1; 2; 3; 4; 5; 6]%nat
  = [1000; 2000; 4000; 8000; 10000; 10000].
Proof.
  apply (backoff_is_bounded_and_monotone default_policy 2).
  - unfold policy_ok. cbn. lia.
  - lia.
Defined.



End RetryBounds.

Module BillingRange.
Import PyDecimal Billing DecimalFacts BillingFacts.

(** The price of a provider in millionths of a dollar per token. *)
Definition micro_per_token (p : provider) : Z := coef (input_tokens (PRICING p)).

(** X24.  For token counts that fit the [INTEGER] columns of
    [usage_events], [calculate_cost] never raises and returns, at six
    decimal places, exactly 2 millionths of a dollar per token for
    vendorA and 3 for vendorB, input and output alike; so the cost of a
    message depends on the total of its tokens only, and vendorA's
    always fits [DECIMAL(10, 6)]. *)
Theorem calculate_cost_on_integer_columns (p : provider) (tokens_in tokens_out : Z) :
  0 <= tokens_in <= 2147483647 -> 0 <= tokens_out <= 2147483647 ->
  calculate_cost p tokens_in tokens_out
  = inr (mkDecimal (micro_per_token p * (tokens_in + tokens_out)) (-6)) /\
  micro_per_token p = match p with vendorA => 2 | vendorB => 3 end /\
  (p = vendorA -> micro_per_token p * (tokens_in + tokens_out) < 10 ^ 10).
Proof.
  intros Hi Ho. split; [|split].
  - unfold calculate_cost. rewrite calculate_cost_with_exact.
    + f_equal. f_equal. unfold micro_cost, micro_per_token. destruct p; cbn; lia.
    + unfold milli_priced. destruct p; cbn; lia.
    + lia.
    + lia.
    + unfold prec. change (10 ^ 28) with 10000000000000000000000000000. lia.
    + unfold prec. change (10 ^ 28) with 10000000000000000000000000000. lia.
    + unfold micro_cost, prec. change (10 ^ 28) with 10000000000000000000000000000.
      destruct p; cbn [PRICING input_tokens output_tokens coef]; lia.
  - destruct p; reflexivity.
  - intros ->. change (10 ^ 10) with 10000000000. cbn. lia.
Qed.

Lemma calculate_cost_on_integer_columns_witness :
  calculate_cost vendorA 500 300 = inr (mkDecimal (micro_per_token vendorA * (500 + 300)) (-6)) /\
  micro_per_token vendorA = 2 /\
  (vendorA = vendorA -> micro_per_token vendorA * (500 + 300) < 10 ^ 10).
Proof.
  apply (calculate_cost_on_integer_columns vendorA 500 300); lia.
Defined.

End BillingRange.

Module RedisNames.
Import Idempotency IdempotencyFacts Dashboard.

(** No colon in a string. *)
Definition colon_free (s : string) : bool :=
  all_chars (fun c => negb (Ascii.eqb c ":")) s.

Lemma colon_split tA : forall tB kA kB,
  colon_free tA = true -> colon_free tB = true ->
  tA +:+ ":" +:+ kA = tB +:+ ":" +:+ kB -> tA = tB /\ kA = kB.
Proof.
  induction tA as [|a tA IH]; intros [|b tB] kA kB HA HB H.
  - injection H as H. split; [reflexivity|exact H].
  - exfalso. injection H as Hc _. subst b. cbn in HB. discriminate.
  - exfalso. injection H as Hc _. subst a. cbn in HA. discriminate.
  - change (String a (tA +:+ ":" +:+ kA) = String b (tB +:+ ":" +:+ kB)) in H.
    injection H as -> H.
    cbn [colon_free all_chars] in HA, HB.
    apply andb_prop in HA. apply andb_prop in HB.
    destruct (IH tB kA kB (proj2 HA) (proj2 HB) H) as [-> ->]. split; reflexivity.
Qed.

(** X25.  The Redis name [idempotency:{tenant_id}:{key}] tells tenants
    and keys apart as long as tenant ids hold no colon (UUIDs do not):
    two names are equal only for the same tenant and the same key.
    With a colon in a tenant id two different pairs can share a
    name. *)
Theorem redis_name_injective (tA kA tB kB : string) :
  colon_free tA = true -> colon_free tB = true ->
  (redis_name tA kA = redis_name tB kB <-> tA = tB /\ kA = kB) /\
  redis_name "a:b" "c" = redis_name "a" "b:c".
Proof.
  intros HA HB. split; [|reflexivity]. split.
  - unfold redis_name. intros H.
    apply (inj (String.append "idempotency:")) in H.
    apply colon_split; assumption.
  - intros [-> ->]. reflexivity.
Qed.

Lemma redis_name_injective_witness :
  (redis_name "tenant-1" "k:1" = redis_name "tenant-2" "k:1"
   <-> "tenant-1" = "tenant-2" /\ "k:1" = "k:1") /\
  redis_name "a:b" "c" = redis_name "a" "b:c".
Proof.
  apply (redis_name_injective "tenant-1" "k:1" "tenant-2" "k:1"); reflexivity.
Defined.

End RedisNames.
